(** * Prose: lexer, condition parser and tree-walking interpreter

    A shallow embedding of the parts of [src/prose_lang/lexer.py],
    [src/prose_lang/parser.py] and [src/prose_lang/interpreter.py] that the
    specification's properties talk about, with the properties stated and
    settled against it. *)

From Stdlib Require Import ZArith List Bool Lia.
From Stdlib Require Import Strings.Ascii Strings.String.
From Stdlib Require Import Floats.SpecFloat.
From stdpp Require Import base option list gmap strings pretty.

Set Warnings "-register-all".

Local Open Scope Z_scope.

(* ===================================================================== *)
(** * Characters

    A source text is modelled over the code points below 256: a character
    is an [ascii], read as the code point of that number (the Latin-1 range
    of Unicode), and the classification methods are the ones of Python's
    [str] on that range. *)
(* ===================================================================== *)

Module Chars.

Definition code (c : ascii) : N := N_of_ascii c.

Definition between (lo hi : N) (c : ascii) : bool :=
  ((lo <=? code c) && (code c <=? hi))%N.

(** [str.isdigit]: the decimal digits and the superscripts two, three and
    one. *)
Definition isdigit (c : ascii) : bool :=
  between 48 57 c || between 178 179 c || between 185 185 c.

(** [str.isalpha]: the letters of the range, among them the two ordinal
    indicators and the micro sign. *)
Definition isalpha (c : ascii) : bool :=
  between 65 90 c || between 97 122 c
  || between 170 170 c || between 181 181 c || between 186 186 c
  || between 192 214 c || between 216 246 c || between 248 255 c.

(** [str.isalnum]: a letter, a digit, or one of the three vulgar
    fractions, which are numeric. *)
Definition isalnum (c : ascii) : bool :=
  isalpha c || isdigit c || between 188 190 c.

Definition NL : ascii := "010"%char.
Definition TAB : ascii := "009"%char.
Definition CR : ascii := "013"%char.
Definition QUOTE : ascii := "034"%char.
Definition BACKSLASH : ascii := "092"%char.

Definition eqc (a b : ascii) : bool := Ascii.eqb a b.

(** [ch in " \t\r\n"] *)
Definition is_blank (c : ascii) : bool :=
  eqc c " " || eqc c TAB || eqc c CR || eqc c NL.

(** The characters [str.splitlines] breaks a line at (besides CR LF): the
    line feed, the carriage return, the vertical tab, the form feed, the
    file, group and record separators, and the next-line character. *)
Definition is_linebreak (c : ascii) : bool :=
  eqc c NL || eqc c CR || between 11 12 c || between 28 30 c
  || between 133 133 c.

(** [str.isspace], the characters [str.lstrip] and [str.strip] remove:
    the blank, the controls 9 to 13 and 28 to 31, the next-line character
    and the no-break space. *)
Definition isspace (c : ascii) : bool :=
  eqc c " " || between 9 13 c || between 28 31 c
  || between 133 133 c || between 160 160 c.

(** [str.lower] on one character: the capital letters of the range are 65
    to 90 and 192 to 222 without the multiplication sign 215. *)
Definition lower (c : ascii) : ascii :=
  if between 65 90 c || between 192 214 c || between 216 222 c
  then ascii_of_N (code c + 32) else c.

Definition lower_string (s : string) : string :=
  string_of_list_ascii (map lower (list_ascii_of_string s)).

End Chars.

(* ===================================================================== *)
(** * Lexer ([lexer.py]) *)
(* ===================================================================== *)

Module Lexer.
Import Chars.

Inductive token_type :=
| WORD | NUMBER | COMMA | PERIOD | COLON | LBRACE | RBRACE
| STRING_QUOTED | INTERP_STRING | EOF
| PLUS | MINUS | STAR | SLASH | PERCENT | EQ | NEQ | LTE | GTE | LT | GT.

#[global] Instance token_type_eq_dec : EqDecision token_type.
Proof. solve_decision. Defined.

Record Token := mkToken { type : token_type; value : string; line : Z }.

(** The two ways the lexer raises [LexerError]: [Lexer.error ch] and the
    unclosed-string report. *)
Inductive LexerError :=
| UnknownCharacter (ch : ascii) (line : Z)
| UnclosedString (start_line : Z).

(** ** [strip_comments] *)

(** [source.splitlines(keepends=True)] *)
Fixpoint splitlines (src cur : list ascii) : list (list ascii) :=
  match src with
  | [] => match cur with [] => [] | _ => [cur] end
  | c :: rest =>
      if eqc c CR then
        match rest with
        | d :: rest' =>
            if eqc d NL then (cur ++ [c; d]) :: splitlines rest' []
            else (cur ++ [c]) :: splitlines rest []
        | [] => (cur ++ [c]) :: splitlines rest []
        end
      else if is_linebreak c then (cur ++ [c]) :: splitlines rest []
      else splitlines rest (cur ++ [c])
  end.

Fixpoint lstrip (l : list ascii) : list ascii :=
  match l with
  | c :: rest => if isspace c then lstrip rest else l
  | [] => []
  end.

Fixpoint startswith (l p : list ascii) : bool :=
  match p, l with
  | [], _ => true
  | a :: p', b :: l' => eqc a b && startswith l' p'
  | _ :: _, [] => false
  end.

Definition is_comment_line (ln : list ascii) : bool :=
  startswith (map lower (lstrip ln)) (list_ascii_of_string "note:").

Definition strip_comments (source : list ascii) : list ascii :=
  concat (map (fun ln => if is_comment_line ln then [NL] else ln)
              (splitlines source [])).

(** ** The scanning loops

    [src] is [self.source], [pos] is [self.pos] and [line] is
    [self.line]. Every loop of the lexer stops at the end of the source;
    the loops below recurse on a bound that the caller sets to the length
    of the source. *)

Section Scan.
Variable src : list ascii.

(** [self.pos + k < len(self.source) and self.source[self.pos + k] == c] *)
Definition at_is (pos : nat) (c : ascii) : bool :=
  match src !! pos with Some d => eqc d c | None => false end.

Definition at_digit (pos : nat) : bool :=
  match src !! pos with Some d => isdigit d | None => false end.

(** [skip_whitespace], through [advance], which counts the newlines. *)
Fixpoint skip_whitespace (n : nat) (pos : nat) (line : Z) : nat * Z :=
  match n with
  | O => (pos, line)
  | S n' =>
      match src !! pos with
      | Some ch =>
          if is_blank ch
          then skip_whitespace n' (S pos) (if eqc ch NL then line + 1 else line)
          else (pos, line)
      | None => (pos, line)
      end
  end.

(** [read_number]: the loop; the result is the new position and [buf]. *)
Fixpoint read_number_loop (n : nat) (pos : nat) (buf : list ascii)
  : nat * list ascii :=
  match n with
  | O => (pos, buf)
  | S n' =>
      match src !! pos with
      | Some ch =>
          if isdigit ch || eqc ch "."
          then
            if eqc ch "."
            then
              if at_digit (pos + 1)
              then read_number_loop n' (S pos) (buf ++ [ch])
              else (pos, buf)
            else read_number_loop n' (S pos) (buf ++ [ch])
          else (pos, buf)
      | None => (pos, buf)
      end
  end.

Definition read_number (pos : nat) (line : Z) : nat * Token :=
  let '(pos', buf) := read_number_loop (length src) pos [] in
  (pos', mkToken NUMBER (string_of_list_ascii buf) line).

Fixpoint read_word_loop (n : nat) (pos : nat) (buf : list ascii)
  : nat * list ascii :=
  match n with
  | O => (pos, buf)
  | S n' =>
      match src !! pos with
      | Some ch =>
          if isalnum ch || eqc ch "_"
          then read_word_loop n' (S pos) (buf ++ [ch])
          else (pos, buf)
      | None => (pos, buf)
      end
  end.

(** [read_word] is entered with a letter or underscore under the cursor. *)
Definition read_word (pos : nat) (line : Z) : nat * Token :=
  match src !! pos with
  | Some ch =>
      let '(pos', buf) := read_word_loop (length src) (S pos) [ch] in
      (pos', mkToken WORD (string_of_list_ascii buf) line)
  | None => (pos, mkToken WORD EmptyString line)
  end.

(** [while self.pos < len(self.source) and self.source[self.pos] != '\n'] *)
Fixpoint skip_to_eol (n : nat) (pos : nat) : nat :=
  match n with
  | O => pos
  | S n' =>
      match src !! pos with
      | Some ch => if eqc ch NL then pos else skip_to_eol n' (S pos)
      | None => pos
      end
  end.

(** The body of a quoted string, entered after the opening quote. The
    result is the position where the loop stopped, the line counter,
    the buffer and [has_interp]. *)
Fixpoint read_string_loop (n : nat) (pos : nat) (line : Z)
    (buf : list ascii) (has_interp : bool)
  : nat * Z * list ascii * bool :=
  match n with
  | O => (pos, line, buf, has_interp)
  | S n' =>
      match src !! pos with
      | None => (pos, line, buf, has_interp)
      | Some c =>
          if eqc c QUOTE then (pos, line, buf, has_interp)
          else
            let plain :=
              read_string_loop n' (S pos)
                (if eqc c NL then line + 1 else line)
                (buf ++ [c])
                (has_interp || eqc c "{") in
            if eqc c BACKSLASH then
              match src !! (pos + 1)%nat with
              | Some nxt =>
                  if eqc nxt "n" then
                    read_string_loop n' (pos + 2) line (buf ++ [NL]) has_interp
                  else if eqc nxt "t" then
                    read_string_loop n' (pos + 2) line (buf ++ [TAB]) has_interp
                  else if eqc nxt "{" then
                    read_string_loop n' (pos + 2) line (buf ++ ["{"%char]) has_interp
                  else if eqc nxt QUOTE then
                    read_string_loop n' (pos + 2) line (buf ++ [QUOTE]) has_interp
                  else if eqc nxt BACKSLASH then
                    read_string_loop n' (pos + 2) line (buf ++ [BACKSLASH]) has_interp
                  else plain
              | None => plain
              end
            else plain
      end
  end.

Inductive lex_result :=
| Tokens (tokens : list Token)
| Raised (e : LexerError)
| Unfinished.

(** [tokens.append(Token(EOF, empty, self.line)); return tokens] *)
Definition finish (line : Z) (tokens : list Token) : lex_result :=
  Tokens (tokens ++ [mkToken EOF EmptyString line]).

(** The main loop of [tokenize]: one round of the [while] per unit of
    [n]. [Unfinished] is the answer when [n] rounds were not enough. *)
Fixpoint tokenize_loop (n : nat) (pos : nat) (line : Z)
    (tokens : list Token) : lex_result :=
  if (length src <=? pos)%nat then finish line tokens
  else
    match n with
    | O => Unfinished
    | S n' =>
        let '(pos, line) := skip_whitespace (length src) pos line in
        match src !! pos with
        | None => finish line tokens
        | Some ch =>
            let emit (ty : token_type) (text : string) (k : nat) :=
              tokenize_loop n' (pos + k) line
                (tokens ++ [mkToken ty text line]) in
            if eqc ch "." then
              if at_is (pos + 1) "." && at_is (pos + 2) "."
              then tokenize_loop n' (pos + 3) line tokens
              else emit PERIOD "." 1%nat
            else if eqc ch "," then emit COMMA "," 1%nat
            else if eqc ch ":" then emit COLON ":" 1%nat
            else if eqc ch "{" then emit LBRACE "{" 1%nat
            else if eqc ch "}" then emit RBRACE "}" 1%nat
            else if eqc ch QUOTE then
              let start_line := line in
              let '(pos', line', buf, has_interp) :=
                read_string_loop (length src) (S pos) line [] false in
              if (length src <=? pos')%nat then Raised (UnclosedString start_line)
              else
                tokenize_loop n' (S pos') line'
                  (tokens ++ [mkToken (if has_interp then INTERP_STRING
                                       else STRING_QUOTED)
                                      (string_of_list_ascii buf) start_line])
            else if eqc ch "+" then emit PLUS "+" 1%nat
            else if eqc ch "-" then
              if at_is (pos + 1) "-" && at_is (pos + 2) "-"
              then tokenize_loop n' (skip_to_eol (length src) pos) line tokens
              else emit MINUS "-" 1%nat
            else if eqc ch "*" then emit STAR "*" 1%nat
            else if eqc ch "/" then
              if at_is (pos + 1) "/"
              then tokenize_loop n' (skip_to_eol (length src) pos) line tokens
              else emit SLASH "/" 1%nat
            else if eqc ch "%" then emit PERCENT "%" 1%nat
            else if eqc ch "!" then
              if at_is (pos + 1) "="
              then emit NEQ "!=" 2%nat
              else Raised (UnknownCharacter ch line)
            else if eqc ch "<" then
              if at_is (pos + 1) "="
              then emit LTE "<=" 2%nat
              else emit LT "<" 1%nat
            else if eqc ch ">" then
              if at_is (pos + 1) "="
              then emit GTE ">=" 2%nat
              else emit GT ">" 1%nat
            else if eqc ch "=" then emit EQ "=" 1%nat
            else if isdigit ch then
              let '(pos', tok) := read_number pos line in
              tokenize_loop n' pos' line (tokens ++ [tok])
            else if isalpha ch || eqc ch "_" then
              let '(pos', tok) := read_word pos line in
              tokenize_loop n' pos' line (tokens ++ [tok])
            else Raised (UnknownCharacter ch line)
        end
    end.

End Scan.

(** [Lexer(source).tokenize()]: the constructor strips the comment lines,
    the cursor starts at position 0 of line 1. *)
Definition tokenize (source : string) : lex_result :=
  let src := strip_comments (list_ascii_of_string source) in
  tokenize_loop src (S (length src)) 0 1 [].

End Lexer.

(* ===================================================================== *)
(** * Abstract syntax ([parser.py], the dataclasses)

    The node kinds the properties need. A Python float is an IEEE binary64
    number, [spec_float] at precision 53. *)
(* ===================================================================== *)

Module Ast.

Inductive expr :=
| NumberLiteral (value : spec_float) (line : Z)
| StringLiteral (value : string) (line : Z)
| BoolLiteral (value : bool) (line : Z)
| NoneLiteral (line : Z)
| Identifier (name : string) (line : Z)
| BinOp (left : expr) (op : string) (right : expr) (line : Z)
| UnaryMinus (operand : expr) (line : Z)
| ListLiteral (elements : list expr) (line : Z)
| DictLiteral (pairs : list (expr * expr)) (line : Z)
| DictAccess (dict_expr key_expr : expr) (line : Z)
| NewInstanceExpr (class_name : string) (args : list (expr * expr)) (line : Z)
| WaitExpr (e : expr) (line : Z).

(** A condition is a [Condition], a [CompoundCondition], or a node that
    [parse_single_condition] hands back as it is; of the latter the
    fragment has the [BoolLiteral]. *)
Inductive cond :=
| Condition (left : expr) (op : string) (right : option expr) (line : Z)
| CompoundCondition (left : cond) (connective : string) (right : cond) (line : Z)
| BoolCondition (value : bool) (line : Z).

Record ParamDef := mkParam { p_name : string; default_expr : option expr }.

(** Statements. A [FunctionDef] and a [MethodDef] are statements that carry
    their body; the fragment has the synchronous ones. *)
Inductive stmt :=
| LetStmt (name : string) (e : expr) (line : Z)
| LetResultStmt (variable func_name : string) (args : list expr) (line : Z)
    (obj_expr : option expr)
| IfStmt (condition : cond) (then_body else_body : list stmt) (line : Z)
| RepeatStmt (count : expr) (body : list stmt) (line : Z)
| WhileStmt (condition : cond) (body : list stmt) (line : Z)
| FunctionDef (name : string) (params : list ParamDef) (body : list stmt) (line : Z)
| CallStmt (name : string) (args : list expr) (line : Z) (obj_expr : option expr)
| GiveBackStmt (e : expr) (line : Z)
| StopStmt (line : Z)
| SkipStmt (line : Z)
| TryCatch (try_body : list stmt) (error_var : string) (catch_body : list stmt)
    (line : Z)
| AttemptStmt (try_body : list stmt) (error_var : string) (catch_body : list stmt)
    (line : Z)
| SetDictValueStmt (dict_expr key_expr value_expr : expr) (line : Z)
| RemoveDictValueStmt (dict_expr key_expr : expr) (line : Z)
| ThrowStmt (msg_expr : expr) (line : Z)
| ClassDef (name : string) (properties : list string) (parent : option string)
    (line : Z)
| MethodDef (class_name name : string) (params : list ParamDef) (body : list stmt)
    (line : Z).

(** What the function table keeps of a [FunctionDef]. *)
Record function_def := mkFunction {
  f_name : string; f_params : list ParamDef; f_body : list stmt }.

(** What the class table keeps of a [ClassDef]. *)
Record class_def := mkClass {
  c_name : string; c_properties : list string; c_parent : option string }.

(** What a method table keeps of a [MethodDef]. *)
Record method_def := mkMethod {
  m_class_name : string; m_name : string;
  m_params : list ParamDef; m_body : list stmt }.

End Ast.

(* ===================================================================== *)
(** * Parser: compound conditions ([parser.py], [Parser]) *)
(* ===================================================================== *)

Module Parser.
Import Chars Lexer Ast.

Inductive presult (A : Type) :=
| Parsed (a : A) (pos : nat)       (* the value and the new [self.pos] *)
| ParseError (line : Z) (found : string)
| IndexError                       (* [self.tokens[self.pos]] out of range *)
| Unfinished.
Arguments Parsed {A} a pos.
Arguments ParseError {A} line found.
Arguments IndexError {A}.
Arguments Unfinished {A}.

Section Parser.
(** [self.tokens] *)
Variable tokens : list Token.

(** [parse_single_condition], a function of the cursor: it gives the
    node and the cursor it leaves, or raises. *)
Variable parse_single_condition : nat -> presult cond.

(** [current] *)
Definition current (pos : nat) : option Token := tokens !! pos.

(** [advance]: the token under the cursor and the next cursor, which
    stays on the last token. *)
Definition advance (pos : nat) : option (Token * nat) :=
  match tokens !! pos with
  | Some tok => Some (tok, if (pos <? length tokens - 1)%nat then S pos else pos)
  | None => None
  end.

(** [word_is] *)
Definition word_is (words : list string) (pos : nat) : option bool :=
  match current pos with
  | Some tok =>
      Some (bool_decide (type tok = WORD) &&
            existsb (String.eqb (lower_string (value tok)))
                    (map lower_string words))
  | None => None
  end.

(** The [while self.word_is("and", "or")] loop of
    [parse_compound_condition], one round per unit of [n]. *)
Fixpoint compound_loop (n : nat) (line : Z) (lhs : cond) (pos : nat)
  : presult cond :=
  match word_is ["and"; "or"]%string pos with
  | None => IndexError
  | Some false => Parsed lhs pos
  | Some true =>
      match n with
      | O => Unfinished
      | S n' =>
          match advance pos with
          | None => IndexError
          | Some (tok, pos1) =>
              let connective := lower_string (value tok) in
              match parse_single_condition pos1 with
              | Parsed rhs pos2 =>
                  compound_loop n' line
                    (CompoundCondition lhs connective rhs line) pos2
              | ParseError l f => ParseError l f
              | IndexError => IndexError
              | Unfinished => Unfinished
              end
          end
      end
  end.

(** [parse_compound_condition] *)
Definition parse_compound_condition (pos : nat) : presult cond :=
  match current pos with
  | None => IndexError
  | Some tok =>
      let line := Lexer.line tok in
      match parse_single_condition pos with
      | Parsed lhs pos1 => compound_loop (length tokens) line lhs pos1
      | ParseError l f => ParseError l f
      | IndexError => IndexError
      | Unfinished => Unfinished
      end
  end.

(** [parse_condition] *)
Definition parse_condition (pos : nat) : presult cond :=
  parse_compound_condition pos.

End Parser.

End Parser.

(* ===================================================================== *)
(** * The host numbers

    A Python [int] is a [Z]. A Python [float] is an IEEE binary64 number:
    [spec_float] with the operations of [SpecFloat] at precision 53 and
    maximal exponent 1024, rounding to nearest, ties to even. *)
(* ===================================================================== *)

Module PyNum.

Definition prec : Z := 53.
Definition emax : Z := 1024.

Definition fadd : spec_float -> spec_float -> spec_float := SFadd prec emax.
Definition fsub : spec_float -> spec_float -> spec_float := SFsub prec emax.
Definition fmul : spec_float -> spec_float -> spec_float := SFmul prec emax.
Definition fdiv : spec_float -> spec_float -> spec_float := SFdiv prec emax.
Definition feqb : spec_float -> spec_float -> bool := SFeqb.
Definition fltb : spec_float -> spec_float -> bool := SFltb.
Definition fleb : spec_float -> spec_float -> bool := SFleb.

Definition is_inf (f : spec_float) : bool :=
  match f with S754_infinity _ => true | _ => false end.

(** The failures of the conversions between [int] and [float]. *)
Inductive conv_error := OverflowError | ValueError.

(** [float(n)] for an [int]: rounded to nearest; [OverflowError] when the
    integer is beyond the floats. *)
Definition float_of_int (n : Z) : conv_error + spec_float :=
  let f := binary_normalize prec emax n 0 false in
  if is_inf f then inl OverflowError else inr f.

(** [int(f)] for a [float]: truncation towards zero. *)
Definition int_of_float (f : spec_float) : conv_error + Z :=
  match f with
  | S754_zero _ => inr 0
  | S754_infinity _ => inl OverflowError
  | S754_nan => inl ValueError
  | S754_finite s m e =>
      let a := if 0 <=? e then Z.shiftl (Zpos m) e else Z.shiftr (Zpos m) (- e) in
      inr (if s then - a else a)
  end.

(** [f == n] for a [float] and an [int]: the comparison is exact. *)
Definition float_eq_int (f : spec_float) (n : Z) : bool :=
  match f with
  | S754_zero _ => n =? 0
  | S754_infinity _ | S754_nan => false
  | S754_finite s m e =>
      let v := if s then Zneg m else Zpos m in
      if 0 <=? e then n =? Z.shiftl v e else Z.shiftl n (- e) =? v
  end.

(** The plain integer as an unrounded float, for the division below. *)
Definition raw_of_int (n : Z) : spec_float :=
  match n with
  | Z0 => S754_zero false
  | Zpos m => S754_finite false m 0
  | Zneg m => S754_finite true m 0
  end.

(** [a / b] for two [int]s, [b] not zero: the quotient rounded once;
    [OverflowError] when it is beyond the floats. *)
Definition int_truediv (a b : Z) : conv_error + spec_float :=
  let f := fdiv (raw_of_int a) (raw_of_int b) in
  if is_inf f then inl OverflowError else inr f.

Definition is_neg (f : spec_float) : bool := fltb f (S754_zero false).
Definition is_zero (f : spec_float) : bool := feqb f (S754_zero false).

(** C's [fmod] for a divisor that is not zero: the remainder of the
    truncated division, exact, with the sign of [x]. *)
Definition fmod (x y : spec_float) : spec_float :=
  match x, y with
  | S754_nan, _ | _, S754_nan => S754_nan
  | S754_infinity _, _ => S754_nan
  | _, S754_infinity _ => x
  | S754_zero _, _ => x
  | _, S754_zero _ => S754_nan
  | S754_finite sx mx ex, S754_finite sy my ey =>
      let e := Z.min ex ey in
      let r := Z.rem (Z.shiftl (Zpos mx) (ex - e)) (Z.shiftl (Zpos my) (ey - e)) in
      if r =? 0 then S754_zero sx
      else binary_normalize prec emax (if sx then - r else r) e false
  end.

(** [x % y] for two [float]s, [y] not zero ([float_rem] of CPython): the
    remainder takes the sign of the divisor. *)
Definition float_mod (x y : spec_float) : spec_float :=
  let m := fmod x y in
  if is_zero m then S754_zero (is_neg y)
  else if negb (Bool.eqb (is_neg y) (is_neg m)) then fadd m y
  else m.

(** Floats written as [m * 2^e], for the examples. *)
Definition mk_float (m e : Z) : spec_float := binary_normalize prec emax m e false.

End PyNum.

(* ===================================================================== *)
(** * Run-time values and the interpreter state ([interpreter.py])

    Python objects that are mutated in place or compared by identity live in
    stores of the state and are referred to by their index: the [vars] dict
    of an [Environment], lists, dicts and the property bag of an [Instance].
    The [parent] link of an [Environment] is set once, by the constructor,
    so an [Environment] is the index of its [vars] and its parent.

    A reference that no store holds reads as the empty object; no state the
    interpreter builds has one. *)
(* ===================================================================== *)

Module Runtime.
Import Chars Ast PyNum.

(** [class Environment] *)
Inductive Environment := Env (vars : nat) (parent : option Environment).

Definition env_vars (env : Environment) : nat :=
  match env with Env vars _ => vars end.
Definition env_parent (env : Environment) : option Environment :=
  match env with Env _ parent => parent end.

(** The exceptions that are errors: [RuntimeError_] with the [plain_stack]
    the call frames attach to it, the two loop signals, and the exceptions
    of Python itself, by class name and text. *)
Inductive error :=
| RuntimeError_ (msg : string) (plain_stack : list string)
| StopException
| SkipException
| PyError (cls : string) (msg : string).

(** Values. A [VClosure] is a [Closure] object, [id] standing for its
    identity; a [VTask] is the handle of an async call whose thread has
    come to its end, with the two fields the thread has filled in. *)
Inductive value :=
| VNone
| VBool (b : bool)
| VInt (n : Z)
| VFloat (f : spec_float)
| VStr (s : string)
| VList (ref : nat)
| VDict (ref : nat)
| VClosure (id : nat) (node : function_def) (env : Environment)
| VInstance (class_name : string) (properties : nat)
| VTask (id : nat) (thread_result : value) (thread_error : option error).

(** All that can be raised: an error or [ReturnException]. *)
Inductive exn :=
| Error (e : error)
| ReturnException (v : value).

(** [class Interpreter], with the stores. *)
Record State := mkState {
  scopes : list (gmap string value);
  lists : list (list value);
  dicts : list (list (value * value));
  bags : list (gmap string value);
  next_id : nat;
  functions : gmap string function_def;
  classes : gmap string class_def;
  methods : gmap string (gmap string method_def);
  global_env : Environment }.

Definition with_scopes (f : list (gmap string value) -> list (gmap string value))
    (st : State) : State :=
  mkState (f (scopes st)) (lists st) (dicts st) (bags st) (next_id st)
          (functions st) (classes st) (methods st) (global_env st).
Definition with_lists (f : list (list value) -> list (list value))
    (st : State) : State :=
  mkState (scopes st) (f (lists st)) (dicts st) (bags st) (next_id st)
          (functions st) (classes st) (methods st) (global_env st).
Definition with_dicts (f : list (list (value * value)) -> list (list (value * value)))
    (st : State) : State :=
  mkState (scopes st) (lists st) (f (dicts st)) (bags st) (next_id st)
          (functions st) (classes st) (methods st) (global_env st).
Definition with_bags (f : list (gmap string value) -> list (gmap string value))
    (st : State) : State :=
  mkState (scopes st) (lists st) (dicts st) (f (bags st)) (next_id st)
          (functions st) (classes st) (methods st) (global_env st).
Definition with_next_id (n : nat) (st : State) : State :=
  mkState (scopes st) (lists st) (dicts st) (bags st) n
          (functions st) (classes st) (methods st) (global_env st).
Definition with_functions (f : gmap string function_def) (st : State) : State :=
  mkState (scopes st) (lists st) (dicts st) (bags st) (next_id st)
          f (classes st) (methods st) (global_env st).
Definition with_classes (c : gmap string class_def) (st : State) : State :=
  mkState (scopes st) (lists st) (dicts st) (bags st) (next_id st)
          (functions st) c (methods st) (global_env st).
Definition with_methods (m : gmap string (gmap string method_def)) (st : State)
    : State :=
  mkState (scopes st) (lists st) (dicts st) (bags st) (next_id st)
          (functions st) (classes st) m (global_env st).

(** [Interpreter()]: one empty global scope, empty tables. *)
Definition new_interpreter : State :=
  mkState [∅] [] [] [] 0 ∅ ∅ ∅ (Env 0 None).

(** ** What is left to the host

    Four functions of Python that the interpreter calls and that are taken
    as given: the text of a float, the reading of a float from text, the
    text of a container or object, and the equality of two containers. *)
Class Host := {
  str_of_float : spec_float -> string;
  float_of_str : string -> option spec_float;
  str_of_object : State -> value -> string;
  eq_of_object : State -> value -> value -> bool }.

(** ** Results *)

Inductive result (A : Type) :=
| Ok (a : A)
| Raise (e : exn)
| OutOfFuel.
Arguments Ok {A} a.
Arguments Raise {A} e.
Arguments OutOfFuel {A}.

(** A computation of the interpreter: it changes the state and returns or
    raises; what it did to the state stays done when it raises. *)
Definition M (A : Type) : Type := State -> State * result A.

Definition ret {A} (a : A) : M A := fun st => (st, Ok a).
Definition raise {A} (e : exn) : M A := fun st => (st, Raise e).
Definition bind {A B} (m : M A) (k : A -> M B) : M B :=
  fun st =>
    match m st with
    | (st', Ok a) => k a st'
    | (st', Raise e) => (st', Raise e)
    | (st', OutOfFuel) => (st', OutOfFuel)
    end.
Definition read {A} (f : State -> A) : M A := fun st => (st, Ok (f st)).
Definition write (f : State -> State) : M unit := fun st => (f st, Ok tt).
Definition lift {A} (f : State -> result A) : M A := fun st => (st, f st).

Definition runtime_error {A} (msg : string) : M A :=
  raise (Error (RuntimeError_ msg [])).
Definition py_error {A} (cls msg : string) : M A :=
  raise (Error (PyError cls msg)).

Declare Scope interp_scope.
Delimit Scope interp_scope with interp.
Notation "'do' x <- m ;; k" := (bind m (fun x => k))
  (at level 10, x name, m at level 99, k at level 200) : interp_scope.

(** ** Text helpers *)

Definition line_prefix (line : Z) : string := "Line " +:+ pretty line +:+ ": ".

Definition quote : string := String QUOTE EmptyString.

(** [s.replace(old, new)]: the occurrences from the left, not overlapping.
    [skip] counts the characters of a match still to be passed over. *)
Fixpoint replace_from (old new : list ascii) (skip : nat) (s : list ascii)
  : list ascii :=
  match s with
  | [] => []
  | c :: s' =>
      match skip with
      | S k => replace_from old new k s'
      | O =>
          if Lexer.startswith s old
          then new ++ replace_from old new (length old - 1) s'
          else c :: replace_from old new 0 s'
      end
  end.

(** [s.replace(old, new)] for a pattern [old] that is not empty. *)
Definition replace (old new s : string) : string :=
  string_of_list_ascii
    (replace_from (list_ascii_of_string old) (list_ascii_of_string new) 0
                  (list_ascii_of_string s)).

(** [s.strip()] *)
Definition strip (s : string) : string :=
  string_of_list_ascii
    (rev (Lexer.lstrip (rev (Lexer.lstrip (list_ascii_of_string s))))).

(** ** The classes of values *)

(** [type(v).__name__] *)
Definition type_name (v : value) : string :=
  match v with
  | VNone => "NoneType"
  | VBool _ => "bool"
  | VInt _ => "int"
  | VFloat _ => "float"
  | VStr _ => "str"
  | VList _ => "list"
  | VDict _ => "dict"
  | VClosure _ _ _ => "Closure"
  | VInstance _ _ => "Instance"
  | VTask _ _ _ => "AsyncThread"
  end.

(** [isinstance(v, (int, float))]: a [bool] is an [int]. *)
Definition is_int_or_float (v : value) : bool :=
  match v with VBool _ | VInt _ | VFloat _ => true | _ => false end.

(** [isinstance(v, (int, float)) and not isinstance(v, bool)] *)
Definition is_number (v : value) : bool :=
  match v with VInt _ | VFloat _ => true | _ => false end.

Definition is_str (v : value) : bool :=
  match v with VStr _ => true | _ => false end.
Definition is_list (v : value) : bool :=
  match v with VList _ => true | _ => false end.
Definition is_dict (v : value) : bool :=
  match v with VDict _ => true | _ => false end.
Definition is_bool (v : value) : bool :=
  match v with VBool _ => true | _ => false end.

(** [hasattr(v, name)] for the attributes the interpreter probes. *)
Definition has_attr (v : value) (name : string) : bool :=
  match v with
  | VStr _ => String.eqb name "join"
  | VTask _ _ _ =>
      String.eqb name "join" || String.eqb name "thread_result"
      || String.eqb name "thread_error"
  | VClosure _ _ _ => String.eqb name "node" || String.eqb name "env"
  | _ => false
  end.

(** ** Numbers as values *)

Inductive num := NInt (n : Z) | NFloat (f : spec_float).

(** The number a value is for Python arithmetic, [True] being 1. *)
Definition as_num (v : value) : option num :=
  match v with
  | VBool b => Some (NInt (if b then 1 else 0))
  | VInt n => Some (NInt n)
  | VFloat f => Some (NFloat f)
  | _ => None
  end.

Definition of_num (n : num) : value :=
  match n with NInt z => VInt z | NFloat f => VFloat f end.

Definition conv {A} (msg_overflow msg_value : string) (r : conv_error + A) : M A :=
  match r with
  | inr a => ret a
  | inl OverflowError => py_error "OverflowError" msg_overflow
  | inl ValueError => py_error "ValueError" msg_value
  end.

(** [float(n)] for a number *)
Definition num_to_float (n : num) : M spec_float :=
  match n with
  | NInt z => conv "int too large to convert to float" EmptyString (float_of_int z)
  | NFloat f => ret f
  end.

(** [int(f)] for a float *)
Definition py_int_of_float (f : spec_float) : M Z :=
  conv "cannot convert float infinity to integer"
       "cannot convert float NaN to integer" (int_of_float f).

(** [a op b] for [+], [-] and [*] *)
Definition arith (iop : Z -> Z -> Z) (fop : spec_float -> spec_float -> spec_float)
    (a b : num) : M num :=
  (match a, b with
   | NInt x, NInt y => ret (NInt (iop x y))
   | _, _ =>
       do x <- num_to_float a ;;
       do y <- num_to_float b ;;
       ret (NFloat (fop x y))
   end)%interp.

(** [a / b], [b] not zero *)
Definition truediv (a b : num) : M num :=
  (match a, b with
   | NInt x, NInt y =>
       do f <- conv "integer division result too large for a float" EmptyString
                 (int_truediv x y) ;;
       ret (NFloat f)
   | _, _ =>
       do x <- num_to_float a ;;
       do y <- num_to_float b ;;
       ret (NFloat (fdiv x y))
   end)%interp.

(** [a % b], [b] not zero *)
Definition modulo (a b : num) : M num :=
  (match a, b with
   | NInt x, NInt y => ret (NInt (x mod y))
   | _, _ =>
       do x <- num_to_float a ;;
       do y <- num_to_float b ;;
       ret (NFloat (float_mod x y))
   end)%interp.

(** [n == 0] *)
Definition num_is_zero (n : num) : bool :=
  match n with NInt z => z =? 0 | NFloat f => float_eq_int f 0 end.

(** [a == b] for two numbers *)
Definition num_eqb (a b : num) : bool :=
  match a, b with
  | NInt x, NInt y => x =? y
  | NInt x, NFloat g => float_eq_int g x
  | NFloat f, NInt y => float_eq_int f y
  | NFloat f, NFloat g => feqb f g
  end.

(** ** Dictionaries

    A dict keeps its entries in the order of insertion. Lists and dicts
    cannot be keys; two keys are the same when Python finds them equal:
    numbers by value ([True], 1 and 1.0 are one key), texts by their
    characters, objects by identity.

    A NaN is the one key that Python does not find by its value: it equals
    no key, itself included, and is found only as the very object that was
    stored. The floats of the model have no identity, so a NaN key is
    compared here as Python compares two different NaN objects, equal to no
    key; what is stated about keys below is stated of keys that are no NaN
    ([nan_key]). *)

Definition hashable (v : value) : bool :=
  match v with VList _ | VDict _ => false | _ => true end.

(** A float that is a NaN. *)
Definition nan_key (v : value) : bool :=
  match v with VFloat S754_nan => true | _ => false end.

Definition key_eqb (a b : value) : bool :=
  match as_num a, as_num b with
  | Some x, Some y => num_eqb x y
  | _, _ =>
      match a, b with
      | VNone, VNone => true
      | VStr s, VStr t => String.eqb s t
      | VClosure i _ _, VClosure j _ _ => Nat.eqb i j
      | VInstance _ p, VInstance _ q => Nat.eqb p q
      | VTask i _ _, VTask j _ _ => Nat.eqb i j
      | _, _ => false
      end
  end.

Abbreviation pydict := (list (value * value)).

(** [k in d] *)
Definition dict_mem (k : value) (d : pydict) : bool :=
  existsb (fun kv => key_eqb k kv.1) d.

(** [d[k]] when [k in d] *)
Definition dict_get (k : value) (d : pydict) : option value :=
  snd <$> List.find (fun kv => key_eqb k kv.1) d.

(** [d[k] = v] *)
Definition dict_set (k v : value) (d : pydict) : pydict :=
  if dict_mem k d
  then map (fun kv => if key_eqb k kv.1 then (kv.1, v) else kv) d
  else d ++ [(k, v)].

(** [del d[k]] when [k in d] *)
Definition dict_del (k : value) (d : pydict) : pydict :=
  List.filter (fun kv => negb (key_eqb k kv.1)) d.

(** ** The stores *)

Definition vars_of (st : State) (env : Environment) : gmap string value :=
  default ∅ (scopes st !! env_vars env).
Definition list_at (st : State) (ref : nat) : list value :=
  default [] (lists st !! ref).
Definition dict_at (st : State) (ref : nat) : pydict :=
  default [] (dicts st !! ref).
Definition bag_at (st : State) (ref : nat) : gmap string value :=
  default ∅ (bags st !! ref).

(** [Environment(parent=...)]: a new object with an empty [vars]. *)
Definition new_env (parent : option Environment) : M Environment :=
  fun st =>
    (with_scopes (fun s => s ++ [∅]) st, Ok (Env (length (scopes st)) parent)).

Definition new_list (l : list value) : M value :=
  fun st => (with_lists (fun s => s ++ [l]) st, Ok (VList (length (lists st)))).

Definition new_dict (d : pydict) : M value :=
  fun st => (with_dicts (fun s => s ++ [d]) st, Ok (VDict (length (dicts st)))).

(** [Instance(class_def, props)] *)
Definition new_instance (class_name : string) (props : gmap string value)
    : M value :=
  fun st => (with_bags (fun s => s ++ [props]) st,
             Ok (VInstance class_name (length (bags st)))).

(** [Closure(node, env)] *)
Definition new_closure (node : function_def) (env : Environment) : M value :=
  fun st => (with_next_id (S (next_id st)) st, Ok (VClosure (next_id st) node env)).

End Runtime.

(* ===================================================================== *)
(** * The interpreter ([interpreter.py]): scopes, operators, expressions *)
(* ===================================================================== *)

Module Interp.
Import Chars Ast PyNum Runtime.
Local Open Scope interp_scope.
Local Open Scope string_scope.

(** ** [class Environment] *)

(** [Environment.get] *)
Fixpoint get (env : Environment) (name : string) (line : Z) (st : State)
  : result value :=
  match vars_of st env !! name with
  | Some v => Ok v
  | None =>
      match env with
      | Env _ (Some parent) => get parent name line st
      | Env _ None =>
          Raise (Error (RuntimeError_
            (line_prefix line +:+ "I could not find a variable called '" +:+ name
             +:+ "'. Please make sure you have declared it before using it.") []))
      end
  end.

(** [self.vars[name] = value] *)
Definition store_var (env : Environment) (name : string) (v : value)
    (st : State) : State :=
  with_scopes (fun s => <[env_vars env := <[name := v]> (vars_of st env)]> s) st.

(** [Environment.assign] *)
Fixpoint assign (env : Environment) (name : string) (v : value) (st : State)
  : State :=
  match vars_of st env !! name with
  | Some _ => store_var env name v st
  | None =>
      match env with
      | Env _ (Some parent) => assign parent name v st
      | Env _ None => store_var env name v st
      end
  end.

(** [Environment.set_local] *)
Definition set_local (env : Environment) (name : string) (v : value)
    (st : State) : State :=
  store_var env name v st.

Section WithHost.
Context `{Host}.

(** ** Texts of values *)

(** [str(v)] *)
Definition py_str (st : State) (v : value) : string :=
  match v with
  | VNone => "None"
  | VBool true => "True"
  | VBool false => "False"
  | VInt n => pretty n
  | VFloat f => str_of_float f
  | VStr s => s
  | VClosure _ _ _ => "<function>"
  | VList _ | VDict _ | VInstance _ _ | VTask _ _ _ => str_of_object st v
  end.

(** [str(e)] for an exception: the message of a [RuntimeError_] or of a
    Python error, nothing for the loop signals, the text of the carried
    value for [ReturnException]. *)
Definition exn_str (st : State) (e : exn) : string :=
  match e with
  | Error (RuntimeError_ msg _) => msg
  | Error (PyError _ msg) => msg
  | Error StopException | Error SkipException => EmptyString
  | ReturnException v => py_str st v
  end.

(** [float(v)], [None] when it raises. *)
Definition try_float (v : value) : option spec_float :=
  match v with
  | VBool b => Some (if b then mk_float 1 0 else S754_zero false)
  | VInt n => match float_of_int n with inr f => Some f | inl _ => None end
  | VFloat f => Some f
  | VStr s => float_of_str s
  | _ => None
  end.

(** ** Operators *)

(** [_clean] *)
Definition _clean (v : value) : M value :=
  match v with
  | VFloat f =>
      do n <- py_int_of_float f ;;
      if float_eq_int f n then ret (VInt n) else ret v
  | _ => ret v
  end.

(** [_assert_num] *)
Definition _assert_num (val : value) (op : string) (line : Z) : M unit :=
  fun st =>
    if is_number val then (st, Ok tt)
    else runtime_error
           (line_prefix line +:+ "'" +:+ py_str st val
            +:+ "' is not a number, so I cannot use '" +:+ op +:+ "'.") st.

(** [left + right] where neither is a text and not both are lists *)
Definition py_add (left_ right_ : value) : M value :=
  match as_num left_, as_num right_ with
  | Some a, Some b => do r <- arith Z.add fadd a b ;; ret (of_num r)
  | _, _ =>
      if is_list left_
      then py_error "TypeError"
             ("can only concatenate list (not " +:+ quote +:+ type_name right_
              +:+ quote +:+ ") to list")
      else py_error "TypeError"
             ("unsupported operand type(s) for +: '" +:+ type_name left_
              +:+ "' and '" +:+ type_name right_ +:+ "'")
  end.

(** The arithmetic of two values that [_assert_num] has let through. *)
Definition on_numbers (f : num -> num -> M num) (left_ right_ : value)
  : M value :=
  match as_num left_, as_num right_ with
  | Some a, Some b => do r <- f a b ;; ret (of_num r)
  | _, _ => py_error "TypeError" "unsupported operand type(s)"
  end.

Definition right_is_zero (right_ : value) : bool :=
  match as_num right_ with Some b => num_is_zero b | None => false end.

(** [_apply_op] *)
Definition _apply_op (op : string) (left_ right_ : value) (line : Z)
  : M value :=
  if String.eqb op "plus" then
    match left_, right_ with
    | VList a, VList b =>
        fun st => new_list (list_at st a ++ list_at st b) st
    | _, _ =>
        if is_str left_ || is_str right_
        then fun st => (st, Ok (VStr (py_str st left_ +:+ " " +:+ py_str st right_)))
        else py_add left_ right_
    end
  else if String.eqb op "minus" then
    do _ <- _assert_num left_ op line ;;
    do _ <- _assert_num right_ op line ;;
    do r <- on_numbers (arith Z.sub fsub) left_ right_ ;;
    _clean r
  else if String.eqb op "times" then
    do _ <- _assert_num left_ op line ;;
    do _ <- _assert_num right_ op line ;;
    do r <- on_numbers (arith Z.mul fmul) left_ right_ ;;
    _clean r
  else if String.eqb op "divided_by" then
    do _ <- _assert_num left_ op line ;;
    do _ <- _assert_num right_ op line ;;
    if right_is_zero right_
    then runtime_error (line_prefix line +:+ "I cannot divide by zero.")
    else
      do r <- on_numbers truediv left_ right_ ;;
      _clean r
  else if String.eqb op "modulo" then
    do _ <- _assert_num left_ op line ;;
    do _ <- _assert_num right_ op line ;;
    if right_is_zero right_
    then runtime_error
           (line_prefix line
            +:+ "I cannot take the remainder of dividing by zero.")
    else
      do r <- on_numbers modulo left_ right_ ;;
      _clean r
  else runtime_error (line_prefix line +:+ "Unknown operator '" +:+ op +:+ "'.").

(** [-val] for a value that is an [int] or a [float] *)
Definition py_neg (v : value) : value :=
  match v with
  | VBool b => VInt (if b then -1 else 0)
  | VInt n => VInt (- n)
  | VFloat f => VFloat (SFopp f)
  | _ => v
  end.

(** [k in d], which hashes the key *)
Definition py_in_dict (k : value) (d : pydict) : M bool :=
  if hashable k then ret (dict_mem k d)
  else py_error "TypeError" ("unhashable type: '" +:+ type_name k +:+ "'").

(** ** Comparisons *)

(** [type(a) == type(b)] *)
Definition same_type (a b : value) : bool := String.eqb (type_name a) (type_name b).

(** [a == b] for two values of one type *)
Definition py_eq_same (st : State) (a b : value) : bool :=
  match a, b with
  | VNone, VNone => true
  | VBool x, VBool y => Bool.eqb x y
  | VInt x, VInt y => Z.eqb x y
  | VFloat x, VFloat y => feqb x y
  | VStr x, VStr y => String.eqb x y
  | VList _, VList _ | VDict _, VDict _ => eq_of_object st a b
  | VClosure i _ _, VClosure j _ _ => Nat.eqb i j
  | VInstance _ p, VInstance _ q => Nat.eqb p q
  | VTask i _ _, VTask j _ _ => Nat.eqb i j
  | _, _ => false
  end.

(** [_loose_eq] *)
Definition _loose_eq (st : State) (a b : value) : bool :=
  if same_type a b then py_eq_same st a b
  else
    match try_float a, try_float b with
    | Some x, Some y => feqb x y
    | _, _ => String.eqb (lower_string (py_str st a)) (lower_string (py_str st b))
    end.

(** [_to_num] *)
Definition _to_num (val : value) (line : Z) : M spec_float :=
  match val with
  | VInt n => num_to_float (NInt n)
  | VFloat f => ret f
  | _ =>
      match try_float val with
      | Some f => ret f
      | None =>
          fun st =>
            runtime_error
              (line_prefix line +:+ "'" +:+ py_str st val
               +:+ "' is not a number — I need one for this comparison.") st
      end
  end.

(** ** Expressions *)

(** A class name that counts as given: [None] and the empty text do not. *)
Definition truthy_name (o : option string) : option string :=
  match o with
  | Some s => if String.eqb s EmptyString then None else Some s
  | None => None
  end.

(** The property names from the root ancestor down to the class, the loop
    of [_eval_new_instance]; one round per unit of [n]. *)
Fixpoint merge_props (n : nat) (table : gmap string class_def)
    (current : class_def) (all_props : list string) (line : Z)
  : result (list string) :=
  match n with
  | O => OutOfFuel
  | S n' =>
      let all_props := (c_properties current ++ all_props)%list in
      match truthy_name (c_parent current) with
      | Some p =>
          match table !! p with
          | None =>
              Raise (Error (RuntimeError_
                (line_prefix line +:+ "Parent class '" +:+ p +:+ "' not found.") []))
          | Some c => merge_props n' table c all_props line
          end
      | None => Ok all_props
      end
  end.

(** [{p: None for p in all_props}] *)
Definition fresh_props (all_props : list string) : gmap string value :=
  foldl (fun m p => <[p := VNone]> m) ∅ all_props.

(** [future.result()]: no value of the fragment has the method. *)
Definition py_result (future : value) : M value :=
  py_error "AttributeError"
    ("'" +:+ type_name future +:+ "' object has no attribute 'result'").

(** [future.join()]: a finished thread returns at once; the [join] of a
    text wants the list to join. *)
Definition py_join (future : value) : M unit :=
  match future with
  | VTask _ _ _ => ret tt
  | VStr _ => py_error "TypeError" "str.join() takes exactly one argument (0 given)"
  | _ => py_error "AttributeError"
           ("'" +:+ type_name future +:+ "' object has no attribute 'join'")
  end.

(** [future.thread_error], when it is there and not [None] *)
Definition thread_error_of (future : value) : option error :=
  match future with VTask _ _ e => e | _ => None end.

(** [future.thread_result]; an [AttributeError] becomes [None] *)
Definition thread_result_of (future : value) : value :=
  match future with VTask _ r _ => r | _ => VNone end.

(** [evaluate] *)
Fixpoint evaluate (node : expr) (env : Environment) {struct node} : M value :=
  match node with
  | NumberLiteral v _ =>
      do n <- py_int_of_float v ;;
      ret (if float_eq_int v n then VInt n else VFloat v)
  | StringLiteral s _ => ret (VStr s)
  | BoolLiteral b _ => ret (VBool b)
  | NoneLiteral _ => ret VNone
  | Identifier name line =>
      fun st =>
        match get env name line st with
        | Ok v => (st, Ok v)
        | Raise (Error (RuntimeError_ _ _)) =>
            match functions st !! name with
            | Some func_def => new_closure func_def (global_env st) st
            | None => (st, Ok (VStr name))
            end
        | other => (st, other)
        end
  | UnaryMinus operand line =>
      do val <- evaluate operand env ;;
      if is_int_or_float val then ret (py_neg val)
      else fun st =>
             runtime_error
               (line_prefix line +:+ "Cannot negate '" +:+ py_str st val +:+ "'.") st
  | BinOp l op r line =>
      do a <- evaluate l env ;;
      do b <- evaluate r env ;;
      _apply_op op a b line
  | ListLiteral elements _ =>
      do vs <- (fix go (l : list expr) : M (list value) :=
                  match l with
                  | [] => ret []
                  | e :: l' =>
                      do v <- evaluate e env ;;
                      do vs <- go l' ;;
                      ret (v :: vs)
                  end) elements ;;
      new_list vs
  | DictLiteral pairs line =>
      do d <- (fix go (l : list (expr * expr)) (d : pydict) : M pydict :=
                 match l with
                 | [] => ret d
                 | (key_expr, val_expr) :: l' =>
                     do k <- evaluate key_expr env ;;
                     do v <- evaluate val_expr env ;;
                     if is_list k || is_dict k
                     then runtime_error
                            (line_prefix line
                             +:+ "A list or dictionary cannot be used as a key.")
                     else go l' (dict_set k v d)
                 end) pairs [] ;;
      new_dict d
  | DictAccess dict_expr key_expr line =>
      do d <- evaluate dict_expr env ;;
      match d with
      | VDict ref =>
          do k <- evaluate key_expr env ;;
          fun st =>
            (do present <- py_in_dict k (dict_at st ref) ;;
             if present
             then ret (default VNone (dict_get k (dict_at st ref)))
             else runtime_error
                    (line_prefix line +:+ "The dictionary does not have the key '"
                     +:+ py_str st k +:+ "'.")) st
      | _ =>
          runtime_error
            (line_prefix line +:+ "Can only get a value from a dictionary.")
      end
  | NewInstanceExpr class_name args line =>
      fun st =>
        match classes st !! class_name with
        | None =>
            runtime_error
              (line_prefix line +:+ "Class '" +:+ class_name +:+ "' not found.") st
        | Some class_def =>
            (do all_props <- lift (fun st' =>
                               merge_props (S (size (classes st'))) (classes st')
                                           class_def [] line) ;;
             do props <- (fix go (l : list (expr * expr)) (props : gmap string value)
                            : M (gmap string value) :=
                            match l with
                            | [] => ret props
                            | (key_expr, val_expr) :: l' =>
                                do k <- evaluate key_expr env ;;
                                do v <- evaluate val_expr env ;;
                                fun st' => go l' (<[py_str st' k := v]> props) st'
                            end) args (fresh_props all_props) ;;
             new_instance (c_name class_def) props) st
        end
  | WaitExpr e line =>
      do future <- evaluate e env ;;
      if has_attr future "result" then py_result future
      else if has_attr future "join" then
        do _ <- py_join future ;;
        match (if has_attr future "thread_error" then thread_error_of future
               else None) with
        | Some err => raise (Error err)
        | None => ret (thread_result_of future)
        end
      else runtime_error
             (line_prefix line +:+ "Cannot 'waiting for' something that is not "
              +:+ "an active background task.")
  end.

(** ** Conditions *)

(** [evaluate_condition] *)
Fixpoint evaluate_condition (node : cond) (env : Environment) : M bool :=
  match node with
  | CompoundCondition l connective r _ =>
      do lhs <- evaluate_condition l env ;;
      if String.eqb connective "and"
      then (if lhs : bool then evaluate_condition r env else ret false)
      else (if lhs : bool then ret true else evaluate_condition r env)
  | BoolCondition _ _ =>
      py_error "AttributeError" "'BoolLiteral' object has no attribute 'left'"
  | Condition l op r line =>
      do lhs <- evaluate l env ;;
      if String.eqb op "is_number" then ret (is_number lhs)
      else if String.eqb op "is_text" then ret (is_str lhs)
      else if String.eqb op "is_list" then ret (is_list lhs)
      else if String.eqb op "is_boolean" then ret (is_bool lhs)
      else
        do rhs <- match r with
                  | Some e => evaluate e env
                  | None => runtime_error "I do not know how to evaluate: NoneType."
                  end ;;
        if String.eqb op "equals" then fun st => (st, Ok (_loose_eq st lhs rhs))
        else if String.eqb op "not_equals"
        then fun st => (st, Ok (negb (_loose_eq st lhs rhs)))
        else if String.eqb op "has_key" then
          match lhs with
          | VDict ref => fun st => py_in_dict rhs (dict_at st ref) st
          | _ =>
              runtime_error
                (line_prefix line
                 +:+ "'has the key' can only be used on a dictionary.")
          end
        else
          do ln <- _to_num lhs line ;;
          do rn <- _to_num rhs line ;;
          if String.eqb op "greater_than" then ret (fltb rn ln)
          else if String.eqb op "less_than" then ret (fltb ln rn)
          else if String.eqb op "greater_equal" then ret (fleb rn ln)
          else if String.eqb op "less_equal" then ret (fleb ln rn)
          else runtime_error
                 (line_prefix line +:+ "Unknown comparison '" +:+ op +:+ "'.")
  end.

(** ** Calls *)

(** [[self.evaluate(a, env) for a in args]] *)
Fixpoint eval_args (args : list expr) (env : Environment) : M (list value) :=
  match args with
  | [] => ret []
  | a :: rest =>
      do v <- evaluate a env ;;
      do vs <- eval_args rest env ;;
      ret (v :: vs)
  end.

(** [sum(1 for p in params if p.default_expr is None)] *)
Definition min_args (params : list ParamDef) : nat :=
  length (List.filter (fun p => negb (bool_decide (is_Some (default_expr p)))) params).

(** The arity test of [_call_function] and [_call_method]; the result is
    the text of the expected range when the test fails. *)
Definition arity_mismatch (params : list ParamDef) (arg_vals : list value)
  : option string :=
  if (length arg_vals <? min_args params)%nat
     || (length params <? length arg_vals)%nat
  then Some (if (min_args params =? length params)%nat
             then pretty (length params)
             else "between " +:+ pretty (min_args params) +:+ " and "
                  +:+ pretty (length params))
  else None.

(** The loop that binds the parameters in the call frame: the argument
    when there is one, else the default, evaluated in [def_env]. *)
Fixpoint bind_params (params : list ParamDef) (arg_vals : list value)
    (frame def_env : Environment) : M unit :=
  match params with
  | [] => ret tt
  | p :: ps =>
      match arg_vals with
      | a :: rest =>
          do _ <- write (set_local frame (p_name p) a) ;;
          bind_params ps rest frame def_env
      | [] =>
          do v <- match default_expr p with
                  | Some e => evaluate e def_env
                  | None => runtime_error "I do not know how to evaluate: NoneType."
                  end ;;
          do _ <- write (set_local frame (p_name p) v) ;;
          bind_params ps [] frame def_env
      end
  end.

(** The synchronous execution block of a call: the body runs, a
    [ReturnException] gives the value, a [RuntimeError_] passes on with
    the frame added to its [plain_stack]. *)
Definition run_body (body : M unit) (frame_text : string) : M value :=
  fun st =>
    match body st with
    | (st', Ok _) => (st', Ok VNone)
    | (st', Raise (ReturnException v)) => (st', Ok v)
    | (st', Raise (Error (RuntimeError_ msg stack))) =>
        (st', Raise (Error (RuntimeError_ msg (stack ++ [frame_text]))))
    | (st', Raise e) => (st', Raise e)
    | (st', OutOfFuel) => (st', OutOfFuel)
    end.

Section Calls.
(** [self.execute], as far as the calls below need it. *)
Variable execute : list stmt -> Environment -> M unit.

(** [_call_function]. Of the values a variable can hold, the
    [Closure] is the one that is a function; a name that is no such
    variable is looked up in the function table, whose definitions
    run under the global scope. *)
Definition _call_function (name : string) (arg_nodes : list expr)
    (env : Environment) (line : Z) : M value :=
  fun st =>
    let func :=
      match get env name line st with
      | Ok (VClosure _ node cenv) => Some (node, cenv)
      | _ =>
          match functions st !! name with
          | Some fd => Some (fd, global_env st)
          | None => None
          end
      end in
    match func with
    | None =>
        runtime_error
          (line_prefix line +:+ "I could not find a function called '"
           +:+ name +:+ "'.") st
    | Some (node, parent_env) =>
        (do arg_vals <- eval_args arg_nodes env ;;
         match arity_mismatch (f_params node) arg_vals with
         | Some err_msg =>
             runtime_error
               (line_prefix line +:+ "'" +:+ name +:+ "' needs " +:+ err_msg
                +:+ " argument(s), but I was given "
                +:+ pretty (length arg_vals) +:+ ".")
         | None =>
             do func_env <- new_env (Some parent_env) ;;
             do _ <- bind_params (f_params node) arg_vals func_env parent_env ;;
             run_body (execute (f_body node) func_env)
                      ("function '" +:+ f_name node +:+ "' at line "
                       +:+ pretty line)
         end) st
    end.

(** The walk up the inheritance chain in [_call_method]; one class per
    unit of [n]. *)
Fixpoint find_method (n : nat) (mtable : gmap string (gmap string method_def))
    (ctable : gmap string class_def) (search_class method_name : string)
  : result (option method_def) :=
  match n with
  | O => OutOfFuel
  | S n' =>
      if String.eqb search_class EmptyString then Ok None
      else
        match mtable !! search_class ≫= (fun t => t !! method_name) with
        | Some method_def => Ok (Some method_def)
        | None =>
            match ctable !! search_class ≫= (fun c => truthy_name (c_parent c)) with
            | Some p => find_method n' mtable ctable p method_name
            | None => Ok None
            end
        end
  end.

(** [_call_method] on the values of the fragment: none of them is a
    namespace, and no property holds a callable of the host, so only
    an [Instance] gets past the first tests, and it goes to the walk. *)
Definition _call_method (obj : value) (method_name : string)
    (arg_vals : list value) (env : Environment) (line : Z) : M value :=
  match obj with
  | VInstance class_name bag =>
      do found <- lift (fun st =>
                    find_method (S (size (classes st))) (methods st) (classes st)
                                class_name method_name) ;;
      match found with
      | None =>
          runtime_error
            (line_prefix line +:+ "Method '" +:+ method_name
             +:+ "' not found for class '" +:+ class_name +:+ "'.")
      | Some method_def =>
          match arity_mismatch (m_params method_def) arg_vals with
          | Some err_msg =>
              runtime_error
                (line_prefix line +:+ "Method '" +:+ method_name +:+ "' expects "
                 +:+ err_msg +:+ " parameters but got "
                 +:+ pretty (length arg_vals) +:+ ".")
          | None =>
              do genv <- read global_env ;;
              do method_env <- new_env (Some genv) ;;
              do _ <- write (set_local method_env "self" obj) ;;
              do _ <- write (fun st =>
                        with_scopes
                          (fun s => <[env_vars method_env :=
                                        bag_at st bag ∪ vars_of st method_env]> s)
                          st) ;;
              do _ <- bind_params (m_params method_def) arg_vals method_env genv ;;
              run_body (execute (m_body method_def) method_env)
                       ("method '" +:+ method_name +:+ "' on class '"
                        +:+ class_name +:+ "' at line " +:+ pretty line)
          end
      end
  | _ =>
      runtime_error
        (line_prefix line
         +:+ "Can only call methods on objects or modules (got "
         +:+ type_name obj +:+ ").")
  end.

(** [_execute_call_chain], without chained calls *)
Definition _execute_call_chain (name : string) (args : list expr)
    (obj_expr : option expr) (env : Environment) (line : Z) : M value :=
  match obj_expr with
  | Some oe =>
      do obj <- evaluate oe env ;;
      do arg_vals <- eval_args args env ;;
      _call_method obj name arg_vals env line
  | None => _call_function name args env line
  end.

End Calls.

(** ** Statements *)

(** [for stmt in statements: self.execute_stmt(stmt, env)] *)
Fixpoint exec_list (run : stmt -> Environment -> M unit) (statements : list stmt)
    (env : Environment) : M unit :=
  match statements with
  | [] => ret tt
  | s :: rest => do _ <- run s env ;; exec_list run rest env
  end.

(** [try: ... except SkipException: continue] around a loop body *)
Definition skip_continues (body : M unit) : M unit :=
  fun st =>
    match body st with
    | (st', Raise (Error SkipException)) => (st', Ok tt)
    | r => r
    end.

(** [try: ... except StopException: pass] around a loop *)
Definition catch_stop (loop : M unit) : M unit :=
  fun st =>
    match loop st with
    | (st', Raise (Error StopException)) => (st', Ok tt)
    | r => r
    end.

(** [for _ in range(n)] *)
Fixpoint for_range (n : nat) (body : M unit) : M unit :=
  match n with
  | O => ret tt
  | S n' => do _ <- skip_continues body ;; for_range n' body
  end.

(** [int(count)] for the count of a repeat, an [int] or a [float] *)
Definition py_int (v : value) : M Z :=
  match v with
  | VBool b => ret (if b then 1 else 0)%Z
  | VInt n => ret n
  | VFloat f => py_int_of_float f
  | _ => py_error "TypeError" "int() argument must be a string or a real number"
  end.

Definition WHILE_LIMIT : Z := 10000000.

(** The rounds the loop of [_exec_while] can make. *)
Definition while_rounds : nat := S (Z.to_nat WHILE_LIMIT).
#[global] Arguments while_rounds : simpl never.

Definition while_too_long : string :=
  "I have been repeating this loop for far too long. "
  +:+ "Please check your While condition.".

(** The [while] of [_exec_while]; [count] is the counter of the source.
    The loop leaves by itself once [count] is past the limit, so it makes
    at most [WHILE_LIMIT + 1] rounds: [rounds] bounds the recursion and
    [_exec_while] starts it there. *)
Fixpoint while_loop (rounds : nat) (count : Z) (condition : M bool)
    (body : M unit) : M unit :=
  match rounds with
  | O => fun st => (st, OutOfFuel)
  | S rounds' =>
      do c <- condition ;;
      if c : bool then
        let count := (count + 1)%Z in
        if (WHILE_LIMIT <? count)%Z then runtime_error while_too_long
        else
          do _ <- skip_continues body ;;
          while_loop rounds' count condition body
      else ret tt
  end.

(** The text [_exec_attempt] binds: the message and, when the error
    crossed call frames, the trace of them, innermost last. *)
Definition attempt_message (msg : string) (plain_stack : list string) : string :=
  strip
    (match plain_stack with
     | [] => msg
     | _ =>
         msg +:+ String NL "Traceback (most recent call last):" +:+ String NL EmptyString
         +:+ String.concat EmptyString
               (map (fun frame => "  in " +:+ frame +:+ String NL EmptyString)
                    (rev plain_stack))
     end).

(** [execute_stmt]. [fuel] bounds how deep statements and calls nest;
    with none left the answer is [OutOfFuel]. *)
Fixpoint execute_stmt (fuel : nat) (node : stmt) (env : Environment)
    {struct fuel} : M unit :=
  match fuel with
  | O => fun st => (st, OutOfFuel)
  | S fuel' =>
      let execute := exec_list (execute_stmt fuel') in
      match node with
      | LetStmt name e _ =>
          (* _exec_let *)
          do v <- evaluate e env ;;
          write (assign env name v)
      | LetResultStmt variable func_name args line obj_expr =>
          (* _exec_let_result *)
          do val <- _execute_call_chain execute func_name args obj_expr env line ;;
          write (assign env variable val)
      | IfStmt condition then_body else_body _ =>
          (* _exec_if *)
          do c <- evaluate_condition condition env ;;
          if c : bool then
            do child <- new_env (Some env) ;;
            execute then_body child
          else
            match else_body with
            | [] => ret tt
            | _ =>
                do child <- new_env (Some env) ;;
                execute else_body child
            end
      | RepeatStmt count body line =>
          (* _exec_repeat *)
          do n <- evaluate count env ;;
          if is_int_or_float n then
            catch_stop
              (do k <- py_int n ;;
               for_range (Z.to_nat k)
                 (do child <- new_env (Some env) ;;
                  execute body child))
          else
            fun st =>
              runtime_error
                (line_prefix line +:+ "Repeat needs a number, got '"
                 +:+ py_str st n +:+ "'.") st
      | WhileStmt condition body _ =>
          (* _exec_while *)
          catch_stop
            (while_loop while_rounds 0
               (evaluate_condition condition env)
               (do child <- new_env (Some env) ;;
                execute body child))
      | FunctionDef name params body _ =>
          write (fun st =>
                   with_functions
                     (<[name := mkFunction name params body]> (functions st)) st)
      | CallStmt name args line obj_expr =>
          (* _exec_call *)
          do _ <- _execute_call_chain execute name args obj_expr env line ;;
          ret tt
      | GiveBackStmt e _ =>
          do v <- evaluate e env ;;
          raise (ReturnException v)
      | StopStmt _ => raise (Error StopException)
      | SkipStmt _ => raise (Error SkipException)
      | TryCatch try_body error_var catch_body _ =>
          (* _exec_try_catch: every exception is caught *)
          fun st =>
            match (do child <- new_env (Some env) ;;
                   execute try_body child) st with
            | (st', Raise e) =>
                (do catch_env <- new_env (Some env) ;;
                 do _ <- write (fun s =>
                           set_local catch_env error_var
                             (VStr (replace "RuntimeError_: " EmptyString
                                            (exn_str s e))) s) ;;
                 execute catch_body catch_env) st'
            | r => r
            end
      | AttemptStmt try_body error_var catch_body _ =>
          (* _exec_attempt: a RuntimeError_ is caught *)
          fun st =>
            match execute try_body env st with
            | (st', Raise (Error (RuntimeError_ msg plain_stack))) =>
                (do catch_env <- new_env (Some env) ;;
                 do _ <- write (set_local catch_env error_var
                                  (VStr (attempt_message msg plain_stack))) ;;
                 execute catch_body catch_env) st'
            | r => r
            end
      | SetDictValueStmt dict_expr key_expr value_expr line =>
          (* _exec_set_dict_value *)
          do d <- evaluate dict_expr env ;;
          match d with
          | VDict ref =>
              do k <- evaluate key_expr env ;;
              do v <- evaluate value_expr env ;;
              if is_list k || is_dict k
              then runtime_error
                     (line_prefix line
                      +:+ "A list or dictionary cannot be used as a key.")
              else write (fun st =>
                            with_dicts
                              (fun s => <[ref := dict_set k v (dict_at st ref)]> s) st)
          | _ =>
              runtime_error
                (line_prefix line +:+ "Can only set a value in a dictionary.")
          end
      | RemoveDictValueStmt dict_expr key_expr line =>
          (* _exec_remove_dict_value *)
          do d <- evaluate dict_expr env ;;
          match d with
          | VDict ref =>
              do k <- evaluate key_expr env ;;
              do present <- (fun st => py_in_dict k (dict_at st ref) st) ;;
              if present : bool
              then write (fun st =>
                            with_dicts
                              (fun s => <[ref := dict_del k (dict_at st ref)]> s) st)
              else ret tt
          | _ =>
              runtime_error
                (line_prefix line
                 +:+ "Can only remove a value from a dictionary.")
          end
      | ThrowStmt msg_expr line =>
          (* _exec_throw *)
          do v <- evaluate msg_expr env ;;
          fun st => runtime_error (line_prefix line +:+ py_str st v) st
      | ClassDef name properties parent _ =>
          (* _exec_class_def *)
          write (fun st =>
                   let st1 := with_classes
                                (<[name := mkClass name properties parent]>
                                   (classes st)) st in
                   match methods st1 !! name with
                   | Some _ => st1
                   | None => with_methods (<[name := ∅]> (methods st1)) st1
                   end)
      | MethodDef class_name name params body _ =>
          (* _exec_method_def *)
          write (fun st =>
                   let table := default ∅ (methods st !! class_name) in
                   with_methods
                     (<[class_name :=
                          <[name := mkMethod class_name name params body]> table]>
                        (methods st)) st)
      end
  end.

(** [Interpreter.execute] *)
Definition execute (fuel : nat) (statements : list stmt) (env : Environment)
  : M unit :=
  exec_list (execute_stmt fuel) statements env.

End WithHost.

#[global] Arguments execute_stmt {_} _ _ _ _ : simpl never.

End Interp.

(* ===================================================================== *)
(** * Properties of the lexer *)
(* ===================================================================== *)

Module LexerFacts.
Import Chars Lexer.

Section Progress.
Variable src : list ascii.

Lemma skip_whitespace_ge n pos line :
  (pos <= (skip_whitespace src n pos line).1)%nat.
Proof.
  revert pos line; induction n as [|n IH]; intros pos line; simpl; [lia|].
  destruct (src !! pos) as [ch|]; simpl; [|lia].
  destruct (is_blank ch); simpl; [|lia].
  specialize (IH (S pos) (if eqc ch NL then line + 1 else line)). lia.
Qed.

Lemma skip_to_eol_ge n pos : (pos <= skip_to_eol src n pos)%nat.
Proof.
  revert pos; induction n as [|n IH]; intros pos; simpl; [lia|].
  destruct (src !! pos) as [ch|]; [|lia].
  destruct (eqc ch NL); [lia|]. specialize (IH (S pos)). lia.
Qed.

Lemma read_number_loop_ge n pos buf :
  (pos <= (read_number_loop src n pos buf).1)%nat.
Proof.
  revert pos buf; induction n as [|n IH]; intros pos buf; simpl; [lia|].
  destruct (src !! pos) as [ch|]; simpl; [|lia].
  destruct (isdigit ch || eqc ch "."); simpl; [|lia].
  destruct (eqc ch ".").
  - destruct (at_digit src (pos + 1)); simpl; [|lia].
    specialize (IH (S pos) (buf ++ [ch])). lia.
  - specialize (IH (S pos) (buf ++ [ch])). lia.
Qed.

Lemma read_word_loop_ge n pos buf :
  (pos <= (read_word_loop src n pos buf).1)%nat.
Proof.
  revert pos buf; induction n as [|n IH]; intros pos buf; simpl; [lia|].
  destruct (src !! pos) as [ch|]; simpl; [|lia].
  destruct (isalnum ch || eqc ch "_"); simpl; [|lia].
  specialize (IH (S pos) (buf ++ [ch])). lia.
Qed.

Lemma read_string_loop_ge n pos line buf hi :
  (pos <= (read_string_loop src n pos line buf hi).1.1.1)%nat.
Proof.
  revert pos line buf hi; induction n as [|n IH]; intros pos line buf hi;
    simpl; [lia|].
  destruct (src !! pos) as [c|]; simpl; [|lia].
  destruct (eqc c QUOTE); simpl; [lia|].
  assert (Hplain : forall l b h,
             (pos <= (read_string_loop src n (S pos) l b h).1.1.1)%nat)
    by (intros l b h; specialize (IH (S pos) l b h); lia).
  assert (Hesc : forall l b h,
             (pos <= (read_string_loop src n (pos + 2) l b h).1.1.1)%nat)
    by (intros l b h; specialize (IH (pos + 2)%nat l b h); lia).
  repeat case_match; auto.
Qed.

(** A digit under the cursor is consumed: [read_number] moves on. *)
Lemma read_number_progress pos line ch :
  src !! pos = Some ch -> isdigit ch = true ->
  (pos < (read_number src pos line).1)%nat.
Proof.
  intros Hch Hd. unfold read_number.
  destruct (length src) as [|n] eqn:Hlen.
  - apply lookup_lt_Some in Hch. lia.
  - simpl. rewrite Hch, Hd. simpl.
    assert (eqc ch "." = false) as ->.
    { unfold isdigit, between, eqc in *.
      destruct (Ascii.eqb_spec ch "."); [subst; discriminate|done]. }
    pose proof (read_number_loop_ge n (S pos) [ch]).
    destruct (read_number_loop src n (S pos) [ch]); simpl in *. lia.
Qed.

Lemma read_word_progress pos line ch :
  src !! pos = Some ch ->
  (pos < (read_word src pos line).1)%nat.
Proof.
  intros Hch. unfold read_word. rewrite Hch.
  pose proof (read_word_loop_ge (length src) (S pos) [ch]).
  destruct (read_word_loop src (length src) (S pos) [ch]); simpl in *. lia.
Qed.

Lemma skip_to_eol_progress pos ch :
  src !! pos = Some ch -> eqc ch NL = false ->
  (pos < skip_to_eol src (length src) pos)%nat.
Proof.
  intros Hch Hnl.
  destruct (length src) as [|n] eqn:Hlen.
  - apply lookup_lt_Some in Hch. lia.
  - simpl. rewrite Hch, Hnl. pose proof (skip_to_eol_ge n (S pos)). lia.
Qed.

(** The lexer is total: the bound [tokenize] passes is always enough. *)
Lemma tokenize_loop_total n : forall pos line tokens,
  (length src <= pos + n)%nat ->
  tokenize_loop src n pos line tokens <> Unfinished.
Proof.
  induction n as [|n IH]; intros pos line tokens Hn; simpl.
  - destruct (Nat.leb_spec (length src) pos); [done|lia].
  - destruct (Nat.leb_spec (length src) pos); [done|].
    pose proof (skip_whitespace_ge (length src) pos line) as Hws.
    destruct (skip_whitespace src (length src) pos line) as [pos1 line1].
    simpl in Hws.
    destruct (src !! pos1) as [ch|] eqn:Hch; [|done].
    pose proof (lookup_lt_Some _ _ _ Hch) as Hlt.
    repeat match goal with
           | |- context [if ?b then _ else _] => destruct b eqn:?
           end; try done; try (apply IH; lia).
    + pose proof (read_string_loop_ge (length src) (S pos1) line1 [] false) as Hs.
      destruct (read_string_loop src (length src) (S pos1) line1 [] false)
        as [[[pos' line'] buf] hi]; simpl in Hs.
      destruct (Nat.leb_spec (length src) pos'); [done|]. apply IH; lia.
    + assert (ch = "-"%char) as -> by (by apply Ascii.eqb_eq).
      pose proof (skip_to_eol_progress pos1 _ Hch eq_refl). apply IH; lia.
    + assert (ch = "/"%char) as -> by (by apply Ascii.eqb_eq).
      pose proof (skip_to_eol_progress pos1 _ Hch eq_refl). apply IH; lia.
    + pose proof (read_number_progress pos1 line1 ch Hch ltac:(done)) as Hp.
      destruct (read_number src pos1 line1) as [pos' tok]; simpl in Hp.
      apply IH; lia.
    + pose proof (read_word_progress pos1 line1 ch Hch) as Hp.
      destruct (read_word src pos1 line1) as [pos' tok]; simpl in Hp.
      apply IH; lia.
Qed.

End Progress.

Lemma tokenize_total source : tokenize source <> Unfinished.
Proof. unfold tokenize. apply tokenize_loop_total. lia. Qed.

(** Where [read_number] stops: at the end of the source, or on a character
    that is no digit and, when it is a point, has no digit after it. The
    point that ends a sentence is therefore left under the cursor. *)
Lemma read_number_loop_stop src n : forall pos buf,
  (length src <= pos + n)%nat ->
  match src !! (read_number_loop src n pos buf).1 with
  | None => True
  | Some c =>
      isdigit c = false /\
      (eqc c "." = true ->
       at_digit src ((read_number_loop src n pos buf).1 + 1) = false)
  end.
Proof.
  induction n as [|n IH]; intros pos buf Hn; simpl.
  - rewrite lookup_ge_None_2; [done|lia].
  - destruct (src !! pos) as [ch|] eqn:Hch; simpl; [|by rewrite Hch].
    destruct (isdigit ch) eqn:Hd; simpl.
    + assert (eqc ch "." = false) as ->.
      { unfold isdigit, between, eqc in *.
        destruct (Ascii.eqb_spec ch "."); [subst; discriminate|done]. }
      apply IH. lia.
    + destruct (eqc ch ".") eqn:Hp; simpl.
      * destruct (at_digit src (pos + 1)) eqn:Hnx; simpl.
        -- apply IH. lia.
        -- rewrite Hch. by rewrite Hd, Hp, Hnx.
      * rewrite Hch. by rewrite Hd, Hp.
Qed.

(** The text of the token is the stretch of source the loop went over. *)
Lemma read_number_loop_buf src n : forall pos buf,
  (read_number_loop src n pos buf).2 =
  buf ++ take ((read_number_loop src n pos buf).1 - pos) (drop pos src).
Proof.
  induction n as [|n IH]; intros pos buf; simpl.
  - by rewrite Nat.sub_diag, take_0, app_nil_r.
  - destruct (src !! pos) as [ch|] eqn:Hch; simpl;
      [|by rewrite Nat.sub_diag, take_0, app_nil_r].
    assert (Hstep : (read_number_loop src n (S pos) (buf ++ [ch])).2 =
              buf ++ take ((read_number_loop src n (S pos) (buf ++ [ch])).1 - pos)
                       (drop pos src)).
    { rewrite IH.
      pose proof (read_number_loop_ge src n (S pos) (buf ++ [ch])) as Hge.
      destruct (read_number_loop src n (S pos) (buf ++ [ch])) as [p b].
      simpl in *. rewrite <- app_assoc. f_equal.
      rewrite (drop_S _ _ _ Hch).
      replace (p - pos)%nat with (S (p - S pos)) by lia. done. }
    destruct (isdigit ch || eqc ch "."); simpl;
      [|by rewrite Nat.sub_diag, take_0, app_nil_r].
    destruct (eqc ch "."); [|done].
    destruct (at_digit src (pos + 1)); simpl; [done|].
    by rewrite Nat.sub_diag, take_0, app_nil_r.
Qed.

(** Number of points in a token text. *)
Definition points (s : string) : nat :=
  length (filter (fun c => eqc c "." = true) (list_ascii_of_string s)).

Example trailing_period_is_a_token :
  tokenize "Let x be 3." =
  Tokens [mkToken WORD "Let" 1; mkToken WORD "x" 1; mkToken WORD "be" 1;
          mkToken NUMBER "3" 1; mkToken PERIOD "." 1; mkToken EOF EmptyString 1].
Proof. reflexivity. Qed.

Example one_point_number :
  tokenize "1.5." =
  Tokens [mkToken NUMBER "1.5" 1; mkToken PERIOD "." 1; mkToken EOF EmptyString 1].
Proof. reflexivity. Qed.

(** C6 (the code departs from the claim): the number scanner takes every
    point that has a digit after it, so the text [1.2.3] comes out as one
    NUMBER token holding two decimal points, where the claim allows at most
    one. *)
Theorem number_token_with_two_points :
  tokenize "1.2.3" = Tokens [mkToken NUMBER "1.2.3" 1; mkToken EOF EmptyString 1] /\
  points "1.2.3" = 2%nat.
Proof. split; reflexivity. Qed.

End LexerFacts.

(* ===================================================================== *)
(** * Scope chains: what a lookup and an assignment do *)
(* ===================================================================== *)

Module Scopes.
Import Ast Runtime Interp.

(** The [vars] objects of a scope and its ancestors, innermost first. *)
Fixpoint chain (env : Environment) : list nat :=
  match env with
  | Env vars None => [vars]
  | Env vars (Some parent) => vars :: chain parent
  end.

(** The outermost scope of the chain, the one without parent. *)
Fixpoint root (env : Environment) : Environment :=
  match env with
  | Env _ (Some parent) => root parent
  | Env _ None => env
  end.

(** The [vars] dict stored at an index. *)
Definition cell (st : State) (c : nat) : gmap string value :=
  default ∅ (scopes st !! c).

(** No scope of the chain owns the name. *)
Definition unbound (st : State) (env : Environment) (name : string) : Prop :=
  Forall (fun c => cell st c !! name = None) (chain env).

(** The scopes of the chain are objects of the state, each a different one. *)
Definition valid (st : State) (env : Environment) : Prop :=
  NoDup (chain env) /\ Forall (fun c => (c < length (scopes st))%nat) (chain env).

(** The text of the error [Environment.get] raises. *)
Definition name_not_found (name : string) (line : Z) : exn :=
  Error (RuntimeError_
    (line_prefix line +:+ "I could not find a variable called '" +:+ name
     +:+ "'. Please make sure you have declared it before using it.") []).

Lemma vars_of_cell st env : vars_of st env = cell st (env_vars env).
Proof. done. Qed.

(** Induction along the parent links. *)
Lemma Environment_chain_ind (P : Environment -> Prop) :
  (forall vars, P (Env vars None)) ->
  (forall vars parent, P parent -> P (Env vars (Some parent))) ->
  forall env, P env.
Proof.
  intros Hroot Hchild. fix IH 1.
  intros [vars [parent|]]; [apply Hchild, IH | apply Hroot].
Qed.

Lemma root_in_chain env : env_vars (root env) ∈ chain env.
Proof.
  induction env as [vars|vars parent IH] using Environment_chain_ind; simpl.
  - left.
  - right. exact IH.
Qed.

Lemma root_has_no_parent env : env_parent (root env) = None.
Proof. induction env using Environment_chain_ind; done. Qed.

(** [Environment.get] on a name that no scope of the chain owns. *)
Lemma get_unbound st env name line :
  unbound st env name -> get env name line st = Raise (name_not_found name line).
Proof.
  unfold unbound.
  induction env as [vars|vars parent IH] using Environment_chain_ind;
    simpl; intros Hu.
  - apply Forall_cons in Hu as [Hc _]. unfold vars_of; simpl.
    unfold cell in Hc. by rewrite Hc.
  - apply Forall_cons in Hu as [Hc Hrest]. unfold vars_of; simpl.
    unfold cell in Hc. rewrite Hc. by apply IH.
Qed.

(** [Environment.get] finds the binding of the innermost scope that owns
    the name. *)
Lemma get_bound st env name line v :
  get env name line st = Ok v ->
  exists c, c ∈ chain env /\ cell st c !! name = Some v.
Proof.
  induction env as [vars|vars parent IH] using Environment_chain_ind; simpl.
  - unfold vars_of; simpl. fold (cell st vars).
    destruct (cell st vars !! name) as [w|] eqn:Hc; [|done].
    intros [= ->]. exists vars. split; [left|done].
  - unfold vars_of; simpl. fold (cell st vars).
    destruct (cell st vars !! name) as [w|] eqn:Hc.
    + intros [= ->]. exists vars. split; [left|done].
    + intros Hg. destruct (IH Hg) as (c & Hin & Hv). exists c. split; [by right|done].
Qed.

(** [Environment.assign] of a name that no scope of the chain owns: the
    walk ends at the root, and the name is created there. *)
Lemma assign_unbound st env name v :
  unbound st env name -> assign env name v st = store_var (root env) name v st.
Proof.
  unfold unbound.
  induction env as [vars|vars parent IH] using Environment_chain_ind;
    simpl; intros Hu.
  - apply Forall_cons in Hu as [Hc _]. unfold vars_of; simpl.
    unfold cell in Hc. by rewrite Hc.
  - apply Forall_cons in Hu as [Hc Hrest]. unfold vars_of; simpl.
    unfold cell in Hc. rewrite Hc. by apply IH.
Qed.

(** What [self.vars[name] = value] does to the stored dicts. *)
Lemma cell_store_var_same st env name v :
  (env_vars env < length (scopes st))%nat ->
  cell (store_var env name v st) (env_vars env) = <[name := v]> (cell st (env_vars env)).
Proof.
  intros Hlt. unfold cell, store_var, with_scopes, vars_of; simpl.
  by rewrite list_lookup_insert_eq.
Qed.

Lemma cell_store_var_other st env name v c :
  c <> env_vars env ->
  cell (store_var env name v st) c = cell st c.
Proof.
  intros Hne. unfold cell, store_var, with_scopes; simpl.
  by rewrite list_lookup_insert_ne.
Qed.

Lemma scopes_length_store_var st env name v :
  length (scopes (store_var env name v st)) = length (scopes st).
Proof. unfold store_var, with_scopes; simpl. by rewrite length_insert. Qed.

(** ** The scope of a block

    [Environment(parent=p)] in a state [st]: the new object is the next
    index of the store and its [vars] is empty. *)

Definition enter_block (st : State) : State := with_scopes (fun s => s ++ [∅]) st.

Definition block_scope (st : State) (p : Environment) : Environment :=
  Env (length (scopes st)) (Some p).

Lemma new_env_block st p :
  new_env (Some p) st = (enter_block st, Ok (block_scope st p)).
Proof. done. Qed.

Lemma cell_enter_block_new st : cell (enter_block st) (length (scopes st)) = ∅.
Proof.
  unfold cell, enter_block, with_scopes; simpl.
  by rewrite lookup_app_r, Nat.sub_diag.
Qed.

Lemma cell_enter_block_old st c :
  (c < length (scopes st))%nat -> cell (enter_block st) c = cell st c.
Proof.
  intros Hlt. unfold cell, enter_block, with_scopes; simpl.
  by rewrite lookup_app_l.
Qed.

Lemma valid_block st p : valid st p -> valid (enter_block st) (block_scope st p).
Proof.
  intros [Hnd Hlt]. split; simpl.
  - apply NoDup_cons. split; [|done].
    intros Hin. rewrite Forall_forall in Hlt. specialize (Hlt _ Hin). lia.
  - unfold enter_block, with_scopes; simpl. rewrite length_app; simpl.
    apply Forall_cons. split; [lia|].
    eapply Forall_impl; [exact Hlt|]. intros c; simpl. lia.
Qed.

Lemma unbound_block st p name :
  valid st p -> unbound st p name ->
  unbound (enter_block st) (block_scope st p) name.
Proof.
  intros [_ Hlt] Hu. unfold unbound; simpl. apply Forall_cons. split.
  - by rewrite cell_enter_block_new.
  - unfold unbound in Hu. rewrite Forall_forall in *. intros c Hin.
    rewrite cell_enter_block_old; [by apply Hu|by apply Hlt].
Qed.

End Scopes.

(* ===================================================================== *)
(** * Expressions leave the scopes alone *)
(* ===================================================================== *)

Module Frames.
Import Ast PyNum Runtime Interp.
Local Open Scope interp_scope.

(** A computation that writes to no scope. *)
Definition keeps_scopes {A} (m : M A) : Prop :=
  forall st, scopes (m st).1 = scopes st.

Lemma keeps_ret {A} (a : A) : keeps_scopes (ret a).
Proof. done. Qed.

Lemma keeps_raise {A} e : keeps_scopes (@raise A e).
Proof. done. Qed.

Lemma keeps_bind {A B} (m : M A) (k : A -> M B) :
  keeps_scopes m -> (forall a, keeps_scopes (k a)) -> keeps_scopes (bind m k).
Proof.
  intros Hm Hk st. unfold bind. specialize (Hm st).
  destruct (m st) as [st' [a| |]]; simpl in *; [|done..].
  by rewrite Hk.
Qed.

Lemma keeps_state {A} (m : State -> M A) :
  (forall s, keeps_scopes (m s)) -> keeps_scopes (fun st => m st st).
Proof. intros Hm st. apply Hm. Qed.

Lemma keeps_conv {A} a b (r : conv_error + A) : keeps_scopes (conv a b r).
Proof. by destruct r as [[]|]. Qed.

Lemma keeps_num_to_float n : keeps_scopes (num_to_float n).
Proof. destruct n; [apply keeps_conv|done]. Qed.

Lemma keeps_py_int_of_float f : keeps_scopes (py_int_of_float f).
Proof. apply keeps_conv. Qed.

Ltac keeps_step :=
  first [ apply keeps_num_to_float | apply keeps_py_int_of_float
        | apply keeps_conv | apply keeps_ret | apply keeps_raise
        | apply keeps_bind; [|intros] ].

Lemma keeps_arith i f a b : keeps_scopes (arith i f a b).
Proof. destruct a, b; unfold arith; repeat keeps_step. Qed.

Lemma keeps_truediv a b : keeps_scopes (truediv a b).
Proof. destruct a, b; unfold truediv; repeat keeps_step. Qed.

Lemma keeps_modulo a b : keeps_scopes (modulo a b).
Proof. destruct a, b; unfold modulo; repeat keeps_step. Qed.

Lemma keeps_new_list l : keeps_scopes (new_list l).
Proof. done. Qed.
Lemma keeps_new_dict d : keeps_scopes (new_dict d).
Proof. done. Qed.
Lemma keeps_new_instance c p : keeps_scopes (new_instance c p).
Proof. done. Qed.
Lemma keeps_new_closure n e : keeps_scopes (new_closure n e).
Proof. done. Qed.
Lemma keeps_lift {A} (f : State -> result A) : keeps_scopes (lift f).
Proof. done. Qed.

Section WithHost.
Context `{Host}.

Lemma keeps_clean v : keeps_scopes (_clean v).
Proof.
  destruct v; try done. simpl.
  apply keeps_bind; [apply keeps_py_int_of_float|]. intros n. by destruct float_eq_int.
Qed.

Lemma keeps_assert_num v op line : keeps_scopes (_assert_num v op line).
Proof. intros st. unfold _assert_num. by destruct is_number. Qed.

Lemma keeps_on_numbers f a b :
  (forall x y, keeps_scopes (f x y)) -> keeps_scopes (on_numbers f a b).
Proof.
  intros Hf. unfold on_numbers. destruct (as_num a), (as_num b); try done.
  apply keeps_bind; [apply Hf|done].
Qed.

Lemma keeps_py_add a b : keeps_scopes (py_add a b).
Proof.
  unfold py_add. destruct (as_num a), (as_num b); try by destruct is_list.
  apply keeps_bind; [apply keeps_arith|done].
Qed.

Lemma keeps_apply_op op a b line : keeps_scopes (_apply_op op a b line).
Proof.
  unfold _apply_op.
  repeat match goal with
         | |- keeps_scopes (if ?c then _ else _) => destruct c
         | |- keeps_scopes (bind _ _) => apply keeps_bind; [|intros]
         | |- keeps_scopes (_assert_num _ _ _) => apply keeps_assert_num
         | |- keeps_scopes (_clean _) => apply keeps_clean
         | |- keeps_scopes (on_numbers _ _ _) => apply keeps_on_numbers; intros
         | |- keeps_scopes (arith _ _ _ _) => apply keeps_arith
         | |- keeps_scopes (truediv _ _) => apply keeps_truediv
         | |- keeps_scopes (modulo _ _) => apply keeps_modulo
         | |- keeps_scopes (py_add _ _) => apply keeps_py_add
         | |- keeps_scopes (runtime_error _) => done
         end.
  destruct a, b; try done; (destruct (_ || _); [done|apply keeps_py_add]).
Qed.

Lemma keeps_py_in_dict k d : keeps_scopes (py_in_dict k d).
Proof. unfold py_in_dict. by destruct hashable. Qed.

Lemma keeps_py_join v : keeps_scopes (py_join v).
Proof. by destruct v. Qed.

(** [evaluate] allocates lists, dicts, instances and closures and reads the
    scopes; it writes to none. *)
Lemma evaluate_keeps_scopes : forall node env, keeps_scopes (evaluate node env).
Proof.
  fix IH 1. intros node env. destruct node; simpl.
  - apply keeps_bind; [apply keeps_py_int_of_float|done].
  - done.
  - done.
  - done.
  - intros st. destruct (get env name line st) as [v|[[]|]|]; try done.
    by destruct (functions st !! name).
  - apply keeps_bind; [apply IH|]. intros a.
    apply keeps_bind; [apply IH|]. intros b. apply keeps_apply_op.
  - apply keeps_bind; [apply IH|]. intros v. by destruct is_int_or_float.
  - apply keeps_bind; [|intros; apply keeps_new_list].
    induction elements as [|e l IHl]; [done|].
    apply keeps_bind; [apply IH|]. intros v.
    apply keeps_bind; [apply IHl|done].
  - apply keeps_bind; [|intros; apply keeps_new_dict].
    generalize (@nil (value * value)).
    induction pairs as [|[ke ve] l IHl]; intros d; [done|].
    apply keeps_bind; [apply IH|]. intros k.
    apply keeps_bind; [apply IH|]. intros v.
    destruct (_ || _); [done|apply IHl].
  - apply keeps_bind; [apply IH|]. intros d. destruct d; try done.
    apply keeps_bind; [apply IH|]. intros k st.
    unfold bind. pose proof (keeps_py_in_dict k (dict_at st ref) st) as Hk.
    destruct (py_in_dict k (dict_at st ref) st) as [st' [[]| |]]; done.
  - intros st. destruct (classes st !! class_name) as [cd|]; [|done].
    revert st. apply keeps_bind; [apply keeps_lift|]. intros all_props.
    apply keeps_bind; [|intros; apply keeps_new_instance].
    generalize (fresh_props all_props).
    induction args as [|[ke ve] l IHl]; intros props; [done|].
    apply keeps_bind; [apply IH|]. intros k.
    apply keeps_bind; [apply IH|]. intros v st'. apply IHl.
  - apply keeps_bind; [apply IH|]. intros future.
    destruct (has_attr future "result"); [done|].
    destruct (has_attr future "join"); [|done].
    apply keeps_bind; [apply keeps_py_join|]. intros _.
    by destruct (if has_attr future "thread_error" then _ else _).
Qed.

End WithHost.

End Frames.

(* ===================================================================== *)
(** * A host for the examples

    The examples and witnesses below run the interpreter on small programs;
    none of them reaches a function of the host. *)
(* ===================================================================== *)

Module Sample.
Import Ast PyNum Runtime Interp.
Local Open Scope string_scope.

#[export] Instance host : Host := {|
  str_of_float := fun _ => "<float>";
  float_of_str := fun _ => None;
  str_of_object := fun _ _ => "<object>";
  eq_of_object := fun _ _ _ => false |}.

(** The number literal of a whole number. *)
Definition number (n : Z) (line : Z) : expr := NumberLiteral (mk_float n 0) line.

(** The global scope of a new interpreter. *)
Definition globals : Environment := global_env new_interpreter.

End Sample.

(* ===================================================================== *)
(** * Scopes: lookup of unknown names, fresh variables in blocks *)
(* ===================================================================== *)

Module ScopeFacts.
Import Ast PyNum Runtime Interp Scopes Frames Sample.
Local Open Scope string_scope.

Lemma cell_same_scopes st st' c : scopes st' = scopes st -> cell st' c = cell st c.
Proof. unfold cell. by intros ->. Qed.

Lemma unbound_same_scopes st st' env name :
  scopes st' = scopes st -> unbound st env name -> unbound st' env name.
Proof.
  intros Hs Hu. unfold unbound. eapply Forall_impl; [exact Hu|].
  intros c; simpl. by rewrite (cell_same_scopes _ _ _ Hs).
Qed.

Lemma valid_same_scopes st st' env :
  scopes st' = scopes st -> valid st env -> valid st' env.
Proof. intros Hs [Hnd Hlt]. split; [done|]. by rewrite Hs. Qed.

(** After the name was created in the root, a lookup from anywhere in the
    chain finds it. *)
Lemma get_after_root_store st env name v line :
  valid st env -> unbound st env name ->
  get env name line (store_var (root env) name v st) = Ok v.
Proof.
  unfold valid, unbound.
  induction env as [vars|vars parent IH] using Environment_chain_ind;
    simpl; intros [Hnd Hlt] Hu.
  - apply Forall_cons in Hlt as [Hlt _].
    rewrite vars_of_cell; simpl.
    rewrite (cell_store_var_same st (Env vars None)); [|done].
    by rewrite lookup_insert_eq.
  - apply Forall_cons in Hlt as [_ Hlt]. apply Forall_cons in Hu as [Hc Hu].
    apply NoDup_cons in Hnd as [Hnotin Hnd].
    rewrite vars_of_cell; simpl.
    rewrite cell_store_var_other.
    + rewrite Hc. by apply IH.
    + intros ->. apply Hnotin, root_in_chain.
Qed.

(** C1 (as amended): for an identifier whose name no scope of the chain owns
    and no function has, the scope lookup [Environment.get] fails with the
    name-not-found runtime error, and [evaluate] catches it and returns the
    name itself as a text value; the state stays as it was. *)
Theorem unbound_identifier_is_its_name `{Host} st env name line :
  unbound st env name ->
  functions st !! name = None ->
  get env name line st = Raise (name_not_found name line) /\
  evaluate (Identifier name line) env st = (st, Ok (VStr name)).
Proof.
  intros Hu Hf. split; [by apply get_unbound|].
  simpl. rewrite (get_unbound _ _ _ _ Hu). unfold name_not_found. by rewrite Hf.
Qed.

Lemma unbound_identifier_is_its_name_witness :
  unbound new_interpreter globals "x" /\
  functions new_interpreter !! "x" = None /\
  evaluate (Identifier "x" 3) globals new_interpreter
  = (new_interpreter, Ok (VStr "x")).
Proof.
  assert (Hu : unbound new_interpreter globals "x") by (repeat constructor).
  split; [exact Hu|]. split; [reflexivity|].
  exact (proj2 (unbound_identifier_is_its_name new_interpreter globals "x" 3
                  Hu eq_refl)).
Defined.

(** C1 (as stated) fails: in a new interpreter the name [x] is bound in no
    scope and names no function, and evaluating the identifier yields the
    text [x], not the name-not-found error. *)
Lemma unbound_identifier_counterexample :
  unbound new_interpreter globals "x" /\
  functions new_interpreter !! "x" = None /\
  (evaluate (Identifier "x" 3) globals new_interpreter).2 = Ok (VStr "x") /\
  (evaluate (Identifier "x" 3) globals new_interpreter).2
  <> Raise (name_not_found "x" 3).
Proof.
  split; [repeat constructor|]. split; [reflexivity|]. split; [reflexivity|].
  discriminate.
Qed.

(** A [Let] of a name that no scope of the chain owns, in any scope. *)
Lemma let_fresh `{Host} fuel st env x e line st' v :
  unbound st env x ->
  evaluate e env st = (st', Ok v) ->
  execute_stmt (S fuel) (LetStmt x e line) env st
  = (store_var (root env) x v st', Ok tt).
Proof.
  intros Hu Heval.
  pose proof (evaluate_keeps_scopes e env st) as Hs. rewrite Heval in Hs; simpl in Hs.
  change (execute_stmt (S fuel) (LetStmt x e line) env st)
    with (bind (evaluate e env) (fun w => write (assign env x w)) st).
  unfold bind. rewrite Heval. unfold write.
  rewrite assign_unbound; [done|]. by apply (unbound_same_scopes st).
Qed.

(** The state after the name was created in the root. *)
Lemma store_root_facts st env x v :
  valid st env -> unbound st env x ->
  let s := store_var (root env) x v st in
  cell s (env_vars (root env)) !! x = Some v /\
  (forall c, c <> env_vars (root env) -> cell s c = cell st c) /\
  (forall line, get env x line s = Ok v).
Proof.
  intros Hv Hu s. split; [|split].
  - unfold s. rewrite cell_store_var_same.
    + by rewrite lookup_insert_eq.
    + destruct Hv as [_ Hlt]. rewrite Forall_forall in Hlt.
      apply Hlt, root_in_chain.
  - intros c Hc. by apply cell_store_var_other.
  - intros line. by apply get_after_root_store.
Qed.

(** In a chain without repeated objects, only the root scope is at the
    root's index. *)
Lemma own_is_not_root own parent :
  NoDup (chain (Env own (Some parent))) -> own <> env_vars (root parent).
Proof.
  simpl. intros Hnd ->. apply NoDup_cons in Hnd as [Hnotin _].
  apply Hnotin, root_in_chain.
Qed.

(** The program [If 1 equals 1 then Let x be 7. End if.] *)
Definition let_in_if : list stmt :=
  [IfStmt (Condition (number 1 1) "equals" (Some (number 1 1)) 1)
          [LetStmt "x" (number 7 2) 2] [] 1].

(** C2 (as stated) fails: [x] is owned by no scope when the program
    [let_in_if] starts at the global scope; after the if-block has
    completed, the block's own scope (the second scope object) has no binding
    for [x], and the enclosing global scope has one. *)
Lemma fresh_let_in_if_counterexample :
  let r := execute 3 let_in_if globals new_interpreter in
  unbound new_interpreter globals "x" /\
  r.2 = Ok tt /\
  cell r.1 1 !! "x" = None /\
  cell r.1 0 !! "x" = Some (VInt 7).
Proof. split; [repeat constructor|]. by vm_compute. Qed.

(** ** The block constructs, one by one *)

(** The body of a block made of one [Let], run the way every block is run:
    [self.execute(body, Environment(parent=p))]. *)
Lemma block_fresh_let `{Host} fuel st p x e line st' v :
  valid st p -> unbound st p x ->
  evaluate e (block_scope st p) (enter_block st) = (st', Ok v) ->
  bind (new_env (Some p))
       (fun child => exec_list (execute_stmt (S fuel)) [LetStmt x e line] child) st
  = (store_var (root p) x v st', Ok tt).
Proof.
  intros Hv Hu Heval. unfold bind at 1. rewrite new_env_block.
  cbn [exec_list]. unfold bind.
  rewrite (let_fresh fuel (enter_block st) (block_scope st p) x e line st' v);
    [done| |done].
  by apply unbound_block.
Qed.

(** What is in the scopes after such a block: the block's scope is empty,
    the root of the chain has the name. *)
Lemma block_fresh_let_scopes `{Host} st p x e st' v :
  valid st p -> unbound st p x ->
  evaluate e (block_scope st p) (enter_block st) = (st', Ok v) ->
  let s := store_var (root p) x v st' in
  cell s (length (scopes st)) = ∅ /\
  cell s (env_vars (root p)) !! x = Some v /\
  (forall c, c <> env_vars (root p) -> (c < length (scopes st))%nat ->
             cell s c = cell st c) /\
  (forall line', get p x line' s = Ok v).
Proof.
  intros Hv Hu Heval s.
  assert (Hs : scopes st' = scopes (enter_block st)).
  { pose proof (evaluate_keeps_scopes e (block_scope st p) (enter_block st)) as X.
    by rewrite Heval in X. }
  pose proof (valid_block st p Hv) as Hvb.
  pose proof (unbound_block st p x Hv Hu) as Hub.
  apply (valid_same_scopes _ st') in Hvb; [|done].
  apply (unbound_same_scopes _ st') in Hub; [|done].
  destruct (store_root_facts st' (block_scope st p) x v Hvb Hub)
    as (Hroot & Hother & Hget).
  simpl in Hroot, Hother. fold s in Hroot, Hother.
  split; [|split; [done|split]].
  - rewrite Hother.
    + rewrite (cell_same_scopes _ _ _ Hs). apply cell_enter_block_new.
    + apply (own_is_not_root _ p), Hvb.
  - intros c Hc Hlt. rewrite Hother; [|done].
    rewrite (cell_same_scopes _ _ _ Hs). by apply cell_enter_block_old.
  - intros line'. apply get_after_root_store.
    + destruct Hvb as [Hnd Hlt]; simpl in *.
      apply NoDup_cons in Hnd as [_ Hnd]. apply Forall_cons in Hlt as [_ Hlt]. done.
    + unfold unbound in Hub; simpl in Hub. by apply Forall_cons in Hub as [_ Hub].
Qed.

(** ** The blocks of the statements *)

Section Blocks.
Context `{Host}.

(** The way every block is run: [self.execute(body, Environment(parent=p))],
    the body in a new scope whose parent is [p]. *)
Definition run_block (fuel : nat) (body : list stmt) (p : Environment) : M unit :=
  bind (new_env (Some p)) (fun child => exec_list (execute_stmt fuel) body child).

(** The statements that run a block, as [execute_stmt] has them. *)
Lemma if_runs_a_block fuel c then_body else_body line env :
  execute_stmt (S fuel) (IfStmt c then_body else_body line) env
  = bind (evaluate_condition c env)
      (fun b : bool =>
         if b then run_block fuel then_body env
         else match else_body with
              | [] => ret tt
              | _ => run_block fuel else_body env
              end).
Proof. done. Qed.

Lemma repeat_runs_blocks fuel count body line env :
  execute_stmt (S fuel) (RepeatStmt count body line) env
  = bind (evaluate count env)
      (fun n =>
         if is_int_or_float n then
           catch_stop
             (bind (py_int n)
                (fun k => for_range (Z.to_nat k) (run_block fuel body env)))
         else
           fun st =>
             runtime_error
               (line_prefix line +:+ "Repeat needs a number, got '"
                +:+ py_str st n +:+ "'.") st).
Proof. done. Qed.

Lemma while_runs_blocks fuel c body line env :
  execute_stmt (S fuel) (WhileStmt c body line) env
  = catch_stop (while_loop while_rounds 0 (evaluate_condition c env)
                           (run_block fuel body env)).
Proof. done. Qed.

Lemma call_runs_a_function fuel name args line env :
  execute_stmt (S fuel) (CallStmt name args line None) env
  = bind (_call_function (exec_list (execute_stmt fuel)) name args env line)
         (fun _ => ret tt).
Proof. done. Qed.

(** A call of a function of the function table that takes no parameter:
    its body runs as a block under the global scope. *)
Lemma call_runs_the_body fuel f body line env st :
  unbound st env f ->
  functions st !! f = Some (mkFunction f [] body) ->
  _call_function (exec_list (execute_stmt fuel)) f [] env line st
  = run_body (exec_list (execute_stmt fuel) body (block_scope st (global_env st)))
             ("function '" +:+ f +:+ "' at line " +:+ pretty line)
             (enter_block st).
Proof.
  intros Hu Hf. unfold _call_function.
  rewrite (get_unbound _ _ _ _ Hu). unfold name_not_found. rewrite Hf.
  cbn [eval_args]. unfold bind at 1. unfold ret at 1.
  cbn [f_params f_body f_name].
  change (arity_mismatch [] []) with (@None string). cbv iota.
  unfold bind at 1. rewrite new_env_block. cbn [bind_params].
  unfold bind at 1. by unfold ret at 1.
Qed.

(** C2 (as amended): a fresh [Let] in a block lands in the root scope. Let a
    block whose body is [Let x be e] be entered in the state [st] under the
    scope [p], the name [x] owned by no scope of the chain of [p]. The
    block runs in a new scope, whose parent is [p]; after it has completed
    that scope is empty, the root scope of the chain holds [x], every other
    scope is as it was, and [p] reads [x]. This is the state in which the
    arm of an [If] and of its [Else] leave, in which the first round of a
    [Repeat] and of a [While] hands over to the rest of the loop, and in
    which the call of a function with that body returns, the block of the
    function being one under the global scope. *)
Theorem fresh_let_lands_in_root fuel st p x e line st' v :
  valid st p ->
  unbound st p x ->
  evaluate e (block_scope st p) (enter_block st) = (st', Ok v) ->
  let body := [LetStmt x e line] in
  let s := store_var (root p) x v st' in
  (env_parent (block_scope st p) = Some p /\
   length (scopes s) = S (length (scopes st)) /\
   cell s (env_vars (block_scope st p)) = ∅ /\
   cell s (env_vars (root p)) !! x = Some v /\
   (forall c, c <> env_vars (root p) -> (c < length (scopes st))%nat ->
              cell s c = cell st c) /\
   (forall line', get p x line' s = Ok v)) /\
  (forall c else_body l st0,
      evaluate_condition c p st0 = (st, Ok true) ->
      execute_stmt (S (S fuel)) (IfStmt c body else_body l) p st0 = (s, Ok tt)) /\
  (forall c then_body l st0,
      evaluate_condition c p st0 = (st, Ok false) ->
      execute_stmt (S (S fuel)) (IfStmt c then_body body l) p st0 = (s, Ok tt)) /\
  (forall count l st0 n,
      evaluate count p st0 = (st, Ok (VInt n)) ->
      (1 <= n)%Z ->
      execute_stmt (S (S fuel)) (RepeatStmt count body l) p st0
      = catch_stop (for_range (Z.to_nat (n - 1)) (run_block (S fuel) body p)) s) /\
  (forall c l st0,
      evaluate_condition c p st0 = (st, Ok true) ->
      execute_stmt (S (S fuel)) (WhileStmt c body l) p st0
      = catch_stop (while_loop (Z.to_nat WHILE_LIMIT) 1 (evaluate_condition c p)
                               (run_block (S fuel) body p)) s) /\
  (forall f l env,
      p = global_env st ->
      unbound st env f ->
      functions st !! f = Some (mkFunction f [] body) ->
      execute_stmt (S (S fuel)) (CallStmt f [] l None) env st = (s, Ok tt)).
Proof.
  intros Hv Hu Heval body s.
  pose proof (block_fresh_let fuel st p x e line st' v Hv Hu Heval) as Hblock.
  fold (run_block (S fuel) [LetStmt x e line] p) in Hblock. fold body s in Hblock.
  destruct (block_fresh_let_scopes st p x e st' v Hv Hu Heval)
    as (Hnew & Hroot & Hother & Hget).
  fold s in Hnew, Hroot, Hother, Hget.
  split; [|split; [|split; [|split; [|split]]]].
  - split; [done|]. split; [|done].
    pose proof (evaluate_keeps_scopes e (block_scope st p) (enter_block st)) as Hs.
    rewrite Heval in Hs; simpl in Hs. unfold s.
    rewrite scopes_length_store_var, Hs. unfold enter_block, with_scopes; simpl.
    rewrite length_app; simpl. lia.
  - intros c else_body l st0 Hc. rewrite if_runs_a_block. unfold bind at 1.
    by rewrite Hc.
  - intros c then_body l st0 Hc. rewrite if_runs_a_block. unfold bind at 1.
    by rewrite Hc.
  - intros count l st0 n Hcount Hn. rewrite repeat_runs_blocks. unfold bind at 1.
    rewrite Hcount. cbn [is_int_or_float]. unfold catch_stop, bind.
    cbn [py_int]. unfold ret.
    replace (Z.to_nat n) with (S (Z.to_nat (n - 1))) by lia.
    cbn [for_range]. unfold bind, skip_continues. by rewrite Hblock.
  - intros c l st0 Hc. rewrite while_runs_blocks. unfold catch_stop, while_rounds.
    cbn [while_loop]. unfold bind at 1. rewrite Hc.
    change (WHILE_LIMIT <? 0 + 1)%Z with false. cbv iota.
    unfold bind, skip_continues. by rewrite Hblock.
  - intros f l env -> Huf Hf. rewrite call_runs_a_function. unfold bind.
    rewrite (call_runs_the_body (S fuel) f body l env st Huf Hf).
    unfold run_body. unfold run_block in Hblock. unfold bind in Hblock.
    rewrite new_env_block in Hblock. by rewrite Hblock.
Qed.

End Blocks.

(** [1 equals 1] *)
Definition one_is_one : cond :=
  Condition (number 1 1) "equals" (Some (number 1 1)) 1.

Lemma fresh_let_lands_in_root_witness :
  let r := execute_stmt 2 (IfStmt one_is_one [LetStmt "x" (number 7 2) 2] [] 1)
                        globals new_interpreter in
  r.2 = Ok tt /\
  cell r.1 1 = ∅ /\
  cell r.1 0 !! "x" = Some (VInt 7) /\
  get globals "x" 3 r.1 = Ok (VInt 7).
Proof.
  assert (Hv : valid new_interpreter globals).
  { split; [apply NoDup_singleton|]. repeat constructor. }
  assert (Hu : unbound new_interpreter globals "x") by (repeat constructor).
  pose proof (fresh_let_lands_in_root 0 new_interpreter globals "x" (number 7 2) 2
                (enter_block new_interpreter) (VInt 7) Hv Hu eq_refl)
    as ((_ & _ & Hown & Hroot & _ & Hget) & Hif & _).
  rewrite (Hif one_is_one [] 1 new_interpreter eq_refl).
  split; [reflexivity|]. split; [exact Hown|]. split; [exact Hroot|]. exact (Hget 3).
Defined.

(** [Repeat 2 times: Let x be 7.], [While] with one round, and a call of a
    function whose body is [Let x be 7.]: each time the block's own scope
    stays empty and the global scope gets the name. *)
Definition let_in_repeat : list stmt :=
  [RepeatStmt (number 2 1) [LetStmt "x" (number 7 2) 2] 1].

Definition let_in_while : list stmt :=
  [WhileStmt (Condition (Identifier "x" 1) "equals" (Some (StringLiteral "x" 1)) 1)
             [LetStmt "x" (number 7 2) 2] 1].

Definition let_in_function : list stmt :=
  [FunctionDef "f" [] [LetStmt "x" (number 7 2) 2] 1;
   CallStmt "f" [] 3 None].

Example repeat_fresh_let :
  let r := execute 3 let_in_repeat globals new_interpreter in
  r.2 = Ok tt /\ cell r.1 1 = ∅ /\ cell r.1 2 = ∅ /\
  cell r.1 0 !! "x" = Some (VInt 7).
Proof. by vm_compute. Qed.

Example while_fresh_let :
  let r := execute 3 let_in_while globals new_interpreter in
  r.2 = Ok tt /\ cell r.1 1 = ∅ /\ cell r.1 0 !! "x" = Some (VInt 7).
Proof. by vm_compute. Qed.

Example function_fresh_let :
  let r := execute 3 let_in_function globals new_interpreter in
  r.2 = Ok tt /\ cell r.1 1 = ∅ /\ cell r.1 0 !! "x" = Some (VInt 7).
Proof. by vm_compute. Qed.

(** ** Try and attempt *)

Lemma execute_stmt_try `{Host} fuel try_body error_var catch_body line env :
  execute_stmt (S fuel) (TryCatch try_body error_var catch_body line) env
  = fun st =>
      match bind (new_env (Some env))
                 (fun child => exec_list (execute_stmt fuel) try_body child) st with
      | (st', Raise e) =>
          bind (new_env (Some env))
            (fun catch_env =>
               bind (write (fun s =>
                        set_local catch_env error_var
                          (VStr (replace "RuntimeError_: " EmptyString (exn_str s e))) s))
                    (fun _ => exec_list (execute_stmt fuel) catch_body catch_env)) st'
      | r => r
      end.
Proof. done. Qed.

Lemma execute_stmt_attempt `{Host} fuel try_body error_var catch_body line env :
  execute_stmt (S fuel) (AttemptStmt try_body error_var catch_body line) env
  = fun st =>
      match exec_list (execute_stmt fuel) try_body env st with
      | (st', Raise (Error (RuntimeError_ msg plain_stack))) =>
          bind (new_env (Some env))
            (fun catch_env =>
               bind (write (set_local catch_env error_var
                              (VStr (attempt_message msg plain_stack))))
                    (fun _ => exec_list (execute_stmt fuel) catch_body catch_env)) st'
      | r => r
      end.
Proof. done. Qed.

(** C4 (as amended): try/handle runs its protected body in a fresh child
    scope of the scope active at entry. The statement makes a new scope
    object, empty and with the entry scope as its parent, and runs the body
    there: whatever the body is, when its run in that scope ends without
    raising, the statement ends as that run ends. A [Let] in the body of a
    name that no scope of the chain owns leaves the child scope empty and
    creates the name in the root scope of the chain, so the name becomes a
    binding of the entry scope itself exactly when the entry scope is the
    root. *)
Theorem try_body_fresh_let `{Host} fuel st env x e line error_var catch_body line'
    st' v :
  valid st env ->
  unbound st env x ->
  evaluate e (block_scope st env) (enter_block st) = (st', Ok v) ->
  let child := block_scope st env in
  let r := execute_stmt (S (S fuel))
             (TryCatch [LetStmt x e line] error_var catch_body line') env st in
  (env_parent child = Some env /\
   env_vars child = length (scopes st) /\
   cell (enter_block st) (env_vars child) = ∅ /\
   forall try_body st1 r1,
     exec_list (execute_stmt (S fuel)) try_body child (enter_block st) = (st1, r1) ->
     (forall err, r1 <> Raise err) ->
     execute_stmt (S (S fuel)) (TryCatch try_body error_var catch_body line') env st
     = (st1, r1)) /\
  r.2 = Ok tt /\
  length (scopes r.1) = S (length (scopes st)) /\
  cell r.1 (env_vars child) = ∅ /\
  cell r.1 (env_vars (root env)) !! x = Some v /\
  (is_Some (cell r.1 (env_vars env) !! x) <-> env_parent env = None).
Proof.
  intros Hv Hu Heval child r. split.
  { split; [done|]. split; [done|]. split; [apply cell_enter_block_new|].
    intros try_body st1 r1 Hrun Hno. rewrite execute_stmt_try.
    unfold bind. rewrite new_env_block. fold child. rewrite Hrun.
    destruct r1 as [[]|err|]; [done| |done]. by destruct (Hno err). }
  unfold r. rewrite execute_stmt_try.
  rewrite (block_fresh_let fuel st env x e line st' v Hv Hu Heval). cbn [fst snd].
  destruct (block_fresh_let_scopes st env x e st' v Hv Hu Heval)
    as (Hnew & Hroot & Hother & _).
  split; [done|]. split.
  { pose proof (evaluate_keeps_scopes e (block_scope st env) (enter_block st)) as Hs.
    rewrite Heval in Hs; simpl in Hs.
    rewrite scopes_length_store_var, Hs. unfold enter_block, with_scopes; simpl.
    rewrite length_app; simpl. lia. }
  split; [done|]. split; [done|].
  destruct env as [own [parent|]]; cbn [root env_vars env_parent fst snd] in *.
  - split; [|done]. intros Hsome. exfalso.
    rewrite Hother in Hsome.
    + unfold unbound in Hu; simpl in Hu. apply Forall_cons in Hu as [Hc _].
      rewrite Hc in Hsome. by destruct Hsome.
    + apply own_is_not_root, Hv.
    + destruct Hv as [_ Hlt]; simpl in Hlt. by apply Forall_cons in Hlt as [Hlt _].
  - split; [done|]. intros _. by rewrite Hroot.
Qed.

Lemma try_body_fresh_let_witness :
  let r := execute_stmt 2 (TryCatch [LetStmt "x" (number 7 2) 2] "e" [] 1)
                        globals new_interpreter in
  length (scopes r.1) = 2%nat /\
  cell r.1 1 = ∅ /\
  cell r.1 0 !! "x" = Some (VInt 7).
Proof.
  assert (Hv : valid new_interpreter globals).
  { split; [apply NoDup_singleton|]. repeat constructor. }
  assert (Hu : unbound new_interpreter globals "x") by (repeat constructor).
  pose proof (try_body_fresh_let 0 new_interpreter globals "x" (number 7 2) 2 "e" [] 1
                (enter_block new_interpreter) (VInt 7) Hv Hu eq_refl)
    as (_ & _ & Hlen & Hchild & Hroot & _).
  split; [exact Hlen|]. split; [exact Hchild|]. exact Hroot.
Defined.

(** The program [Try: Let x be 7. Handle error e: End try.] *)
Definition let_in_try : list stmt :=
  [TryCatch [LetStmt "x" (number 7 2) 2] "e" [] 1].

(** C4 (as stated) fails: run at the global scope, the protected body of
    [let_in_try] makes a fresh binding [x], and after the statement [x] is a
    binding of the entry scope itself (the first scope object). *)
Lemma try_fresh_binding_counterexample :
  let r := execute 3 let_in_try globals new_interpreter in
  unbound new_interpreter globals "x" /\
  r.2 = Ok tt /\
  cell r.1 (env_vars globals) !! "x" = Some (VInt 7).
Proof. split; [repeat constructor|]. by vm_compute. Qed.

(** attempt/rescue runs its protected body in the scope active at entry
    itself: no scope object is made for it. *)
Lemma attempt_body_runs_in_entry_scope `{Host} fuel st env x e line error_var
    catch_body line' st' v :
  unbound st env x ->
  evaluate e env st = (st', Ok v) ->
  let r := execute_stmt (S (S fuel))
             (AttemptStmt [LetStmt x e line] error_var catch_body line') env st in
  r = (store_var (root env) x v st', Ok tt) /\
  length (scopes r.1) = length (scopes st).
Proof.
  intros Hu Heval r.
  assert (Hr : r = (store_var (root env) x v st', Ok tt)).
  { unfold r. rewrite execute_stmt_attempt.
    cbn [exec_list]. unfold bind at 1.
    by rewrite (let_fresh fuel st env x e line st' v Hu Heval). }
  rewrite Hr. split; [done|]. cbn [fst].
  pose proof (evaluate_keeps_scopes e env st) as Hs. rewrite Heval in Hs; simpl in Hs.
  by rewrite scopes_length_store_var, Hs.
Qed.

(** Both statements run the handler in a fresh child scope of the entry
    scope, with the error text as a local binding there. *)
Example handlers_run_in_child_scope :
  let try_ := execute 3 [TryCatch [ThrowStmt (StringLiteral "boom" 2) 2] "e" [] 1]
                        globals new_interpreter in
  let attempt := execute 3 [AttemptStmt [ThrowStmt (StringLiteral "boom" 2) 2] "e" [] 1]
                           globals new_interpreter in
  try_.2 = Ok tt /\ attempt.2 = Ok tt /\
  cell try_.1 0 = ∅ /\ cell attempt.1 0 = ∅ /\
  cell try_.1 2 !! "e" = Some (VStr "Line 2: boom") /\
  cell attempt.1 1 !! "e" = Some (VStr "Line 2: boom").
Proof. by vm_compute. Qed.

End ScopeFacts.

(* ===================================================================== *)
(** * Operators, waiting, dictionaries *)
(* ===================================================================== *)

Module ValueFacts.
Import Ast PyNum Runtime Interp Scopes Frames Sample.
Local Open Scope string_scope.

(** What a [bind] that returned went through. *)
Lemma bind_ok {A B} (m : M A) (k : A -> M B) st st' b :
  bind m k st = (st', Ok b) ->
  exists a st1, m st = (st1, Ok a) /\ k a st1 = (st', Ok b).
Proof.
  unfold bind. destruct (m st) as [st1 [a| |]]; intros Hk; try done.
  by exists a, st1.
Qed.

(** ** Whole results *)

(** A float that is a whole number, the values [_clean] turns into ints. *)
Definition whole_float (v : value) : bool :=
  match v with
  | VFloat f =>
      match int_of_float f with
      | inr n => float_eq_int f n
      | inl _ => false
      end
  | _ => false
  end.

(** What [_clean] returns is never a whole float. *)
Lemma clean_normalizes `{Host} v st st' r :
  _clean v st = (st', Ok r) -> whole_float r = false.
Proof.
  destruct v; simpl; try (by intros [= <- <-]).
  unfold bind, py_int_of_float, conv.
  destruct (int_of_float f) as [[]|n] eqn:Hn; try done. simpl.
  destruct (float_eq_int f n) eqn:Heq; intros [= <- <-]; simpl; [done|].
  by rewrite Hn.
Qed.

(** The operators that end in [_clean]. *)
Definition cleaned_op (op : string) : bool :=
  String.eqb op "minus" || String.eqb op "times"
  || String.eqb op "divided_by" || String.eqb op "modulo".

(** minus, times, divided by and modulo give normalized results. *)
Lemma cleaned_ops_normalize `{Host} op a b line st st' r :
  cleaned_op op = true ->
  _apply_op op a b line st = (st', Ok r) ->
  whole_float r = false.
Proof.
  unfold cleaned_op, _apply_op. intros Hop.
  destruct (String.eqb op "plus") eqn:Hplus.
  { apply String.eqb_eq in Hplus. by subst op. }
  clear Hop.
  repeat match goal with
         | |- context [if String.eqb op ?s then _ else _] => destruct (String.eqb op s)
         end; try done.
  all: intros Hr;
    repeat match goal with
           | Hb : bind _ _ _ = (_, Ok _) |- _ =>
               apply bind_ok in Hb as (? & ? & ? & Hb)
           | Hb : (if ?c then _ else _) _ = (_, Ok _) |- _ => destruct c; [done|]
           end;
    by eapply clean_normalizes.
Qed.

Definition one_and_a_half : spec_float := mk_float 3 (-1).
Definition four_and_a_half : spec_float := mk_float 9 (-1).
Definition three : spec_float := mk_float 3 0.

Example six_divided_by_two `{Host} st env :
  evaluate (BinOp (number 6 1) "divided_by" (number 2 1) 1) env st = (st, Ok (VInt 3)).
Proof. reflexivity. Qed.

Example whole_difference_is_an_int `{Host} st env :
  evaluate (BinOp (NumberLiteral four_and_a_half 1) "minus"
                  (NumberLiteral one_and_a_half 1) 1) env st
  = (st, Ok (VInt 3)).
Proof. reflexivity. Qed.

Example whole_int_sum `{Host} st env :
  evaluate (BinOp (number 3 1) "plus" (number 4 1) 1) env st = (st, Ok (VInt 7)).
Proof. reflexivity. Qed.

(** C3 (the code departs from the claim): [1.5 plus 1.5] is the whole number
    3, and the plus branch of [_apply_op] returns it as the float 3.0, a
    whole float that was not normalized to the integer 3. *)
Theorem plus_leaves_whole_sum_a_float `{Host} st env :
  evaluate (BinOp (NumberLiteral one_and_a_half 1) "plus"
                  (NumberLiteral one_and_a_half 1) 1) env st
  = (st, Ok (VFloat three)) /\
  whole_float (VFloat three) = true /\
  VFloat three <> VInt 3.
Proof. split; [reflexivity|]. split; [reflexivity|discriminate]. Qed.

(** ** Waiting *)

(** Waiting for a task handle: its stored error is raised again, else its
    stored result is returned. *)
Lemma wait_for_handle `{Host} e line env st st' id thread_result thread_error :
  evaluate e env st = (st', Ok (VTask id thread_result thread_error)) ->
  evaluate (WaitExpr e line) env st
  = (st', match thread_error with
          | Some err => Raise (Error err)
          | None => Ok thread_result
          end).
Proof.
  intros He. cbn [evaluate]. unfold bind at 1. rewrite He.
  by destruct thread_error.
Qed.

(** Waiting for a value that is neither a handle nor a text is the reported
    usage error. *)
Lemma wait_for_other `{Host} e line env st st' v :
  evaluate e env st = (st', Ok v) ->
  has_attr v "join" = false ->
  evaluate (WaitExpr e line) env st
  = (st', Raise (Error (RuntimeError_
       (line_prefix line +:+ "Cannot 'waiting for' something that is not "
        +:+ "an active background task.") []))).
Proof.
  intros He Hj. cbn [evaluate]. unfold bind at 1. rewrite He.
  assert (has_attr v "result" = false) as -> by (by destruct v).
  by rewrite Hj.
Qed.

(** C5 (the code departs from the claim): a text value has a [join]
    attribute, so waiting for a text takes the branch of the thread handles
    and calls [join] without argument: Python's [TypeError] comes out, not
    the [RuntimeError_] of the usage error. *)
Theorem wait_for_text_is_a_type_error `{Host} s l line env st :
  evaluate (WaitExpr (StringLiteral s l) line) env st
  = (st, Raise (Error (PyError "TypeError"
                         "str.join() takes exactly one argument (0 given)"))).
Proof. reflexivity. Qed.

(** ** Dictionaries *)

Lemma execute_stmt_remove `{Host} fuel dict_expr key_expr line env :
  execute_stmt (S fuel) (RemoveDictValueStmt dict_expr key_expr line) env
  = bind (evaluate dict_expr env)
      (fun d =>
         match d with
         | VDict ref =>
             bind (evaluate key_expr env)
               (fun k =>
                  bind (fun st => py_in_dict k (dict_at st ref) st)
                    (fun present : bool =>
                       if present
                       then write (fun st =>
                                     with_dicts
                                       (fun s => <[ref := dict_del k (dict_at st ref)]> s)
                                       st)
                       else ret tt))
         | _ =>
             runtime_error
               (line_prefix line +:+ "Can only remove a value from a dictionary.")
         end).
Proof. done. Qed.

(** For a key that can be hashed (no list, no dict), that is no NaN and that
    the dictionary does not contain, removing the value is a silent no-op
    (the statement returns and the state is the one the two operands left),
    while reading the value raises the key-not-found runtime error. *)
Lemma remove_missing_key_is_a_no_op `{Host} fuel st env dict_expr key_expr line
    ref k st1 st2 :
  evaluate dict_expr env st = (st1, Ok (VDict ref)) ->
  evaluate key_expr env st1 = (st2, Ok k) ->
  hashable k = true ->
  nan_key k = false ->
  dict_mem k (dict_at st2 ref) = false ->
  execute_stmt (S fuel) (RemoveDictValueStmt dict_expr key_expr line) env st
  = (st2, Ok tt) /\
  evaluate (DictAccess dict_expr key_expr line) env st
  = (st2, Raise (Error (RuntimeError_
       (line_prefix line +:+ "The dictionary does not have the key '"
        +:+ py_str st2 k +:+ "'.") []))).
Proof.
  intros Hd Hk Hh _ Hmem. split.
  - rewrite execute_stmt_remove. unfold bind at 1. rewrite Hd.
    unfold bind at 1. rewrite Hk. unfold bind, py_in_dict. by rewrite Hh, Hmem.
  - cbn [evaluate]. unfold bind at 1. rewrite Hd.
    unfold bind at 1. rewrite Hk. unfold bind, py_in_dict. by rewrite Hh, Hmem.
Qed.

(** [Let d be an empty dictionary], then the key [a]. *)
Definition with_empty_dict : State :=
  (execute 2 [LetStmt "d" (DictLiteral [] 1) 1] globals new_interpreter).1.

(** Removing the key [a] from the empty dictionary [d]. *)
Example remove_from_empty_dict :
  execute_stmt 1 (RemoveDictValueStmt (Identifier "d" 2) (StringLiteral "a" 2) 2)
               globals with_empty_dict
  = (with_empty_dict, Ok tt).
Proof.
  exact (proj1 (remove_missing_key_is_a_no_op 0 with_empty_dict globals
                  (Identifier "d" 2) (StringLiteral "a" 2) 2 0 (VStr "a")
                  with_empty_dict with_empty_dict eq_refl eq_refl eq_refl eq_refl
                  eq_refl)).
Qed.

(** A key that is there is removed, and only that one. *)
Example remove_present_key :
  let r := execute 2
             [LetStmt "d" (DictLiteral [(StringLiteral "a" 1, number 1 1);
                                        (StringLiteral "b" 1, number 2 1)] 1) 1;
              RemoveDictValueStmt (Identifier "d" 2) (StringLiteral "a" 2) 2]
             globals new_interpreter in
  r.2 = Ok tt /\ dict_at r.1 0 = [(VStr "b", VInt 2)].
Proof. by vm_compute. Qed.

(** A list is no key: the membership test of the removal raises Python's
    [TypeError]. *)
Example remove_with_a_list_as_key :
  (execute 2
     [LetStmt "d" (DictLiteral [] 1) 1;
      RemoveDictValueStmt (Identifier "d" 2) (ListLiteral [] 2) 2]
     globals new_interpreter).2
  = Raise (Error (PyError "TypeError" "unhashable type: 'list'")).
Proof. by vm_compute. Qed.

End ValueFacts.

(* ===================================================================== *)
(** * Method dispatch *)
(* ===================================================================== *)

Module DispatchFacts.
Import Ast PyNum Runtime Interp Sample.
Local Open Scope string_scope.

Section Tables.
Variable mtable : gmap string (gmap string method_def).
Variable ctable : gmap string class_def.

(** The method a class defines itself under a name. *)
Definition defines (c m : string) : option method_def :=
  mtable !! c ≫= (fun t => t !! m).

(** The parent a defined class names. *)
Definition parent_of (c : string) : option string :=
  ctable !! c ≫= (fun cd => truthy_name (c_parent cd)).

(** The single-inheritance chain of a class: the class, its parent, and so
    on up to the first class that names no parent or is not defined. *)
Inductive lineage : string -> list string -> Prop :=
| lineage_top c : parent_of c = None -> lineage c [c]
| lineage_up c p l : parent_of c = Some p -> lineage p l -> lineage c (c :: l).

(** The definition of the first class in a list that defines the method. *)
Fixpoint first_match (l : list string) (m : string) : option method_def :=
  match l with
  | [] => None
  | c :: l' =>
      match defines c m with
      | Some d => Some d
      | None => first_match l' m
      end
  end.

Lemma parent_not_empty c p : parent_of c = Some p -> p <> EmptyString.
Proof.
  unfold parent_of. destruct (ctable !! c) as [cd|]; simpl; [|done].
  unfold truthy_name. destruct (c_parent cd) as [s|]; [|done].
  destruct (String.eqb_spec s EmptyString); [done|]. by intros [= <-].
Qed.

(** The walk of [_call_method] along a chain it has the rounds for. *)
Lemma find_method_along c l m :
  lineage c l -> forall n, c <> EmptyString -> (length l <= n)%nat ->
  find_method n mtable ctable c m = Ok (first_match l m).
Proof.
  induction 1 as [c Hp|c p l Hp Hl IH]; intros n Hc Hn.
  - destruct n as [|n]; [simpl in Hn; lia|]. simpl.
    apply String.eqb_neq in Hc. rewrite Hc.
    fold (defines c m). destruct (defines c m); [done|].
    fold (parent_of c). by rewrite Hp.
  - destruct n as [|n]; [simpl in Hn; lia|]. simpl.
    apply String.eqb_neq in Hc. rewrite Hc.
    fold (defines c m). destruct (defines c m); [done|].
    fold (parent_of c). rewrite Hp. apply IH.
    + by eapply parent_not_empty.
    + simpl in Hn. lia.
Qed.

(** A chain without repetition has at most one class more than the class
    table: every class of it but the last is defined. *)
Lemma lineage_length c l :
  lineage c l -> NoDup l ->
  forall D : gset string,
    (forall x, x ∈ l -> is_Some (ctable !! x) -> x ∈ D) ->
    (length l <= S (size D))%nat.
Proof.
  induction 1 as [c Hp|c p l Hp Hl IH]; intros Hnd D HD; simpl; [lia|].
  apply NoDup_cons in Hnd as [Hnotin Hnd].
  assert (Hc : c ∈ D).
  { apply HD; [left|]. unfold parent_of in Hp.
    destruct (ctable !! c); [done|discriminate]. }
  specialize (IH Hnd (D ∖ {[c]})).
  assert (Hsize : size D = S (size (D ∖ {[c]}))).
  { assert (Hsub : ({[c]} : gset string) ⊆ D) by (by apply singleton_subseteq_l).
    rewrite (union_difference_L {[c]} D Hsub) at 1.
    rewrite size_union; [by rewrite size_singleton|].
    apply disjoint_difference_r1. done. }
  rewrite Hsize. apply le_n_S, IH.
  intros x Hx Hsome. apply elem_of_difference. split.
  - apply HD; [by right|done].
  - intros Heq%elem_of_singleton. by subst.
Qed.

End Tables.

(** ** The call *)

Section Calls.
Context `{Host}.
Variable execute : list stmt -> Environment -> M unit.

(** [_call_method] from the arity test on, for the definition the walk has
    found: the frame is a scope under the global scope with [self], the
    properties of the instance and the parameters as its locals, and the
    body of the definition runs in it. *)
Definition run_method (method_def : method_def) (class_name : string) (bag : nat)
    (method_name : string) (arg_vals : list value) (line : Z) : M value :=
  match arity_mismatch (m_params method_def) arg_vals with
  | Some err_msg =>
      runtime_error
        (line_prefix line +:+ "Method '" +:+ method_name +:+ "' expects "
         +:+ err_msg +:+ " parameters but got "
         +:+ pretty (length arg_vals) +:+ ".")
  | None =>
      bind (read global_env) (fun genv =>
      bind (new_env (Some genv)) (fun method_env =>
      bind (write (set_local method_env "self" (VInstance class_name bag))) (fun _ =>
      bind (write (fun st =>
              with_scopes
                (fun s => <[env_vars method_env :=
                              bag_at st bag ∪ vars_of st method_env]> s)
                st)) (fun _ =>
      bind (bind_params (m_params method_def) arg_vals method_env genv) (fun _ =>
      run_body (execute (m_body method_def) method_env)
               ("method '" +:+ method_name +:+ "' on class '"
                +:+ class_name +:+ "' at line " +:+ pretty line))))))
  end.

(** The error of [_call_method] when the walk finds no definition. *)
Definition method_not_found (class_name method_name : string) (line : Z) : exn :=
  Error (RuntimeError_
    (line_prefix line +:+ "Method '" +:+ method_name
     +:+ "' not found for class '" +:+ class_name +:+ "'.") []).

(** A call on an instance, once the walk has come to its result. *)
Lemma call_method_found st c bag m arg_vals env line found :
  find_method (S (size (classes st))) (methods st) (classes st) c m = Ok found ->
  _call_method execute (VInstance c bag) m arg_vals env line st
  = match found with
    | Some d => run_method d c bag m arg_vals line st
    | None => (st, Raise (method_not_found c m line))
    end.
Proof.
  intros Hf. unfold _call_method. unfold bind at 1. unfold lift. rewrite Hf.
  by destruct found.
Qed.

Lemma walk_of_lineage st c l m :
  c <> EmptyString -> lineage (classes st) c l -> NoDup l ->
  find_method (S (size (classes st))) (methods st) (classes st) c m
  = Ok (first_match (methods st) l m).
Proof.
  intros Hc Hl Hnd. apply find_method_along; [done..|].
  rewrite <- (size_dom (D:=gset string) (classes st)).
  apply (lineage_length (classes st) c l Hl Hnd). intros x _ Hsome.
  by apply elem_of_dom.
Qed.

Lemma lineage_parent ctable c p l' :
  lineage ctable c (c :: p :: l') ->
  parent_of ctable c = Some p /\ lineage ctable p (p :: l').
Proof.
  intros Hl. inversion Hl as [|c' p' l'' Hp Hl']; subst.
  assert (p' = p) as -> by (by inversion Hl'). done.
Qed.

(** C9: a method call on an instance runs the first definition along the
    inheritance chain of the instance's class, the class itself first. For
    an instance of a class [c] whose chain [l] has no cycle, [_call_method]
    runs the body of the definition that the first class of [l] defining
    the method gives, in a frame that holds the instance as [self], and
    raises the method-not-found error when no class of the chain defines
    it. So a definition of the class itself is the one called, whatever
    the ancestors define; and for a method the class does not define, the
    call runs the definition that a call on an instance of the parent class
    runs, or fails as that call fails. *)
Theorem dispatch_is_first_match st c bag m arg_vals env line l :
  c <> EmptyString ->
  lineage (classes st) c l ->
  NoDup l ->
  _call_method execute (VInstance c bag) m arg_vals env line st
  = match first_match (methods st) l m with
    | Some d => run_method d c bag m arg_vals line st
    | None => (st, Raise (method_not_found c m line))
    end /\
  (forall d,
      defines (methods st) c m = Some d ->
      _call_method execute (VInstance c bag) m arg_vals env line st
      = run_method d c bag m arg_vals line st) /\
  (forall p l' bag',
      l = c :: p :: l' ->
      defines (methods st) c m = None ->
      parent_of (classes st) c = Some p /\
      match first_match (methods st) (p :: l') m with
      | Some d =>
          _call_method execute (VInstance p bag') m arg_vals env line st
          = run_method d p bag' m arg_vals line st /\
          _call_method execute (VInstance c bag) m arg_vals env line st
          = run_method d c bag m arg_vals line st
      | None =>
          _call_method execute (VInstance p bag') m arg_vals env line st
          = (st, Raise (method_not_found p m line)) /\
          _call_method execute (VInstance c bag) m arg_vals env line st
          = (st, Raise (method_not_found c m line))
      end).
Proof.
  intros Hc Hl Hnd.
  pose proof (call_method_found st c bag m arg_vals env line _
                (walk_of_lineage st c l m Hc Hl Hnd)) as Hcall.
  split; [exact Hcall|]. split.
  - intros d Hd. rewrite Hcall. destruct Hl; simpl; by rewrite Hd.
  - intros p l' bag' -> Hd.
    destruct (lineage_parent _ _ _ _ Hl) as [Hp Hlp].
    split; [done|].
    apply NoDup_cons in Hnd as [_ Hndp].
    pose proof (call_method_found st p bag' m arg_vals env line _
                  (walk_of_lineage st p (p :: l') m
                     (parent_not_empty _ _ _ Hp) Hlp Hndp)) as Hcallp.
    rewrite Hcall, Hcallp.
    change (first_match (methods st) (c :: p :: l') m)
      with (match defines (methods st) c m with
            | Some d => Some d
            | None => first_match (methods st) (p :: l') m
            end).
    rewrite Hd. by destruct (first_match (methods st) (p :: l') m).
Qed.

End Calls.

(** Animals speak, dogs bark: [Dog] overrides [speak] and inherits [kind]. *)
Definition animals : list stmt :=
  [ClassDef "Animal" ["name"] None 1;
   ClassDef "Dog" [] (Some "Animal") 2;
   MethodDef "Animal" "speak" [] [GiveBackStmt (StringLiteral "generic" 3) 3] 3;
   MethodDef "Animal" "kind" [] [GiveBackStmt (StringLiteral "animal" 4) 4] 4;
   MethodDef "Dog" "speak" [] [GiveBackStmt (StringLiteral "woof" 5) 5] 5;
   LetStmt "d" (NewInstanceExpr "Dog" [] 6) 6].

Definition zoo : State := (execute 2 animals globals new_interpreter).1.

Lemma dispatch_is_first_match_witness :
  (_call_method (execute 2) (VInstance "Dog" 0) "speak" [] globals 7 zoo).2
  = Ok (VStr "woof") /\
  (_call_method (execute 2) (VInstance "Dog" 0) "kind" [] globals 8 zoo).2
  = Ok (VStr "animal").
Proof.
  assert (Hl : lineage (classes zoo) "Dog" ["Dog"; "Animal"]).
  { apply lineage_up with (p := "Animal"); [reflexivity|].
    apply lineage_top. reflexivity. }
  assert (Hnd : NoDup ["Dog"; "Animal"]).
  { apply NoDup_cons. split; [|apply NoDup_singleton].
    intros Hin%list_elem_of_singleton. discriminate. }
  split.
  - rewrite (proj1 (dispatch_is_first_match (execute 2) zoo "Dog" 0 "speak" []
                      globals 7 ["Dog"; "Animal"] ltac:(discriminate) Hl Hnd)).
    reflexivity.
  - rewrite (proj1 (dispatch_is_first_match (execute 2) zoo "Dog" 0 "kind" []
                      globals 8 ["Dog"; "Animal"] ltac:(discriminate) Hl Hnd)).
    reflexivity.
Defined.

(** Called on a [Dog], [speak] is the one of [Dog] and [kind] the one of
    [Animal]. *)
Example dog_speaks_and_is_an_animal :
  let r := execute 3
             (animals ++
              [LetResultStmt "said" "speak" [] 7 (Some (Identifier "d" 7));
               LetResultStmt "is" "kind" [] 8 (Some (Identifier "d" 8))])
             globals new_interpreter in
  r.2 = Ok tt /\
  Scopes.cell r.1 0 !! "said" = Some (VStr "woof") /\
  Scopes.cell r.1 0 !! "is" = Some (VStr "animal").
Proof. by vm_compute. Qed.

End DispatchFacts.

(* ===================================================================== *)
(** * The while loop and its cap *)
(* ===================================================================== *)

Module LoopFacts.
Import Ast PyNum Runtime Interp Sample.

Lemma while_limit_rounds : Z.of_nat (Z.to_nat WHILE_LIMIT) = WHILE_LIMIT.
Proof. by apply Z2Nat.id. Qed.

Section Loop.
(** The condition and the body of a loop, as the computations they are. *)
Variable condition : M bool.
Variable body : M unit.

(** One full round: the condition holds and the body comes to its end, or
    skips to it. *)
Definition round (st st' : State) : Prop :=
  exists st1, condition st = (st1, Ok true) /\
              (body st1 = (st', Ok tt) \/ body st1 = (st', Raise (Error SkipException))).

(** [n] full rounds in a row. *)
Inductive rounds : nat -> State -> State -> Prop :=
| rounds_none st : rounds 0 st st
| rounds_more n st st1 st2 : round st st1 -> rounds n st1 st2 -> rounds (S n) st st2.

(** How the loop ends after [n] full rounds, in a state [st]: by the
    condition (false, or raising), by the cap when the condition holds and
    the [n] rounds were all the rounds allowed, or by the body when it
    raises something other than the skip signal. *)
Definition ends (n : Z) (st : State) (res : State * result unit) : Prop :=
  match condition st with
  | (st1, Ok true) =>
      if WHILE_LIMIT <? n + 1
      then res = (st1, Raise (Error (RuntimeError_ while_too_long [])))
      else res = body st1 /\ (body st1).2 <> Ok tt
           /\ (body st1).2 <> Raise (Error SkipException)
  | (st1, Ok false) => res = (st1, Ok tt)
  | (st1, Raise e) => res = (st1, Raise e)
  | (st1, OutOfFuel) => res = (st1, OutOfFuel)
  end.

(** Full rounds below the cap only move the loop on. *)
Lemma while_loop_after_rounds n st st' :
  rounds n st st' ->
  forall budget count,
    count + Z.of_nat n <= WHILE_LIMIT ->
    while_loop (n + budget) count condition body st
    = while_loop budget (count + Z.of_nat n) condition body st'.
Proof.
  induction 1 as [st|n st st1 st2 (s & Hc & Hb) _ IH]; intros budget count Hle.
  - simpl. by rewrite Z.add_0_r.
  - cbn [while_loop Nat.add]. unfold bind at 1. rewrite Hc.
    destruct (Z.ltb_spec WHILE_LIMIT (count + 1)); [lia|].
    unfold bind, skip_continues.
    replace (count + Z.of_nat (S n)) with ((count + 1) + Z.of_nat n) by lia.
    destruct Hb as [-> | ->]; apply IH; lia.
Qed.

(** Every run of the loop is some full rounds, no more than the cap allows,
    and then one of the endings. *)
Lemma while_loop_runs budget : forall count st,
  0 <= count <= WHILE_LIMIT ->
  Z.of_nat budget = WHILE_LIMIT + 1 - count ->
  exists n st_n,
    rounds n st st_n /\
    count + Z.of_nat n <= WHILE_LIMIT /\
    ends (count + Z.of_nat n) st_n (while_loop budget count condition body st).
Proof.
  induction budget as [|budget IH]; intros count st Hcount Hbudget; [lia|].
  cbn [while_loop]. unfold bind at 1.
  destruct (condition st) as [st1 rc] eqn:Hc.
  assert (Hstop : forall res,
             match rc with
             | Ok true => False
             | Ok false => res = (st1, Ok tt)
             | Raise e => res = (st1, Raise e)
             | OutOfFuel => res = (st1, OutOfFuel)
             end ->
             exists n st_n, rounds n st st_n /\ count + Z.of_nat n <= WHILE_LIMIT /\
                            ends (count + Z.of_nat n) st_n res).
  { intros res Hres. exists 0%nat, st. split; [constructor|]. split; [lia|].
    unfold ends. rewrite Z.add_0_r, Hc. by destruct rc as [[]| |]. }
  destruct rc as [[]|e|]; try (by apply Hstop).
  destruct (Z.ltb_spec WHILE_LIMIT (count + 1)) as [Hover|Hunder].
  - exists 0%nat, st. split; [constructor|]. split; [lia|].
    unfold ends. rewrite Z.add_0_r, Hc.
    destruct (Z.ltb_spec WHILE_LIMIT (count + 1)); [done|lia].
  - unfold bind, skip_continues.
    destruct (body st1) as [st2 rb] eqn:Hb.
    assert (Hgo : rb = Ok tt \/ rb = Raise (Error SkipException) ->
              exists n st_n, rounds n st st_n /\ count + Z.of_nat n <= WHILE_LIMIT /\
                ends (count + Z.of_nat n) st_n
                     (while_loop budget (count + 1) condition body st2)).
    { intros Hrb.
      destruct (IH (count + 1) st2) as (n & st_n & Hr & Hle & He); [lia..|].
      exists (S n), st_n. split; [|split].
      - apply rounds_more with (st1 := st2); [|done].
        exists st1. split; [done|]. by destruct Hrb as [-> | ->]; [left|right].
      - lia.
      - by replace (count + Z.of_nat (S n)) with (count + 1 + Z.of_nat n) by lia. }
    assert (Hout : rb <> Ok tt -> rb <> Raise (Error SkipException) ->
              forall res, res = (st2, rb) ->
              exists n st_n, rounds n st st_n /\ count + Z.of_nat n <= WHILE_LIMIT /\
                ends (count + Z.of_nat n) st_n res).
    { intros H1 H2 res ->. exists 0%nat, st. split; [constructor|]. split; [lia|].
      unfold ends. rewrite Z.add_0_r, Hc.
      destruct (Z.ltb_spec WHILE_LIMIT (count + 1)); [lia|]. by rewrite Hb. }
    destruct rb as [[]|[[msg stack| | |cls msg]|v]|];
      first [ by apply Hgo; auto | by apply Hout ].
Qed.

(** After all the rounds the cap allows, a condition that still holds makes
    the loop raise. *)
Lemma while_loop_cap st st' st'' :
  rounds (Z.to_nat WHILE_LIMIT) st st' ->
  condition st' = (st'', Ok true) ->
  while_loop while_rounds 0 condition body st
  = (st'', Raise (Error (RuntimeError_ while_too_long []))).
Proof.
  intros Hr Hc. unfold while_rounds.
  replace (S (Z.to_nat WHILE_LIMIT)) with (Z.to_nat WHILE_LIMIT + 1)%nat by lia.
  rewrite (while_loop_after_rounds _ _ _ Hr) by (rewrite while_limit_rounds; lia).
  rewrite while_limit_rounds. cbn [while_loop]. unfold bind at 1. rewrite Hc.
  destruct (Z.ltb_spec WHILE_LIMIT (0 + WHILE_LIMIT + 1)); [done|lia].
Qed.

End Loop.

Section WithHost.
Context `{Host}.

(** The body of a [while], run in a fresh child scope each round. *)
Definition while_body (fuel : nat) (body : list stmt) (env : Environment) : M unit :=
  bind (new_env (Some env)) (fun child => exec_list (execute_stmt fuel) body child).

Lemma execute_stmt_while fuel condition body line env :
  execute_stmt (S fuel) (WhileStmt condition body line) env
  = catch_stop (while_loop while_rounds 0 (evaluate_condition condition env)
                           (while_body fuel body env)).
Proof. done. Qed.

(** C8: a while statement runs its body at most 10,000,000 times: every run
    is a number of full rounds that is at most the cap, followed by one
    ending; and when the condition still holds after the 10,000,000th round,
    the statement raises the runtime error and the body is not run again. *)
Theorem while_is_capped fuel condition body line env st :
  let test := evaluate_condition condition env in
  let block := while_body fuel body env in
  (exists n st_n,
      rounds test block n st st_n /\
      Z.of_nat n <= 10000000 /\
      ends test block (Z.of_nat n) st_n
           (while_loop while_rounds 0 test block st)) /\
  (forall st' st'',
      rounds test block (Z.to_nat 10000000) st st' ->
      test st' = (st'', Ok true) ->
      execute_stmt (S fuel) (WhileStmt condition body line) env st
      = (st'', Raise (Error (RuntimeError_ while_too_long [])))).
Proof.
  intros test block. split.
  - destruct (while_loop_runs test block while_rounds 0 st) as (n & st_n & Hr & Hle & He).
    + unfold WHILE_LIMIT. lia.
    + unfold while_rounds. rewrite Nat2Z.inj_succ, while_limit_rounds. lia.
    + exists n, st_n. split; [done|]. split; [exact Hle|]. exact He.
  - intros st' st'' Hr Hc. rewrite execute_stmt_while. unfold catch_stop.
    fold test block.
    by rewrite (while_loop_cap test block st st' st'').
Qed.

End WithHost.

(** [While 1 equals 1: (nothing)]: the condition holds in every state and the
    empty body only makes its scope. *)
Definition always : cond := Condition (number 1 1) "equals" (Some (number 1 1)) 1.

Lemma always_holds st : evaluate_condition always globals st = (st, Ok true).
Proof. reflexivity. Qed.

Lemma always_rounds n : forall st,
  exists st', rounds (evaluate_condition always globals) (while_body 0 [] globals)
                     n st st'.
Proof.
  induction n as [|n IH]; intros st.
  - exists st. constructor.
  - destruct (IH (Scopes.enter_block st)) as [st' Hr]. exists st'.
    apply rounds_more with (st1 := Scopes.enter_block st); [|done].
    exists st. split; [apply always_holds|]. by left.
Qed.

Lemma while_is_capped_witness :
  exists st',
    rounds (evaluate_condition always globals) (while_body 0 [] globals)
           (Z.to_nat 10000000) new_interpreter st' /\
    evaluate_condition always globals st' = (st', Ok true) /\
    execute_stmt 1 (WhileStmt always [] 1) globals new_interpreter
    = (st', Raise (Error (RuntimeError_ while_too_long []))).
Proof.
  destruct (always_rounds (Z.to_nat 10000000) new_interpreter) as [st' Hr].
  exists st'. split; [exact Hr|]. split; [apply always_holds|].
  exact (proj2 (while_is_capped 0 always [] 1 globals new_interpreter)
               st' st' Hr (always_holds st')).
Defined.

(** A loop that counts to three ends by its condition. *)
Example counting_to_three :
  let r := execute 3
             [LetStmt "i" (number 0 1) 1;
              WhileStmt (Condition (Identifier "i" 2) "less_than" (Some (number 3 2)) 2)
                        [LetStmt "i" (BinOp (Identifier "i" 3) "plus" (number 1 3) 3) 3]
                        2]
             globals new_interpreter in
  r.2 = Ok tt /\ Scopes.cell r.1 0 !! "i" = Some (VInt 3).
Proof. by vm_compute. Qed.

End LoopFacts.

(* ===================================================================== *)
(** * Chains of conditions *)
(* ===================================================================== *)

Module ConditionFacts.
Import Chars Lexer Ast PyNum Runtime Interp Parser Sample.
Local Open Scope string_scope.

(** Python's [x and y] and [x or y] on conditions: the right operand is
    evaluated only when the left one does not decide. *)
Definition py_and (x y : M bool) : M bool :=
  bind x (fun a : bool => if a then y else ret false).

Definition py_or (x y : M bool) : M bool :=
  bind x (fun a : bool => if a then ret true else y).

Section Chain.
Variable tokens : list Token.
Variable parse_single_condition : nat -> presult cond.

(** The cursor after [advance]. *)
Definition after (pos : nat) : nat :=
  if (pos <? length tokens - 1)%nat then S pos else pos.

(** The token under the cursor is the word [w], in any case of letters. *)
Definition word_at (w : string) (pos : nat) : Prop :=
  exists tok, tokens !! pos = Some tok /\ Lexer.type tok = WORD
              /\ lower_string (Lexer.value tok) = w.

Lemma word_is_connective w pos :
  w = "and" \/ w = "or" -> word_at w pos ->
  word_is tokens ["and"; "or"] pos = Some true.
Proof.
  intros Hw (tok & Htok & Hty & Hlow). unfold word_is, current. rewrite Htok.
  rewrite Hty, Hlow. by destruct Hw as [-> | ->].
Qed.

Lemma advance_at w pos :
  word_at w pos ->
  exists tok, advance tokens pos = Some (tok, after pos)
              /\ lower_string (Lexer.value tok) = w.
Proof.
  intros (tok & Htok & _ & Hlow). exists tok. unfold advance. by rewrite Htok.
Qed.

(** The chain [A and B or C]: three single conditions with the two words
    between them, and no connective after the third. *)
Lemma parse_and_or_chain p0 p1 p2 p3 t0 A B C :
  tokens !! p0 = Some t0 ->
  parse_single_condition p0 = Parsed A p1 ->
  word_at "and" p1 ->
  parse_single_condition (after p1) = Parsed B p2 ->
  word_at "or" p2 ->
  parse_single_condition (after p2) = Parsed C p3 ->
  word_is tokens ["and"; "or"] p3 = Some false ->
  parse_compound_condition tokens parse_single_condition p0
  = Parsed (CompoundCondition (CompoundCondition A "and" B (Lexer.line t0))
                              "or" C (Lexer.line t0))
           p3.
Proof.
  intros H0 HA Hand HB Hor HC Hend.
  unfold parse_compound_condition, current. rewrite H0, HA.
  assert (Hlen : (2 <= length tokens)%nat).
  { destruct Hand as (ta & Hta & _ & Hla). destruct Hor as (tb & Htb & _ & Hlb).
    assert (p1 <> p2) by (intros ->; rewrite Hta in Htb; injection Htb as ->;
                          rewrite Hla in Hlb; discriminate).
    apply lookup_lt_Some in Hta, Htb. lia. }
  destruct (length tokens) as [|[|n]] eqn:Hn; [lia..|].
  cbn [compound_loop].
  rewrite (word_is_connective "and" p1) by auto.
  destruct (advance_at "and" p1 Hand) as (ta & -> & ->). rewrite HB.
  rewrite (word_is_connective "or" p2) by auto.
  destruct (advance_at "or" p2 Hor) as (tb & -> & ->). rewrite HC.
  destruct n; cbn [compound_loop]; by rewrite Hend.
Qed.

End Chain.

(** The tree of the chain evaluates as [(A and B) or C]. *)
Lemma evaluate_and_or_chain `{Host} A B C line env :
  evaluate_condition
    (CompoundCondition (CompoundCondition A "and" B line) "or" C line) env
  = py_or (py_and (evaluate_condition A env) (evaluate_condition B env))
          (evaluate_condition C env).
Proof. reflexivity. Qed.

(** With three conditions that return without touching the state, the value
    is the one of the boolean formula. *)
Lemma evaluate_and_or_chain_value `{Host} A B C line env st a b c :
  evaluate_condition A env st = (st, Ok a) ->
  evaluate_condition B env st = (st, Ok b) ->
  evaluate_condition C env st = (st, Ok c) ->
  evaluate_condition
    (CompoundCondition (CompoundCondition A "and" B line) "or" C line) env st
  = (st, Ok ((a && b) || c)).
Proof.
  intros HA HB HC. rewrite evaluate_and_or_chain.
  unfold py_or, py_and, bind. rewrite HA.
  destruct a; simpl.
  - rewrite HB. destruct b; simpl; [done|]. by rewrite HC.
  - by rewrite HC.
Qed.

(** C7: the chain [A and B or C] parses to the tree that groups the first
    two conditions, whatever the three single conditions are, and the tree
    evaluates as [(A and B) or C]: [B] is evaluated only when [A] holds, [C]
    only when [A and B] does not. *)
Theorem and_or_chain_is_left_associative `{Host} tokens parse_single_condition
    p0 p1 p2 p3 t0 A B C :
  tokens !! p0 = Some t0 ->
  parse_single_condition p0 = Parsed A p1 ->
  word_at tokens "and" p1 ->
  parse_single_condition (after tokens p1) = Parsed B p2 ->
  word_at tokens "or" p2 ->
  parse_single_condition (after tokens p2) = Parsed C p3 ->
  word_is tokens ["and"; "or"] p3 = Some false ->
  let tree := CompoundCondition (CompoundCondition A "and" B (Lexer.line t0)) "or" C
                                (Lexer.line t0) in
  parse_condition tokens parse_single_condition p0 = Parsed tree p3 /\
  (forall env,
      evaluate_condition tree env
      = py_or (py_and (evaluate_condition A env) (evaluate_condition B env))
              (evaluate_condition C env)) /\
  (forall env st a b c,
      evaluate_condition A env st = (st, Ok a) ->
      evaluate_condition B env st = (st, Ok b) ->
      evaluate_condition C env st = (st, Ok c) ->
      evaluate_condition tree env st = (st, Ok ((a && b) || c))).
Proof.
  intros H0 HA Hand HB Hor HC Hend tree. split; [|split].
  - unfold parse_condition. by eapply parse_and_or_chain.
  - intros env. apply evaluate_and_or_chain.
  - intros env st a b c. apply evaluate_and_or_chain_value.
Qed.

(** ** A chain from source text *)

(** A parser of the single conditions [name > name], to run the theorem. *)
Definition name_gt_name (tokens : list Token) (pos : nat) : presult cond :=
  match tokens !! pos, tokens !! (pos + 1)%nat, tokens !! (pos + 2)%nat with
  | Some a, Some g, Some b =>
      if bool_decide (Lexer.type a = WORD) && bool_decide (Lexer.type g = GT)
         && bool_decide (Lexer.type b = WORD)
      then Parsed (Condition (Identifier (Lexer.value a) (Lexer.line a))
                             "greater_than"
                             (Some (Identifier (Lexer.value b) (Lexer.line b)))
                             (Lexer.line a))
                  (pos + 3)
      else ParseError (Lexer.line a) (Lexer.value g)
  | _, _, _ => IndexError
  end.

Definition chain_tokens : list Token :=
  match tokenize "a > b And c > d or e > f." with
  | Tokens l => l
  | _ => []
  end.

Definition name_gt (a b : string) : cond :=
  Condition (Identifier a 1) "greater_than" (Some (Identifier b 1)) 1.

Lemma and_or_chain_is_left_associative_witness :
  parse_condition chain_tokens (name_gt_name chain_tokens) 0
  = Parsed (CompoundCondition
              (CompoundCondition (name_gt "a" "b") "and" (name_gt "c" "d") 1)
              "or" (name_gt "e" "f") 1) 11.
Proof.
  refine (proj1 (and_or_chain_is_left_associative
                   chain_tokens (name_gt_name chain_tokens) 0 3 7 11
                   (mkToken WORD "a" 1) (name_gt "a" "b") (name_gt "c" "d")
                   (name_gt "e" "f") eq_refl eq_refl _ eq_refl _ eq_refl eq_refl)).
  - exists (mkToken WORD "And" 1). by vm_compute.
  - exists (mkToken WORD "or" 1). by vm_compute.
Defined.

(** The grouping matters: with [A] false and [C] true the chain holds, and it
    would not if [B or C] were grouped first. *)
Example grouping_matters :
  let no := Condition (number 1 1) "greater_than" (Some (number 2 1)) 1 in
  let yes := Condition (number 2 1) "greater_than" (Some (number 1 1)) 1 in
  (evaluate_condition (CompoundCondition (CompoundCondition no "and" yes 1) "or" yes 1)
                      globals new_interpreter).2 = Ok true /\
  (evaluate_condition (CompoundCondition no "and" (CompoundCondition yes "or" yes 1) 1)
                      globals new_interpreter).2 = Ok false.
Proof. by vm_compute. Qed.

End ConditionFacts.

(* ===================================================================== *)
(** * Scope chains: assignment and lookup together *)
(* ===================================================================== *)

Module ChainFacts.
Import Ast Runtime Interp Scopes Sample.
Local Open Scope string_scope.

(** What [self.vars[name] = value] does to the other names, in any scope. *)
Lemma cell_store_var_lookup_ne st env name v c other :
  other <> name ->
  cell (store_var env name v st) c !! other = cell st c !! other.
Proof.
  intros Hne. unfold cell, store_var, with_scopes, vars_of; simpl.
  destruct (decide (c = env_vars env)) as [->|Hc].
  - destruct (scopes st !! env_vars env) as [m|] eqn:Hm.
    + rewrite list_lookup_insert_eq by (by eapply lookup_lt_Some).
      simpl. by rewrite lookup_insert_ne.
    + rewrite list_insert_ge by (by apply lookup_ge_None). by rewrite Hm.
  - by rewrite list_lookup_insert_ne.
Qed.

(** A lookup reads the scopes of the chain at the one name only. *)
Lemma get_same_lookups st st' env name line :
  (forall c, cell st' c !! name = cell st c !! name) ->
  get env name line st' = get env name line st.
Proof.
  intros Hc.
  induction env as [vars|vars parent IH] using Environment_chain_ind; simpl;
    rewrite !vars_of_cell, Hc; [done|].
  destruct (cell st (env_vars (Env vars (Some parent))) !! name); [done|apply IH].
Qed.

(** [Environment.assign] writes to scopes of the chain only. *)
Lemma cell_assign_outside st env name v c :
  c ∉ chain env -> cell (assign env name v st) c = cell st c.
Proof.
  induction env as [vars|vars parent IH] using Environment_chain_ind; simpl;
    intros Hc.
  - assert (c <> vars) by (intros ->; apply Hc; left).
    destruct (vars_of st (Env vars None) !! name); by apply cell_store_var_other.
  - assert (c <> vars) by (intros ->; apply Hc; left).
    destruct (vars_of st (Env vars (Some parent)) !! name).
    + by apply cell_store_var_other.
    + apply IH. intros Hin. apply Hc. by right.
Qed.

Lemma cell_assign_lookup_ne st env name v c other :
  other <> name ->
  cell (assign env name v st) c !! other = cell st c !! other.
Proof.
  intros Hne.
  induction env as [vars|vars parent IH] using Environment_chain_ind; simpl.
  - destruct (vars_of st (Env vars None) !! name);
      by apply cell_store_var_lookup_ne.
  - destruct (vars_of st (Env vars (Some parent)) !! name);
      [by apply cell_store_var_lookup_ne|apply IH].
Qed.

Lemma get_after_store_own st env name v line :
  (env_vars env < length (scopes st))%nat ->
  get env name line (store_var env name v st) = Ok v.
Proof.
  intros Hlt. destruct env as [vars parent]; simpl.
  rewrite vars_of_cell, (cell_store_var_same st (Env vars parent)) by done.
  simpl. rewrite lookup_insert_eq. by destruct parent.
Qed.

Lemma get_after_assign st env name v line :
  valid st env -> get env name line (assign env name v st) = Ok v.
Proof.
  unfold valid.
  induction env as [vars|vars parent IH] using Environment_chain_ind;
    simpl; intros [Hnd Hlt].
  - apply Forall_cons in Hlt as [Hlt _].
    destruct (vars_of st (Env vars None) !! name);
      by apply (get_after_store_own st (Env vars None)).
  - apply Forall_cons in Hlt as [Hlt Hrest].
    apply NoDup_cons in Hnd as [Hnotin Hnd].
    destruct (vars_of st (Env vars (Some parent)) !! name) eqn:Hown.
    + by apply (get_after_store_own st (Env vars (Some parent))).
    + rewrite vars_of_cell; simpl.
      rewrite cell_assign_outside by done.
      rewrite vars_of_cell in Hown; simpl in Hown. rewrite Hown. by apply IH.
Qed.

(** X1: an assignment through the scope chain and a lookup from the same
    scope agree: after [assign] the name reads as the value assigned,
    wherever in the chain the name was written, and every other name reads
    as it did before. *)
Theorem assign_then_get st env name v line :
  valid st env ->
  get env name line (assign env name v st) = Ok v /\
  (forall other line',
      other <> name ->
      get env other line' (assign env name v st) = get env other line' st).
Proof.
  intros Hv. split; [by apply get_after_assign|].
  intros other line' Hne. apply get_same_lookups.
  intros c. by apply cell_assign_lookup_ne.
Qed.

(** A block scope under the global scope, the global scope holding [x]. *)
Definition block_over_x : State :=
  enter_block (store_var globals "x" (VInt 1) new_interpreter).

Lemma block_over_x_valid : valid block_over_x (Env 1 (Some globals)).
Proof.
  split.
  - apply NoDup_cons. split; [|apply NoDup_singleton].
    intros Hin%list_elem_of_singleton. discriminate.
  - repeat constructor.
Qed.

Lemma assign_then_get_witness :
  valid block_over_x (Env 1 (Some globals)) /\
  get (Env 1 (Some globals)) "x" 2
      (assign (Env 1 (Some globals)) "x" (VInt 5) block_over_x)
  = Ok (VInt 5).
Proof.
  split; [exact block_over_x_valid|].
  exact (proj1 (assign_then_get block_over_x (Env 1 (Some globals)) "x" (VInt 5) 2
                  block_over_x_valid)).
Defined.

(** X2: a name bound with [set_local] in a scope (a parameter in a call
    frame, the error variable of a handler) hides the variable of that name
    in the enclosing scopes and leaves it as it was: the scope itself reads
    the new value, the parent reads what it read before. *)
Theorem set_local_shadows st own parent name v line :
  valid st (Env own (Some parent)) ->
  let st' := set_local (Env own (Some parent)) name v st in
  get (Env own (Some parent)) name line st' = Ok v /\
  get parent name line st' = get parent name line st /\
  (forall c, c ∈ chain parent -> cell st' c = cell st c).
Proof.
  intros [Hnd Hlt] st'. simpl in Hnd, Hlt.
  apply NoDup_cons in Hnd as [Hnotin _]. apply Forall_cons in Hlt as [Hlt _].
  assert (Hcells : forall c, c ∈ chain parent -> cell st' c = cell st c).
  { intros c Hin. unfold st', set_local.
    apply (cell_store_var_other st (Env own (Some parent))). simpl.
    intros ->. by apply Hnotin. }
  split; [|split; [|done]].
  - unfold st', set_local.
    by apply (get_after_store_own st (Env own (Some parent))).
  - clear Hnotin.
    induction parent as [vars|vars p IH] using Environment_chain_ind; simpl;
      rewrite !vars_of_cell; simpl.
    + rewrite Hcells by left. done.
    + rewrite Hcells by left.
      destruct (cell st vars !! name); [done|].
      apply IH. intros c Hin. apply Hcells. by right.
Qed.

Lemma set_local_shadows_witness :
  valid block_over_x (Env 1 (Some globals)) /\
  get (Env 1 (Some globals)) "x" 2
      (set_local (Env 1 (Some globals)) "x" (VInt 5) block_over_x) = Ok (VInt 5) /\
  get globals "x" 2
      (set_local (Env 1 (Some globals)) "x" (VInt 5) block_over_x) = Ok (VInt 1).
Proof.
  split; [exact block_over_x_valid|].
  pose proof (set_local_shadows block_over_x 1 globals "x" (VInt 5) 2
                block_over_x_valid) as (H1 & H2 & _).
  split; [exact H1|]. rewrite H2. reflexivity.
Defined.

End ChainFacts.

(* ===================================================================== *)
(** * Operators: zero divisors, booleans, what comes out *)
(* ===================================================================== *)

Module OperatorFacts.
Import Ast PyNum Runtime Interp Sample.
Local Open Scope string_scope.

(** A computation that leaves the state alone and either returns or raises
    an exception of Python itself. *)
Definition plain {A} (m : M A) : Prop :=
  forall st, (m st).1 = st /\
             match (m st).2 with
             | Ok _ | Raise (Error (PyError _ _)) => True
             | _ => False
             end.

Lemma plain_ret {A} (a : A) : plain (ret a).
Proof. done. Qed.

Lemma plain_py_error {A} cls msg : plain (@py_error A cls msg).
Proof. done. Qed.

Lemma plain_bind {A B} (m : M A) (k : A -> M B) :
  plain m -> (forall a, plain (k a)) -> plain (bind m k).
Proof.
  intros Hm Hk st. unfold bind. destruct (Hm st) as [Hst Hr].
  destruct (m st) as [st' [a|[[]|]|]]; simpl in *; subst; try done.
  apply Hk.
Qed.

Lemma plain_conv {A} a b (r : conv_error + A) : plain (conv a b r).
Proof. by destruct r as [[]|]. Qed.

Lemma plain_num_to_float n : plain (num_to_float n).
Proof. destruct n; [apply plain_conv|done]. Qed.

Ltac plain_step :=
  first [ apply plain_num_to_float | apply plain_conv | apply plain_ret
        | apply plain_py_error | apply plain_bind; [|intros] ].

Lemma plain_arith i f a b : plain (arith i f a b).
Proof. destruct a, b; unfold arith; repeat plain_step. Qed.

Lemma plain_truediv a b : plain (truediv a b).
Proof. destruct a, b; unfold truediv; repeat plain_step. Qed.

Lemma plain_modulo a b : plain (modulo a b).
Proof. destruct a, b; unfold modulo; repeat plain_step. Qed.

Section WithHost.
Context `{Host}.

Lemma plain_clean v : plain (_clean v).
Proof.
  destruct v; try done. simpl.
  apply plain_bind; [apply plain_conv|]. intros n. by destruct float_eq_int.
Qed.

Lemma plain_on_numbers f a b :
  (forall x y, plain (f x y)) -> plain (on_numbers f a b).
Proof.
  intros Hf. unfold on_numbers. destruct (as_num a), (as_num b); try done.
  apply plain_bind; [apply Hf|done].
Qed.

Lemma assert_num_number v op line st :
  is_number v = true -> _assert_num v op line st = (st, Ok tt).
Proof. unfold _assert_num. by intros ->. Qed.

(** The error of a zero divisor. *)
Definition zero_divisor (op : string) (line : Z) : exn :=
  Error (RuntimeError_
    (line_prefix line +:+
     (if String.eqb op "divided_by" then "I cannot divide by zero."
      else "I cannot take the remainder of dividing by zero.")) []).

(** X3: for two numbers, [divided_by] and [modulo] raise the zero-divisor
    runtime error exactly when the right operand equals zero (the integer 0,
    the float 0.0 or the float -0.0); the state is left as it was. *)
Theorem zero_divisor_is_an_error op a b line st :
  op = "divided_by" \/ op = "modulo" ->
  is_number a = true ->
  is_number b = true ->
  ((_apply_op op a b line st).2 = Raise (zero_divisor op line)
   <-> right_is_zero b = true) /\
  (_apply_op op a b line st).1 = st.
Proof.
  intros Hop Ha Hb.
  assert (Hrest : forall f, (forall x y, plain (f x y)) ->
            (bind (on_numbers f a b) _clean st).1 = st /\
            (bind (on_numbers f a b) _clean st).2 <> Raise (zero_divisor op line)).
  { intros f Hf.
    destruct (plain_bind (on_numbers f a b) _clean
                (plain_on_numbers f a b Hf) plain_clean st) as [Hst Hr].
    split; [done|]. intros Heq. rewrite Heq in Hr. done. }
  assert (Hdiv : _apply_op "divided_by" a b line st
                 = if right_is_zero b
                   then runtime_error (line_prefix line +:+ "I cannot divide by zero.") st
                   else bind (on_numbers truediv a b) _clean st).
  { unfold _apply_op; simpl.
    unfold bind at 1; rewrite (assert_num_number a _ _ _ Ha).
    unfold bind at 1; rewrite (assert_num_number b _ _ _ Hb).
    by destruct (right_is_zero b). }
  assert (Hmod : _apply_op "modulo" a b line st
                 = if right_is_zero b
                   then runtime_error
                          (line_prefix line
                           +:+ "I cannot take the remainder of dividing by zero.") st
                   else bind (on_numbers modulo a b) _clean st).
  { unfold _apply_op; simpl.
    unfold bind at 1; rewrite (assert_num_number a _ _ _ Ha).
    unfold bind at 1; rewrite (assert_num_number b _ _ _ Hb).
    by destruct (right_is_zero b). }
  destruct Hop as [-> | ->]; [rewrite Hdiv|rewrite Hmod];
    destruct (right_is_zero b) eqn:Hz; try done.
  - destruct (Hrest truediv plain_truediv) as [Hst Hne]. split; [|done].
    split; [done|discriminate].
  - destruct (Hrest modulo plain_modulo) as [Hst Hne]. split; [|done].
    split; [done|discriminate].
Qed.

(** The text of the error [_assert_num] raises. *)
Definition not_a_number (text op : string) (line : Z) : exn :=
  Error (RuntimeError_
    (line_prefix line +:+ "'" +:+ text
     +:+ "' is not a number, so I cannot use '" +:+ op +:+ "'.") []).

(** X4: a boolean is no number for [minus], [times], [divided_by] and
    [modulo]: as the left operand it raises the not-a-number runtime error
    with its Python text, [True] or [False]. [plus] makes no such test and
    adds a boolean to an integer as 1 or 0. *)
Theorem boolean_operands op b v n line st :
  ValueFacts.cleaned_op op = true ->
  _apply_op op (VBool b) v line st
  = (st, Raise (not_a_number (if b then "True" else "False") op line)) /\
  _apply_op "plus" (VBool b) (VInt n) line st
  = (st, Ok (VInt ((if b then 1 else 0) + n))).
Proof.
  intros Hop. split; [|by destruct b].
  unfold ValueFacts.cleaned_op in Hop. unfold _apply_op.
  destruct (String.eqb op "plus") eqn:Hplus.
  { apply String.eqb_eq in Hplus. by subst op. }
  repeat match goal with
         | |- context [if String.eqb op ?s then _ else _] =>
             destruct (String.eqb op s); [by destruct b|]
         end.
  done.
Qed.

(** A float with a fractional part: finite, and no whole number. *)
Definition fractional (v : value) : Prop :=
  exists s m e, v = VFloat (S754_finite s m e) /\ ValueFacts.whole_float v = false.

Lemma clean_result v st st' r :
  is_number v = true ->
  _clean v st = (st', Ok r) ->
  (exists n, r = VInt n) \/ fractional r.
Proof.
  destruct v as [| | n |f| | | | | |]; try done; intros _.
  - intros [= <- <-]. left. by exists n.
  - unfold _clean, bind, py_int_of_float, conv.
    destruct (int_of_float f) as [[]|k] eqn:Hk; try done.
    change (ret k st) with (st, Ok k). unfold ret.
    destruct (float_eq_int f k) eqn:Heq; intros [= <- <-].
    + left. by exists k.
    + right. destruct f as [s|s| |s m e]; try done.
      * injection Hk as <-. done.
      * exists s, m, e. split; [done|]. unfold ValueFacts.whole_float.
        by rewrite Hk, Heq.
Qed.

Lemma on_numbers_result f a b st st' r :
  on_numbers f a b st = (st', Ok r) -> is_number r = true.
Proof.
  unfold on_numbers. destruct (as_num a), (as_num b); try done.
  intros (x & st1 & _ & Hr)%ValueFacts.bind_ok. injection Hr as <- <-.
  by destruct x.
Qed.

(** X5: what [minus], [times], [divided_by] and [modulo] return is an
    integer or a float with a fractional part: never an infinity, never a
    NaN, never a float that is a whole number (for those the operator
    raises, or returns the integer); and the state is left as it was. *)
Theorem cleaned_results_are_finite op a b line st st' r :
  ValueFacts.cleaned_op op = true ->
  _apply_op op a b line st = (st', Ok r) ->
  st' = st /\ ((exists n, r = VInt n) \/ fractional r).
Proof.
  unfold ValueFacts.cleaned_op, _apply_op. intros Hop.
  destruct (String.eqb op "plus") eqn:Hplus.
  { apply String.eqb_eq in Hplus. by subst op. }
  clear Hop.
  assert (Hassert : forall v o st1 st2 (u : unit),
            _assert_num v o line st1 = (st2, Ok u) -> st2 = st1).
  { intros v o st1 st2 u. unfold _assert_num.
    destruct (is_number v); [by intros [= <-]|done]. }
  assert (Hrest : forall f st1 st2,
            (forall x y, plain (f x y)) ->
            bind (on_numbers f a b) _clean st1 = (st2, Ok r) ->
            st2 = st1 /\ ((exists n, r = VInt n) \/ fractional r)).
  { intros f st1 st2 Hf Hr.
    destruct (plain_bind (on_numbers f a b) _clean
                (plain_on_numbers f a b Hf) plain_clean st1) as [Hst _].
    rewrite Hr in Hst. simpl in Hst. split; [done|].
    apply ValueFacts.bind_ok in Hr as (x & st3 & Hx & Hc).
    eapply clean_result; [|exact Hc]. by eapply on_numbers_result. }
  repeat match goal with
         | |- context [if String.eqb op ?s then _ else _] => destruct (String.eqb op s)
         end; try done.
  all: intros Hr;
    apply ValueFacts.bind_ok in Hr as (? & st1 & Ha%Hassert & Hr);
    apply ValueFacts.bind_ok in Hr as (? & st2 & Hb%Hassert & Hr); subst st1 st2.
  - by apply (Hrest (arith Z.sub fsub)); [apply plain_arith|].
  - by apply (Hrest (arith Z.mul fmul)); [apply plain_arith|].
  - destruct (right_is_zero b); [done|].
    by apply (Hrest truediv); [apply plain_truediv|].
  - destruct (right_is_zero b); [done|].
    by apply (Hrest modulo); [apply plain_modulo|].
Qed.

(** ** Loose equality *)

Lemma SFcompare_Eq_sym x y : SFcompare x y = Some Eq -> SFcompare y x = Some Eq.
Proof.
  destruct x as [sx|sx| |sx mx ex], y as [sy|sy| |sy my ey]; simpl; try done;
    try (by repeat match goal with b : bool |- _ => destruct b end).
  destruct sx, sy; try done;
    rewrite (Z.compare_antisym ex ey);
    destruct (ex ?= ey)%Z; simpl; try done;
    rewrite (ZC4 my mx);
    by destruct (Pos.compare_cont Eq mx my).
Qed.

Lemma feqb_sym x y : feqb x y = feqb y x.
Proof.
  unfold feqb, SFeqb.
  destruct (SFcompare x y) as [[]|] eqn:Hxy.
  - by rewrite (SFcompare_Eq_sym x y Hxy).
  - destruct (SFcompare y x) as [[]|] eqn:Hyx; try done.
    by rewrite (SFcompare_Eq_sym y x Hyx) in Hxy.
  - destruct (SFcompare y x) as [[]|] eqn:Hyx; try done.
    by rewrite (SFcompare_Eq_sym y x Hyx) in Hxy.
  - destruct (SFcompare y x) as [[]|] eqn:Hyx; try done.
    by rewrite (SFcompare_Eq_sym y x Hyx) in Hxy.
Qed.

Lemma string_eqb_sym (s t : string) : String.eqb s t = String.eqb t s.
Proof.
  destruct (String.eqb_spec s t) as [->|Hne].
  - by rewrite String.eqb_refl.
  - symmetry. apply String.eqb_neq. congruence.
Qed.

(** X6: [_loose_eq], the equality behind [equals] and [is not], is
    symmetric: the two operands can be swapped, whatever their types, as
    long as the host's equality of lists and dicts is. *)
Theorem loose_eq_is_symmetric st a b :
  (forall x y, eq_of_object st x y = eq_of_object st y x) ->
  _loose_eq st a b = _loose_eq st b a.
Proof.
  intros Hobj. unfold _loose_eq, same_type.
  rewrite (string_eqb_sym (type_name b) (type_name a)).
  destruct (String.eqb (type_name a) (type_name b)) eqn:Ht.
  - destruct a as [|x|x|x|x| | | | |], b as [|y|y|y|y| | | | |];
      simpl in *; try done;
      first [ by destruct x, y | apply Z.eqb_sym | apply feqb_sym
            | apply string_eqb_sym | apply Hobj | apply Nat.eqb_sym ].
  - destruct (try_float a), (try_float b); try apply string_eqb_sym.
    apply feqb_sym.
Qed.

End WithHost.

Lemma zero_divisor_is_an_error_witness :
  (_apply_op "divided_by" (VInt 7) (VFloat (S754_zero true)) 4 new_interpreter).2
  = Raise (zero_divisor "divided_by" 4).
Proof.
  exact (proj2 (proj1 (zero_divisor_is_an_error "divided_by" (VInt 7)
                         (VFloat (S754_zero true)) 4 new_interpreter
                         (or_introl eq_refl) eq_refl eq_refl))
               eq_refl).
Defined.

Lemma boolean_operands_witness :
  _apply_op "minus" (VBool true) (VInt 1) 2 new_interpreter
  = (new_interpreter, Raise (not_a_number "True" "minus" 2)) /\
  _apply_op "plus" (VBool true) (VInt 1) 2 new_interpreter
  = (new_interpreter, Ok (VInt 2)).
Proof.
  exact (boolean_operands "minus" true (VInt 1) 1 2 new_interpreter eq_refl).
Defined.

Lemma cleaned_results_are_finite_witness :
  ValueFacts.cleaned_op "divided_by" = true /\
  _apply_op "divided_by" (VInt 6) (VInt 4) 1 new_interpreter
  = (new_interpreter, Ok (VFloat ValueFacts.one_and_a_half)) /\
  ((exists n, VFloat ValueFacts.one_and_a_half = VInt n)
   \/ fractional (VFloat ValueFacts.one_and_a_half)).
Proof.
  split; [reflexivity|]. split; [reflexivity|].
  exact (proj2 (cleaned_results_are_finite "divided_by" (VInt 6) (VInt 4) 1
                  new_interpreter new_interpreter
                  (VFloat ValueFacts.one_and_a_half) eq_refl eq_refl)).
Defined.

Lemma loose_eq_is_symmetric_witness :
  _loose_eq new_interpreter (VInt 1) (VBool true)
  = _loose_eq new_interpreter (VBool true) (VInt 1).
Proof.
  exact (loose_eq_is_symmetric new_interpreter (VInt 1) (VBool true)
           (fun _ _ => eq_refl)).
Defined.

End OperatorFacts.


(* ===================================================================== *)
(** * Control flow: skip, stop, and what the handlers catch *)
(* ===================================================================== *)

Module ControlFacts.
Import Ast PyNum Runtime Interp Scopes Sample.
Import LoopFacts.
Local Open Scope string_scope.

Section WithHost.
Context `{Host}.

Lemma exec_list_app run (a b : list stmt) env st :
  exec_list run (a ++ b)%list env st
  = bind (exec_list run a env) (fun _ => exec_list run b env) st.
Proof.
  revert st. induction a as [|s a IH]; intros st; [done|].
  change (exec_list run ((s :: a) ++ b)%list env st)
    with (bind (run s env) (fun _ => exec_list run (a ++ b)%list env) st).
  change (exec_list run (s :: a) env)
    with (bind (run s env) (fun _ => exec_list run a env)).
  unfold bind. destruct (run s env st) as [st1 [[]| |]]; [|done..].
  apply IH.
Qed.

Lemma execute_stmt_skip fuel l env :
  execute_stmt (S fuel) (SkipStmt l) env = raise (Error SkipException).
Proof. done. Qed.

Lemma execute_stmt_stop fuel l env :
  execute_stmt (S fuel) (StopStmt l) env = raise (Error StopException).
Proof. done. Qed.

Lemma execute_stmt_repeat fuel count body line env :
  execute_stmt (S fuel) (RepeatStmt count body line) env
  = bind (evaluate count env)
      (fun n =>
         if is_int_or_float n then
           catch_stop
             (bind (py_int n)
                (fun k => for_range (Z.to_nat k) (while_body fuel body env)))
         else
           fun st =>
             runtime_error
               (line_prefix line +:+ "Repeat needs a number, got '"
                +:+ py_str st n +:+ "'.") st).
Proof. done. Qed.

(** A loop depends on its body only through what the body does round by
    round, once the skip signal was taken care of. *)
Lemma for_range_ext n (b1 b2 : M unit) :
  (forall st, skip_continues b1 st = skip_continues b2 st) ->
  forall st, for_range n b1 st = for_range n b2 st.
Proof.
  intros Hb. induction n as [|n IH]; intros st; simpl; [done|].
  unfold bind. rewrite Hb. destruct (skip_continues b2 st) as [st1 [[]| |]]; [|done..].
  apply IH.
Qed.

Lemma while_loop_ext rounds (c : M bool) (b1 b2 : M unit) :
  (forall st, skip_continues b1 st = skip_continues b2 st) ->
  forall count st, while_loop rounds count c b1 st = while_loop rounds count c b2 st.
Proof.
  intros Hb. induction rounds as [|n IH]; intros count st; simpl; [done|].
  unfold bind at 1 3. destruct (c st) as [st1 [[]| |]]; [|done..].
  destruct (WHILE_LIMIT <? count + 1)%Z; [done|].
  unfold bind. rewrite Hb. destruct (skip_continues b2 st1) as [st2 [[]| |]]; [|done..].
  apply IH.
Qed.

(** In the body of a loop, what comes after a [Skip] is never run. *)
Lemma skip_cuts_body fuel pre l post env st :
  skip_continues (while_body (S fuel) (pre ++ SkipStmt l :: post)%list env) st
  = skip_continues (while_body (S fuel) pre env) st.
Proof.
  unfold skip_continues, while_body. unfold bind at 1 2.
  rewrite new_env_block. rewrite exec_list_app. unfold bind at 1.
  destruct (exec_list (execute_stmt (S fuel)) pre (block_scope st env) (enter_block st))
    as [st2 [[]|e|]]; [|done..].
  cbn [exec_list]. rewrite execute_stmt_skip. done.
Qed.

(** X7: in the body of a [Repeat] or a [While], a [Skip] ends the round and
    only the round: the statements after it are never run, and the loop
    goes on as if the body had ended there. *)
Theorem skip_ends_the_round fuel count condition pre l post line env st :
  execute_stmt (S (S fuel)) (RepeatStmt count (pre ++ SkipStmt l :: post)%list line)
               env st
  = execute_stmt (S (S fuel)) (RepeatStmt count pre line) env st /\
  execute_stmt (S (S fuel)) (WhileStmt condition (pre ++ SkipStmt l :: post)%list line)
               env st
  = execute_stmt (S (S fuel)) (WhileStmt condition pre line) env st.
Proof.
  split.
  - rewrite !execute_stmt_repeat. unfold bind at 1 3.
    destruct (evaluate count env st) as [st1 [n| |]]; [|done..].
    destruct (is_int_or_float n); [|done].
    unfold catch_stop, bind.
    destruct (py_int n st1) as [st2 [k| |]]; [|done..].
    by rewrite (for_range_ext _ _ _ (skip_cuts_body fuel pre l post env)).
  - rewrite !execute_stmt_while. unfold catch_stop.
    by rewrite (while_loop_ext _ _ _ _ (skip_cuts_body fuel pre l post env)).
Qed.

(** The body up to a [Stop], when the statements before it come to their
    end. *)
Lemma stop_cuts_body fuel pre l post env st st' :
  while_body (S fuel) pre env st = (st', Ok tt) ->
  skip_continues (while_body (S fuel) (pre ++ StopStmt l :: post)%list env) st
  = (st', Raise (Error StopException)).
Proof.
  unfold skip_continues, while_body. unfold bind at 1 2.
  rewrite new_env_block. rewrite exec_list_app. unfold bind at 1.
  intros ->. cbn [exec_list]. rewrite execute_stmt_stop. done.
Qed.

(** X8: a [Stop] ends the loop: in the first round of a [Repeat] (with a
    count of one or more) or of a [While] (whose condition holds) in which
    the statements before the [Stop] come to their end, the loop is over,
    with the state those statements left; the statements after the [Stop]
    and all further rounds are not run, and the statement returns. *)
Theorem stop_ends_the_loop fuel count condition pre l post line env
    st st1 st2 st1' st2' n :
  evaluate count env st = (st1, Ok (VInt n)) ->
  (1 <= n)%Z ->
  while_body (S fuel) pre env st1 = (st2, Ok tt) ->
  evaluate_condition condition env st = (st1', Ok true) ->
  while_body (S fuel) pre env st1' = (st2', Ok tt) ->
  execute_stmt (S (S fuel)) (RepeatStmt count (pre ++ StopStmt l :: post)%list line)
               env st
  = (st2, Ok tt) /\
  execute_stmt (S (S fuel)) (WhileStmt condition (pre ++ StopStmt l :: post)%list line)
               env st
  = (st2', Ok tt).
Proof.
  intros Hcount Hn Hpre Hcond Hpre'. split.
  - rewrite execute_stmt_repeat. unfold bind at 1. rewrite Hcount.
    cbn [is_int_or_float]. unfold catch_stop, bind. cbn [py_int]. unfold ret.
    destruct (Z.to_nat n) as [|k] eqn:Hk; [lia|].
    cbn [for_range]. unfold bind.
    by rewrite (stop_cuts_body fuel pre l post env st1 st2 Hpre).
  - rewrite execute_stmt_while. unfold catch_stop, while_rounds.
    cbn [while_loop]. unfold bind at 1. rewrite Hcond.
    change (WHILE_LIMIT <? 0 + 1)%Z with false. cbv iota.
    unfold bind.
    by rewrite (stop_cuts_body fuel pre l post env st1' st2' Hpre').
Qed.

(** ** What the two handlers catch *)







End WithHost.

(** [Repeat 3 times: Stop. Let x be 1.] and the like, for the witnesses. *)
Lemma stop_ends_the_loop_witness :
  execute_stmt 2 (RepeatStmt (number 3 1) [StopStmt 2; LetStmt "x" (number 1 3) 3] 1)
               globals new_interpreter
  = (enter_block new_interpreter, Ok tt).
Proof.
  exact (proj1 (stop_ends_the_loop 0 (number 3 1)
                  (Condition (number 1 1) "equals" (Some (number 1 1)) 1)
                  [] 2 [LetStmt "x" (number 1 3) 3] 1 globals
                  new_interpreter new_interpreter (enter_block new_interpreter)
                  new_interpreter (enter_block new_interpreter) 3
                  eq_refl ltac:(lia) eq_refl eq_refl eq_refl)).
Defined.



End ControlFacts.

(* ===================================================================== *)
(** * Dictionaries and instances *)
(* ===================================================================== *)

Module ObjectFacts.
Import Ast PyNum Runtime Interp Scopes Sample.
Local Open Scope string_scope.

(** ** Text keys *)

Lemma key_eqb_text s k : key_eqb (VStr s) k = true <-> k = VStr s.
Proof.
  unfold key_eqb. destruct k; simpl; try (split; [done|discriminate]).
  rewrite String.eqb_eq. split; [by intros ->|by intros [= ->]].
Qed.

Lemma dict_mem_set_same s v d : dict_mem (VStr s) (dict_set (VStr s) v d) = true.
Proof.
  unfold dict_set. destruct (dict_mem (VStr s) d) eqn:Hm.
  - unfold dict_mem in *. apply existsb_exists in Hm as ([k w] & Hin & Hk).
    apply existsb_exists. exists (k, v). split; [|done].
    apply in_map_iff. exists (k, w). simpl in *. by rewrite Hk.
  - unfold dict_mem. rewrite existsb_app. simpl.
    rewrite (proj2 (key_eqb_text s (VStr s)) eq_refl). by rewrite orb_true_r.
Qed.

Lemma find_map_set s v (d : pydict) :
  List.find (fun kv => key_eqb (VStr s) kv.1)
            (map (fun kv => if key_eqb (VStr s) kv.1 then (kv.1, v) else kv) d)
  = (fun kv => (kv.1, v)) <$> List.find (fun kv => key_eqb (VStr s) kv.1) d.
Proof.
  induction d as [|[k w] d IH]; simpl; [done|].
  destruct (key_eqb (VStr s) k) eqn:Hk; simpl; rewrite Hk; [done|apply IH].
Qed.

Lemma dict_get_set_same s v d : dict_get (VStr s) (dict_set (VStr s) v d) = Some v.
Proof.
  unfold dict_set, dict_get. destruct (dict_mem (VStr s) d) eqn:Hm.
  - rewrite find_map_set. unfold dict_mem in Hm.
    destruct (List.find (fun kv => key_eqb (VStr s) kv.1) d) as [kv|] eqn:Hf; [done|].
    apply existsb_exists in Hm as (kv & Hin & Hk).
    by rewrite (find_none _ _ Hf kv Hin) in Hk.
  - unfold dict_mem in Hm.
    assert (Hnone : List.find (fun kv => key_eqb (VStr s) kv.1) d = None).
    { destruct (List.find (fun kv => key_eqb (VStr s) kv.1) d) as [kv|] eqn:Hf; [|done].
      apply find_some in Hf as [Hin Hk].
      assert (existsb (fun kv => key_eqb (VStr s) kv.1) d = true)
        by (apply existsb_exists; by exists kv).
      congruence. }
    induction d as [|[k w] d IH]; simpl in *.
    + by rewrite (proj2 (key_eqb_text s (VStr s)) eq_refl).
    + destruct (key_eqb (VStr s) k); [done|]. by apply IH.
Qed.

Lemma find_set_other s s' v (d : pydict) :
  s' <> s ->
  List.find (fun kv => key_eqb (VStr s') kv.1) (dict_set (VStr s) v d)
  = List.find (fun kv => key_eqb (VStr s') kv.1) d.
Proof.
  intros Hne.
  assert (Hk : forall k, key_eqb (VStr s) k = true -> key_eqb (VStr s') k = false).
  { intros k ->%key_eqb_text. simpl. by apply String.eqb_neq. }
  unfold dict_set. destruct (dict_mem (VStr s) d).
  - induction d as [|[k w] d IH]; simpl; [done|].
    destruct (key_eqb (VStr s) k) eqn:Hsk; simpl.
    + rewrite (Hk k Hsk). apply IH.
    + destruct (key_eqb (VStr s') k); [done|apply IH].
  - induction d as [|[k w] d IH]; simpl.
    + by rewrite (Hk (VStr s) (proj2 (key_eqb_text s (VStr s)) eq_refl)).
    + destruct (key_eqb (VStr s') k); [done|apply IH].
Qed.

Lemma dict_mem_find k (d : pydict) :
  dict_mem k d = bool_decide (is_Some (List.find (fun kv => key_eqb k kv.1) d)).
Proof.
  unfold dict_mem. induction d as [|[k' w] d IH]; simpl; [done|].
  destruct (key_eqb k k'); simpl; done.
Qed.

(** ** Lookups that succeed *)

Lemma get_ok_any_line env name line line' st v :
  get env name line st = Ok v -> get env name line' st = Ok v.
Proof.
  induction env as [vars|vars parent IH] using Environment_chain_ind; simpl.
  - by destruct (vars_of st (Env vars None) !! name).
  - destruct (vars_of st (Env vars (Some parent)) !! name); [done|apply IH].
Qed.

Lemma get_same_scopes env name line st st' :
  scopes st' = scopes st -> get env name line st' = get env name line st.
Proof.
  intros Hs. apply ChainFacts.get_same_lookups. intros c.
  by rewrite (ScopeFacts.cell_same_scopes _ _ _ Hs).
Qed.

(** A list or a dict is a key of no dictionary. *)
Lemma unhashable_is_no_key k d : hashable k = false -> dict_mem k d = false.
Proof.
  intros Hk. unfold dict_mem. induction d as [|[k' w] d IH]; [done|].
  cbn [existsb fst]. rewrite IH, orb_false_r. by destruct k.
Qed.

Section WithHost.
Context `{Host}.

Lemma execute_stmt_set_dict fuel dict_expr key_expr value_expr line env :
  execute_stmt (S fuel) (SetDictValueStmt dict_expr key_expr value_expr line) env
  = bind (evaluate dict_expr env)
      (fun d =>
         match d with
         | VDict ref =>
             bind (evaluate key_expr env)
               (fun k =>
                  bind (evaluate value_expr env)
                    (fun v =>
                       if is_list k || is_dict k
                       then runtime_error
                              (line_prefix line
                               +:+ "A list or dictionary cannot be used as a key.")
                       else write (fun st =>
                                     with_dicts
                                       (fun s => <[ref := dict_set k v (dict_at st ref)]> s)
                                       st)))
         | _ =>
             runtime_error
               (line_prefix line +:+ "Can only set a value in a dictionary.")
         end).
Proof. done. Qed.

(** A variable that holds a dictionary, read as an expression. *)
Lemma evaluate_dict_variable env d line st ref :
  get env d line st = Ok (VDict ref) ->
  evaluate (Identifier d line) env st = (st, Ok (VDict ref)).
Proof. intros Hg. simpl. by rewrite Hg. Qed.

(** Reading a text key of a dictionary held by a variable. *)
Lemma evaluate_text_access env d s ld lk line st ref :
  get env d ld st = Ok (VDict ref) ->
  evaluate (DictAccess (Identifier d ld) (StringLiteral s lk) line) env st
  = (st, match List.find (fun kv => key_eqb (VStr s) kv.1) (dict_at st ref) with
         | Some kv => Ok kv.2
         | None =>
             Raise (Error (RuntimeError_
               (line_prefix line +:+ "The dictionary does not have the key '"
                +:+ s +:+ "'.") []))
         end).
Proof.
  intros Hg. cbn [evaluate]. unfold bind at 1.
  change (evaluate (Identifier d ld) env st) with
    (match get env d ld st with
     | Ok v => (st, Ok v)
     | Raise (Error (RuntimeError_ _ _)) =>
         match functions st !! d with
         | Some func_def => new_closure func_def (global_env st) st
         | None => (st, Ok (VStr d))
         end
     | other => (st, other)
     end).
  rewrite Hg. unfold bind at 1. unfold ret at 1.
  unfold bind, py_in_dict. cbn [hashable]. unfold ret.
  rewrite dict_mem_find. unfold dict_get.
  destruct (List.find (fun kv => key_eqb (VStr s) kv.1) (dict_at st ref)) as [kv|].
  - rewrite bool_decide_eq_true_2 by done. done.
  - rewrite bool_decide_eq_false_2 by (by intros [? ?]). done.
Qed.

(** C10 (the code departs from the claim): with a list or a dictionary as
    the key, which no dictionary contains, removing the value is no silent
    no-op: the membership test [k in d] of [_exec_remove_dict_value] hashes
    the key and Python's [TypeError] comes out, which is no
    [RuntimeError_]. The sibling [_exec_set_dict_value] tests for such a key
    and raises the runtime error that says a list or dictionary cannot be a
    key. *)
Theorem remove_with_unhashable_key fuel st env dict_expr key_expr line
    ref k st1 st2 :
  evaluate dict_expr env st = (st1, Ok (VDict ref)) ->
  evaluate key_expr env st1 = (st2, Ok k) ->
  hashable k = false ->
  dict_mem k (dict_at st2 ref) = false /\
  execute_stmt (S fuel) (RemoveDictValueStmt dict_expr key_expr line) env st
  = (st2, Raise (Error (PyError "TypeError"
                          ("unhashable type: '" +:+ type_name k +:+ "'")))) /\
  forall value_expr st3 v,
    evaluate value_expr env st2 = (st3, Ok v) ->
    execute_stmt (S fuel) (SetDictValueStmt dict_expr key_expr value_expr line) env st
    = (st3, Raise (Error (RuntimeError_
         (line_prefix line +:+ "A list or dictionary cannot be used as a key.")
         []))).
Proof.
  intros Hd Hk Hh. split; [by apply unhashable_is_no_key|]. split.
  - rewrite ValueFacts.execute_stmt_remove. unfold bind at 1. rewrite Hd.
    unfold bind at 1. rewrite Hk. unfold bind, py_in_dict. by rewrite Hh.
  - intros value_expr st3 v Hv.
    rewrite execute_stmt_set_dict. unfold bind at 1. rewrite Hd.
    unfold bind at 1. rewrite Hk. unfold bind. rewrite Hv.
    by destruct k.
Qed.

(** X11: a value set under a text key of a dictionary is the value read
    under that key afterwards, and the other text keys read as before: for
    a dictionary held by a variable, [Set the value for s in d to v] makes
    [the value for s in d] evaluate to [v] and changes the result for no
    other text key. *)
Theorem set_then_get fuel d s value_expr ld lk line env st ref st1 v :
  get env d ld st = Ok (VDict ref) ->
  evaluate value_expr env st = (st1, Ok v) ->
  (ref < length (dicts st1))%nat ->
  let r := execute_stmt (S fuel)
             (SetDictValueStmt (Identifier d ld) (StringLiteral s lk) value_expr line)
             env st in
  r.2 = Ok tt /\
  (forall l1 l2 l3,
      evaluate (DictAccess (Identifier d l1) (StringLiteral s l2) l3) env r.1
      = (r.1, Ok v)) /\
  (forall s' l1 l2 l3,
      s' <> s ->
      (evaluate (DictAccess (Identifier d l1) (StringLiteral s' l2) l3) env r.1).2
      = (evaluate (DictAccess (Identifier d l1) (StringLiteral s' l2) l3) env st1).2).
Proof.
  intros Hg Hv Href r.
  pose proof (Frames.evaluate_keeps_scopes value_expr env st) as Hs.
  rewrite Hv in Hs; simpl in Hs.
  set (st2 := with_dicts (fun t => <[ref := dict_set (VStr s) v (dict_at st1 ref)]> t) st1).
  assert (Hr : r = (st2, Ok tt)).
  { unfold r. rewrite execute_stmt_set_dict. unfold bind at 1.
    rewrite (evaluate_dict_variable _ _ _ _ _ Hg).
    unfold bind at 1. cbn [evaluate]. unfold ret at 1.
    unfold bind at 1. rewrite Hv. done. }
  rewrite Hr. cbn [fst snd].
  assert (Hd2 : dict_at st2 ref = dict_set (VStr s) v (dict_at st1 ref)).
  { unfold dict_at, st2, with_dicts; simpl. by rewrite list_lookup_insert_eq. }
  assert (Hg1 : forall l, get env d l st1 = Ok (VDict ref)).
  { intros l. rewrite (get_same_scopes env d l st st1 Hs).
    by apply (get_ok_any_line env d ld). }
  assert (Hg2 : forall l, get env d l st2 = Ok (VDict ref)).
  { intros l. by rewrite (get_same_scopes env d l st1 st2). }
  split; [done|]. split.
  - intros l1 l2 l3. rewrite (evaluate_text_access env d s l1 l2 l3 st2 ref (Hg2 l1)).
    rewrite Hd2. pose proof (dict_get_set_same s v (dict_at st1 ref)) as Hget.
    unfold dict_get in Hget.
    destruct (List.find _ (dict_set (VStr s) v (dict_at st1 ref))) as [kv|]; [|done].
    simpl in Hget. by injection Hget as ->.
  - intros s' l1 l2 l3 Hne.
    rewrite (evaluate_text_access env d s' l1 l2 l3 st2 ref (Hg2 l1)).
    rewrite (evaluate_text_access env d s' l1 l2 l3 st1 ref (Hg1 l1)).
    cbn [snd]. by rewrite Hd2, find_set_other.
Qed.

End WithHost.

(** The state after [Let d be an empty dictionary]. *)
Lemma set_then_get_witness :
  let r := execute_stmt 1
             (SetDictValueStmt (Identifier "d" 2) (StringLiteral "a" 2) (number 7 2) 2)
             globals ValueFacts.with_empty_dict in
  evaluate (DictAccess (Identifier "d" 3) (StringLiteral "a" 3) 3) globals r.1
  = (r.1, Ok (VInt 7)).
Proof.
  exact (proj1 (proj2 (set_then_get 0 "d" "a" (number 7 2) 2 2 2 globals
                         ValueFacts.with_empty_dict 0 ValueFacts.with_empty_dict
                         (VInt 7) eq_refl eq_refl ltac:(vm_compute; lia)))
               3 3 3).
Defined.

Lemma remove_with_unhashable_key_witness :
  execute_stmt 1 (RemoveDictValueStmt (Identifier "d" 2) (ListLiteral [] 2) 2)
               globals ValueFacts.with_empty_dict
  = (with_lists (fun s => (s ++ [[]])%list) ValueFacts.with_empty_dict,
     Raise (Error (PyError "TypeError" "unhashable type: 'list'"))).
Proof.
  exact (proj1 (proj2 (remove_with_unhashable_key 0 ValueFacts.with_empty_dict globals
                         (Identifier "d" 2) (ListLiteral [] 2) 2 0 (VList 0)
                         ValueFacts.with_empty_dict
                         (with_lists (fun s => (s ++ [[]])%list) ValueFacts.with_empty_dict)
                         eq_refl eq_refl eq_refl))).
Defined.
(** ** New instances *)

Section Classes.
Variable ctable : gmap string class_def.

(** The property names a class declares itself. *)
Definition own_properties (c : string) : list string :=
  match ctable !! c with Some cd => c_properties cd | None => [] end.

(** The merge of [_eval_new_instance] along a chain of defined classes. *)
Lemma merge_props_along line c l :
  DispatchFacts.lineage ctable c l ->
  forall n cd all_props,
    ctable !! c = Some cd ->
    Forall (fun x => is_Some (ctable !! x)) l ->
    (length l <= n)%nat ->
    merge_props n ctable cd all_props line
    = Ok (concat (map own_properties (rev l)) ++ all_props)%list.
Proof.
  induction 1 as [c Hp|c p l Hp Hl IH]; intros n cd all_props Hc Hdef Hn.
  - destruct n as [|n]; [simpl in Hn; lia|]. simpl.
    unfold DispatchFacts.parent_of in Hp. rewrite Hc in Hp. simpl in Hp. rewrite Hp.
    unfold own_properties. rewrite Hc. by rewrite app_nil_r.
  - destruct n as [|n]; [simpl in Hn; lia|]. simpl.
    unfold DispatchFacts.parent_of in Hp. rewrite Hc in Hp. simpl in Hp. rewrite Hp.
    apply Forall_cons in Hdef as [_ Hdef].
    assert (Hpl : p ∈ l) by (destruct Hl; left).
    rewrite Forall_forall in Hdef. destruct (Hdef p Hpl) as [cp Hcp]. rewrite Hcp.
    rewrite (IH n cp _ Hcp); [|by apply Forall_forall|simpl in Hn; lia].
    rewrite map_app, concat_app. simpl. unfold own_properties at 3. rewrite Hc.
    by rewrite app_nil_r, <- app_assoc.
Qed.

End Classes.

Lemma fresh_props_from (l : list string) (m : gmap string value) p :
  foldl (fun m p => <[p := VNone]> m) m l !! p
  = if bool_decide (p ∈ l) then Some VNone else m !! p.
Proof.
  revert m. induction l as [|q l IH]; intros m; cbn [foldl].
  - rewrite bool_decide_eq_false_2; [done|]. by intros ?%elem_of_nil.
  - rewrite IH. destruct (decide (p ∈ l)) as [Hin|Hnin].
    + rewrite !bool_decide_eq_true_2; [done|by right|done].
    + rewrite (bool_decide_eq_false_2 (p ∈ l)) by done.
      destruct (decide (p = q)) as [->|Hne].
      * rewrite bool_decide_eq_true_2 by left. by rewrite lookup_insert_eq.
      * rewrite bool_decide_eq_false_2.
        -- by rewrite lookup_insert_ne.
        -- intros [?|?]%elem_of_cons; done.
Qed.

Lemma fresh_props_lookup l p :
  fresh_props l !! p = if bool_decide (p ∈ l) then Some VNone else None.
Proof. unfold fresh_props. by rewrite fresh_props_from. Qed.

Section Instances.
Context `{Host}.

(** X12: a new instance has the properties of its class and of every
    class up its inheritance chain, each one set to nothing, and no other:
    for a class whose chain has no cycle and names defined classes only,
    instantiation without arguments returns an instance of the class whose
    property bag holds exactly the names declared along the chain. *)
Theorem new_instance_has_inherited_properties c l cd line env st :
  DispatchFacts.lineage (classes st) c l ->
  NoDup l ->
  Forall (fun x => is_Some (classes st !! x)) l ->
  classes st !! c = Some cd ->
  let r := evaluate (NewInstanceExpr c [] line) env st in
  let bag := bag_at r.1 (length (bags st)) in
  r.2 = Ok (VInstance (c_name cd) (length (bags st))) /\
  (forall p, bag !! p = Some VNone \/ bag !! p = None) /\
  (forall p, is_Some (bag !! p) <->
             exists x, x ∈ l /\ p ∈ own_properties (classes st) x).
Proof.
  intros Hl Hnd Hdef Hc r bag.
  assert (Hn : (length l <= S (size (classes st)))%nat).
  { rewrite <- (size_dom (D:=gset string) (classes st)).
    apply (DispatchFacts.lineage_length _ c l Hl Hnd).
    intros x _ Hsome. by apply elem_of_dom. }
  set (all_props := concat (map (own_properties (classes st)) (rev l))).
  assert (Hr : r = (with_bags (fun s => s ++ [fresh_props all_props])%list st,
                    Ok (VInstance (c_name cd) (length (bags st))))).
  { unfold r. cbn [evaluate]. rewrite Hc. unfold bind at 1, lift.
    rewrite (merge_props_along (classes st) line c l Hl _ cd [] Hc Hdef Hn).
    rewrite app_nil_r. fold all_props. done. }
  assert (Hbag : bag = fresh_props all_props).
  { unfold bag. rewrite Hr. unfold bag_at, with_bags; simpl.
    by rewrite lookup_app_r, Nat.sub_diag. }
  rewrite Hbag. split; [by rewrite Hr|]. split.
  - intros p. rewrite fresh_props_lookup. destruct (bool_decide _); auto.
  - intros p. rewrite fresh_props_lookup. unfold all_props.
    destruct (decide (p ∈ concat (map (own_properties (classes st)) (rev l))))
      as [Hin|Hnin].
    + rewrite bool_decide_eq_true_2 by done. split; [intros _|done].
      apply list_elem_of_In, in_concat in Hin as (ps & Hps & Hp).
      apply in_map_iff in Hps as (x & <- & Hx).
      exists x. split; [|by apply list_elem_of_In].
      apply list_elem_of_In. by apply in_rev.
    + rewrite bool_decide_eq_false_2 by done. split; [by intros [? ?]|].
      intros (x & Hx & Hp). exfalso. apply Hnin.
      apply list_elem_of_In, in_concat. exists (own_properties (classes st) x).
      split; [|by apply list_elem_of_In].
      apply in_map_iff. exists x. split; [done|].
      apply in_rev. rewrite rev_involutive. by apply list_elem_of_In.
Qed.

End Instances.

Lemma new_instance_has_inherited_properties_witness :
  (evaluate (NewInstanceExpr "Dog" [] 7) globals DispatchFacts.zoo).2
  = Ok (VInstance "Dog" 1).
Proof.
  assert (Hl : DispatchFacts.lineage (classes DispatchFacts.zoo) "Dog" ["Dog"; "Animal"]).
  { apply DispatchFacts.lineage_up with (p := "Animal"); [reflexivity|].
    apply DispatchFacts.lineage_top. reflexivity. }
  assert (Hnd : NoDup ["Dog"; "Animal"]).
  { apply NoDup_cons. split; [|apply NoDup_singleton].
    intros Hin%list_elem_of_singleton. discriminate. }
  assert (Hdef : Forall (fun x => is_Some (classes DispatchFacts.zoo !! x))
                        ["Dog"; "Animal"]).
  { repeat constructor; by eexists. }
  exact (proj1 (new_instance_has_inherited_properties "Dog" ["Dog"; "Animal"]
                  (mkClass "Dog" [] (Some "Animal")) 7 globals DispatchFacts.zoo
                  Hl Hnd Hdef eq_refl)).
Defined.

End ObjectFacts.

(* ===================================================================== *)
(** * The token stream: its end, its texts, its line numbers *)
(* ===================================================================== *)

Module TokenFacts.
Import Chars Lexer.

(** The token types of the punctuation and of the math symbols. *)
Definition is_symbol (ty : token_type) : bool :=
  match ty with
  | WORD | NUMBER | STRING_QUOTED | INTERP_STRING | EOF => false
  | _ => true
  end.

(** The tokens the main loop of [tokenize] appends: a symbol, a string, or
    what [read_number] and [read_word] return where they are called. *)
Inductive emitted (src : list ascii) : Token -> Prop :=
| emitted_symbol ty text line :
    is_symbol ty = true -> emitted src (mkToken ty text line)
| emitted_string (has_interp : bool) buf line :
    emitted src (mkToken (if has_interp then INTERP_STRING else STRING_QUOTED)
                         (string_of_list_ascii buf) line)
| emitted_number pos line ch :
    src !! pos = Some ch -> isdigit ch = true ->
    emitted src (read_number src pos line).2
| emitted_word pos line ch :
    src !! pos = Some ch -> isalpha ch || eqc ch "_" = true ->
    emitted src (read_word src pos line).2.

(** Line numbers that never go down, from a first line on. *)
Fixpoint ascending (from : Z) (l : list Token) : Prop :=
  match l with
  | [] => True
  | t :: l' => from <= line t /\ ascending (line t) l'
  end.

Lemma ascending_from a b l : a <= b -> ascending b l -> ascending a l.
Proof. destruct l as [|t l]; simpl; [done|]. intros Hab [Hb Hl]. split; [lia|done]. Qed.

Section Loop.
Variable src : list ascii.

Lemma skip_whitespace_line n : forall pos ln,
  ln <= (skip_whitespace src n pos ln).2.
Proof.
  induction n as [|n IH]; intros pos ln; simpl; [lia|].
  destruct (src !! pos) as [ch|]; simpl; [|lia].
  destruct (is_blank ch); simpl; [|lia].
  specialize (IH (S pos) (if eqc ch NL then ln + 1 else ln)).
  destruct (eqc ch NL); lia.
Qed.

Lemma read_string_loop_line n : forall pos ln buf hi,
  ln <= (read_string_loop src n pos ln buf hi).1.1.2.
Proof.
  induction n as [|n IH]; intros pos ln buf hi; simpl; [lia|].
  destruct (src !! pos) as [c|]; simpl; [|lia].
  destruct (eqc c QUOTE); simpl; [lia|].
  assert (Hplain : forall b h,
             ln <= (read_string_loop src n (S pos)
                      (if eqc c NL then ln + 1 else ln) b h).1.1.2).
  { intros b h. specialize (IH (S pos) (if eqc c NL then ln + 1 else ln) b h).
    destruct (eqc c NL); lia. }
  repeat case_match; auto.
Qed.

Lemma read_number_line pos ln : line (read_number src pos ln).2 = ln.
Proof. unfold read_number. by destruct (read_number_loop src (length src) pos []). Qed.

Lemma read_word_line pos ln : line (read_word src pos ln).2 = ln.
Proof.
  unfold read_word. destruct (src !! pos); [|done].
  by destruct (read_word_loop src (length src) (S pos) [a]).
Qed.

(** What a run of the main loop that returns has appended: emitted
    tokens, their lines going up from the line of the cursor, and the
    end-of-input token. *)
Lemma tokenize_loop_emits n : forall pos ln tokens l,
  tokenize_loop src n pos ln tokens = Tokens l ->
  exists new eof_line,
    l = tokens ++ new ++ [mkToken EOF EmptyString eof_line] /\
    Forall (emitted src) new /\
    ascending ln (new ++ [mkToken EOF EmptyString eof_line]).
Proof.
  assert (Hfinish : forall ln ln' tokens l,
            ln <= ln' -> finish ln' tokens = Tokens l ->
            exists new eof_line,
              l = tokens ++ new ++ [mkToken EOF EmptyString eof_line] /\
              Forall (emitted src) new /\
              ascending ln (new ++ [mkToken EOF EmptyString eof_line])).
  { intros ln ln' tokens l Hle [= <-]. exists [], ln'. simpl. by repeat split. }
  induction n as [|n IH]; intros pos ln tokens l; simpl.
  - destruct (length src <=? pos)%nat; [|done]. apply Hfinish; lia.
  - destruct (length src <=? pos)%nat; [apply Hfinish; lia|].
    pose proof (skip_whitespace_line (length src) pos ln) as Hws.
    destruct (skip_whitespace src (length src) pos ln) as [pos1 ln1].
    simpl in Hws.
    destruct (src !! pos1) as [ch|] eqn:Hch; [|by apply Hfinish].
    assert (Hsame : forall p tokens',
              tokens' = tokens ->
              tokenize_loop src n p ln1 tokens' = Tokens l ->
              exists new eof_line,
                l = tokens ++ new ++ [mkToken EOF EmptyString eof_line] /\
                Forall (emitted src) new /\
                ascending ln (new ++ [mkToken EOF EmptyString eof_line])).
    { intros p tokens' -> Hl. apply IH in Hl as (new & e & -> & Hem & Hasc).
      exists new, e. split; [done|]. split; [done|].
      by apply (ascending_from ln ln1). }
    assert (Hmore : forall p ln2 tok,
              emitted src tok -> line tok = ln1 -> ln1 <= ln2 ->
              tokenize_loop src n p ln2 (tokens ++ [tok]) = Tokens l ->
              exists new eof_line,
                l = tokens ++ new ++ [mkToken EOF EmptyString eof_line] /\
                Forall (emitted src) new /\
                ascending ln (new ++ [mkToken EOF EmptyString eof_line])).
    { intros p ln2 tok Hem Hline Hle Hl.
      apply IH in Hl as (new & e & -> & Hnew & Hasc).
      exists (tok :: new), e. split; [by rewrite <- app_assoc|].
      split; [by constructor|]. simpl. rewrite Hline. split; [done|].
      by apply (ascending_from ln1 ln2). }
    repeat match goal with
           | |- context [if ?b then _ else _] => destruct b eqn:?
           end; try done;
      try (by apply (Hsame _ _ eq_refl));
      try (by apply Hmore; [by apply emitted_symbol|done|lia]).
    + pose proof (read_string_loop_line (length src) (S pos1) ln1 [] false) as Hs.
      destruct (read_string_loop src (length src) (S pos1) ln1 [] false)
        as [[[pos' ln'] buf] hi]; simpl in Hs.
      destruct (length src <=? pos')%nat; [done|].
      apply Hmore; [apply emitted_string|done|done].
    + pose proof (read_number_line pos1 ln1) as Hline.
      pose proof (emitted_number src pos1 ln1 ch Hch ltac:(done)) as Hem.
      destruct (read_number src pos1 ln1) as [pos' tok]; simpl in *.
      apply Hmore; [done|done|lia].
    + pose proof (read_word_line pos1 ln1) as Hline.
      pose proof (emitted_word src pos1 ln1 ch Hch ltac:(done)) as Hem.
      destruct (read_word src pos1 ln1) as [pos' tok]; simpl in *.
      apply Hmore; [done|done|lia].
Qed.

End Loop.

(** The same for [tokenize]. *)
Lemma tokenize_emits source l :
  tokenize source = Tokens l ->
  exists new eof_line,
    l = new ++ [mkToken EOF EmptyString eof_line] /\
    Forall (emitted (strip_comments (list_ascii_of_string source))) new /\
    ascending 1 l.
Proof.
  unfold tokenize. intros Hl.
  apply tokenize_loop_emits in Hl as (new & e & -> & Hem & Hasc).
  by exists new, e.
Qed.

Lemma emitted_type src t :
  emitted src t ->
  (is_symbol (type t) = true) \/
  (type t = STRING_QUOTED \/ type t = INTERP_STRING) \/
  (type t = NUMBER /\ exists pos ln ch,
      src !! pos = Some ch /\ isdigit ch = true /\ t = (read_number src pos ln).2) \/
  (type t = WORD /\ exists pos ln ch,
      src !! pos = Some ch /\ isalpha ch || eqc ch "_" = true /\
      t = (read_word src pos ln).2).
Proof.
  destruct 1 as [ty text ln Hs|hi buf ln|pos ln ch Hch Hd|pos ln ch Hch Ha].
  - by left.
  - right; left. destruct hi; auto.
  - right; right; left. split.
    + unfold read_number. by destruct (read_number_loop src (length src) pos []).
    + by exists pos, ln, ch.
  - right; right; right. split.
    + unfold read_word. rewrite Hch.
      by destruct (read_word_loop src (length src) (S pos) [ch]).
    + by exists pos, ln, ch.
Qed.

(** X13: the token list [tokenize] returns ends with the end-of-input
    token, and that is the only token of its type: the parser's loops, which
    run until they see it, see it at the end of every token list and nowhere
    before. *)
Theorem tokens_end_with_eof source l :
  tokenize source = Tokens l ->
  exists body eof_line,
    l = body ++ [mkToken EOF EmptyString eof_line] /\
    Forall (fun t => type t <> EOF) body.
Proof.
  intros (new & e & -> & Hem & _)%tokenize_emits. exists new, e. split; [done|].
  eapply Forall_impl; [exact Hem|]. intros t Ht.
  destruct (emitted_type _ t Ht) as [Hs|[[Hs|Hs]|[[Hs _]|[Hs _]]]];
    rewrite ?Hs; try done.
  intros Heq. by rewrite Heq in Hs.
Qed.

Lemma tokens_end_with_eof_witness :
  exists body eof_line,
    [mkToken WORD "Let" 1; mkToken WORD "x" 1; mkToken WORD "be" 1;
     mkToken NUMBER "3" 1; mkToken PERIOD "." 1; mkToken EOF EmptyString 1]
    = body ++ [mkToken EOF EmptyString eof_line] /\
    Forall (fun t => type t <> EOF) body.
Proof. exact (tokens_end_with_eof "Let x be 3." _ eq_refl). Defined.

(** ** The text of a number token *)

(** Digits and points, a digit after every point; [next_digit] tells
    whether a digit follows the text, for a point at its end. A digit is
    what [str.isdigit] takes for one. *)
Fixpoint pointed (next_digit : bool) (s : list ascii) : bool :=
  match s with
  | [] => true
  | c :: rest =>
      (if eqc c "."
       then match rest with d :: _ => isdigit d | [] => next_digit end
       else isdigit c)
      && pointed next_digit rest
  end.

(** A text that starts with a digit, is made of digits and points, and has
    a digit after each of its points. *)
Definition number_text (s : string) : Prop :=
  exists d rest,
    list_ascii_of_string s = d :: rest /\ isdigit d = true /\
    pointed false (d :: rest) = true.

Lemma digit_is_no_point ch : isdigit ch = true -> eqc ch "." = false.
Proof.
  unfold isdigit, between, eqc. intros Hd.
  destruct (Ascii.eqb_spec ch "."); [subst; discriminate|done].
Qed.

Lemma pointed_digit buf ch b :
  isdigit ch = true -> pointed true buf = true -> pointed b (buf ++ [ch]) = true.
Proof.
  intros Hd. induction buf as [|c buf IH]; simpl.
  - intros _. by rewrite (digit_is_no_point ch Hd), Hd.
  - intros [Hc Hrest]%andb_prop. rewrite (IH Hrest), andb_true_r.
    destruct (eqc c "."); [|done]. by destruct buf.
Qed.

Lemma pointed_point buf ch :
  eqc ch "." = true -> pointed false buf = true -> pointed true (buf ++ [ch]) = true.
Proof.
  intros Hp. induction buf as [|c buf IH]; simpl.
  - intros _. by rewrite Hp.
  - intros [Hc Hrest]%andb_prop. rewrite (IH Hrest), andb_true_r.
    destruct (eqc c "."); [|done]. by destruct buf.
Qed.

Section Number.
Variable src : list ascii.

Lemma read_number_loop_pointed n : forall pos buf,
  (length src <= pos + n)%nat ->
  pointed (at_digit src pos) buf = true ->
  pointed false (read_number_loop src n pos buf).2 = true.
Proof.
  induction n as [|n IH]; intros pos buf Hn; simpl.
  - unfold at_digit. rewrite lookup_ge_None_2; [done|lia].
  - unfold at_digit at 1. destruct (src !! pos) as [ch|] eqn:Hch; simpl; [|done].
    destruct (isdigit ch) eqn:Hd; simpl.
    + rewrite (digit_is_no_point ch Hd). intros Hb. apply IH; [lia|].
      by apply pointed_digit.
    + destruct (eqc ch ".") eqn:Hp; simpl; [|done].
      destruct (at_digit src (pos + 1)) eqn:Hnx; simpl; [|done].
      intros Hb. apply IH; [lia|].
      replace (S pos) with (pos + 1)%nat by lia. rewrite Hnx.
      by apply pointed_point.
Qed.

Lemma read_number_text pos ln ch :
  src !! pos = Some ch -> isdigit ch = true ->
  number_text (value (read_number src pos ln).2).
Proof.
  intros Hch Hd. unfold read_number.
  destruct (length src) as [|n] eqn:Hlen.
  { apply lookup_lt_Some in Hch. lia. }
  pose proof (read_number_loop_pointed (S n) pos [] ltac:(lia) eq_refl) as Hp.
  revert Hp. simpl. rewrite Hch, Hd. simpl. rewrite (digit_is_no_point ch Hd).
  pose proof (LexerFacts.read_number_loop_buf src n (S pos) [ch]) as Hbuf.
  destruct (read_number_loop src n (S pos) [ch]) as [p buf]. simpl in *.
  intros Hp. exists ch, (take (p - S pos) (drop (S pos) src)).
  rewrite list_ascii_of_string_of_list_ascii. rewrite Hbuf in *. by repeat split.
Qed.

End Number.

(** X14: the text of every NUMBER token starts with a digit, is made of
    digits and decimal points only, and has a digit after each of its
    points: it never starts or ends with a point and never has two points
    in a row. The digits are those of [str.isdigit], which takes the
    superscripts one, two and three for digits as well as 0 to 9. *)
Theorem number_tokens_are_numerals source l t :
  tokenize source = Tokens l ->
  t ∈ l ->
  type t = NUMBER ->
  number_text (value t).
Proof.
  intros (new & e & -> & Hem & _)%tokenize_emits Hin Hty.
  apply elem_of_app in Hin as [Hin|Hin%list_elem_of_singleton]; [|by subst].
  rewrite Forall_forall in Hem. specialize (Hem t Hin).
  destruct (emitted_type _ t Hem) as [Hs|[[Hs|Hs]|[[_ Hn]|[Hs _]]]];
    try (by rewrite Hty in Hs).
  destruct Hn as (pos & ln & ch & Hch & Hd & ->). by eapply read_number_text.
Qed.

Lemma number_tokens_are_numerals_witness : number_text "1.2.3".
Proof.
  refine (number_tokens_are_numerals "1.2.3"
            [mkToken NUMBER "1.2.3" 1; mkToken EOF EmptyString 1]
            (mkToken NUMBER "1.2.3" 1) eq_refl _ eq_refl).
  left.
Defined.

(** ** The text of a word token *)

(** A text that starts with a letter or an underscore and goes on with
    alphanumeric characters and underscores: the letters are those of
    [str.isalpha], the alphanumeric characters those of [str.isalnum]. *)
Definition word_text (s : string) : Prop :=
  exists c rest,
    list_ascii_of_string s = c :: rest /\ isalpha c || eqc c "_" = true /\
    forallb (fun x => isalnum x || eqc x "_") rest = true.

Lemma read_word_loop_text src n : forall pos buf,
  exists ext,
    (read_word_loop src n pos buf).2 = buf ++ ext /\
    forallb (fun x => isalnum x || eqc x "_") ext = true.
Proof.
  induction n as [|n IH]; intros pos buf; simpl.
  - exists []. by rewrite app_nil_r.
  - destruct (src !! pos) as [ch|]; simpl; [|exists []; by rewrite app_nil_r].
    destruct (isalnum ch || eqc ch "_") eqn:Hc; simpl;
      [|exists []; by rewrite app_nil_r].
    destruct (IH (S pos) (buf ++ [ch])) as (ext & -> & Hext).
    exists (ch :: ext). rewrite <- app_assoc. split; [done|]. simpl. by rewrite Hc.
Qed.

(** X15: the text of every WORD token starts with a letter or an
    underscore and goes on with alphanumeric characters and underscores
    only, and is never empty. The letters are those of [str.isalpha] and
    the alphanumeric characters those of [str.isalnum], accented letters
    and the vulgar fractions among them. *)
Theorem word_tokens_are_names source l t :
  tokenize source = Tokens l ->
  t ∈ l ->
  type t = WORD ->
  word_text (value t).
Proof.
  intros (new & e & -> & Hem & _)%tokenize_emits Hin Hty.
  apply elem_of_app in Hin as [Hin|Hin%list_elem_of_singleton]; [|by subst].
  rewrite Forall_forall in Hem. specialize (Hem t Hin).
  destruct (emitted_type _ t Hem) as [Hs|[[Hs|Hs]|[[Hs _]|[_ Hw]]]];
    try (by rewrite Hty in Hs).
  destruct Hw as (pos & ln & ch & Hch & Ha & ->).
  unfold read_word. rewrite Hch.
  destruct (read_word_loop_text (strip_comments (list_ascii_of_string source))
              (length (strip_comments (list_ascii_of_string source)))
              (S pos) [ch]) as (ext & Hbuf & Hext).
  destruct (read_word_loop _ _ (S pos) [ch]) as [p buf]. simpl in *. subst buf.
  exists ch, ext. by rewrite list_ascii_of_string_of_list_ascii.
Qed.

Lemma word_tokens_are_names_witness : word_text "x_1".
Proof.
  refine (word_tokens_are_names "Let x_1 be 3."
            [mkToken WORD "Let" 1; mkToken WORD "x_1" 1; mkToken WORD "be" 1;
             mkToken NUMBER "3" 1; mkToken PERIOD "." 1; mkToken EOF EmptyString 1]
            (mkToken WORD "x_1" 1) eq_refl _ eq_refl).
  right. left.
Defined.

(** ** Line numbers *)

Lemma ascending_lookup l : forall from i j ti tj,
  ascending from l ->
  (i <= j)%nat -> l !! i = Some ti -> l !! j = Some tj ->
  from <= line ti <= line tj.
Proof.
  induction l as [|t l IH]; intros from i j ti tj; simpl; [done|].
  intros [Hfrom Hl] Hij Hi Hj.
  destruct i as [|i], j as [|j]; simpl in *; try lia.
  - injection Hi as <-. injection Hj as <-. lia.
  - injection Hi as <-.
    destruct (IH (line t) j j tj tj Hl ltac:(lia) Hj Hj). lia.
  - destruct (IH (line t) i j ti tj Hl ltac:(lia) Hi Hj). lia.
Qed.

(** X16: the line numbers of the tokens start at 1 or later and never go
    down along the token list: a token that comes later in the list is on
    the same line or on a later one. *)
Theorem token_lines_ascend source l i j ti tj :
  tokenize source = Tokens l ->
  (i <= j)%nat ->
  l !! i = Some ti ->
  l !! j = Some tj ->
  1 <= line ti <= line tj.
Proof.
  intros (new & e & _ & _ & Hasc)%tokenize_emits. by apply ascending_lookup.
Qed.

Lemma token_lines_ascend_witness :
  1 <= line (mkToken WORD "a" 1) <= line (mkToken WORD "b" 2).
Proof.
  exact (token_lines_ascend (String "a" (String NL "b"))
           [mkToken WORD "a" 1; mkToken WORD "b" 2; mkToken EOF EmptyString 2]
           0 1 _ _ eq_refl ltac:(lia) eq_refl eq_refl).
Defined.

End TokenFacts.

(* ===================================================================== *)
(** * String literals and comment lines *)
(* ===================================================================== *)

Module LiteralFacts.
Import Chars Lexer.

(** ** Writing a text as a string literal *)

(** One character of a text, written with the escapes the lexer reads. *)
Definition escape_char (c : ascii) : list ascii :=
  if eqc c QUOTE then [BACKSLASH; QUOTE]
  else if eqc c BACKSLASH then [BACKSLASH; BACKSLASH]
  else if eqc c "{" then [BACKSLASH; "{"%char]
  else if eqc c NL then [BACKSLASH; "n"%char]
  else if eqc c TAB then [BACKSLASH; "t"%char]
  else [c].

Definition escape (s : list ascii) : list ascii := flat_map escape_char s.

Lemma drop_head {A} (l : list A) pos a rest :
  drop pos l = a :: rest -> l !! pos = Some a /\ drop (S pos) l = rest.
Proof.
  intros Hd. split.
  - rewrite <- (Nat.add_0_r pos), <- lookup_drop. by rewrite Hd.
  - replace (S pos) with (pos + 1)%nat by lia.
    rewrite <- (drop_drop l 1 pos). by rewrite Hd.
Qed.

Lemma eqc_eq a b : eqc a b = true -> a = b.
Proof. apply Ascii.eqb_eq. Qed.

Lemma escape_char_cases c :
  (c = QUOTE /\ escape_char c = [BACKSLASH; QUOTE]) \/
  (c = BACKSLASH /\ escape_char c = [BACKSLASH; BACKSLASH]) \/
  (c = "{"%char /\ escape_char c = [BACKSLASH; "{"%char]) \/
  (c = NL /\ escape_char c = [BACKSLASH; "n"%char]) \/
  (c = TAB /\ escape_char c = [BACKSLASH; "t"%char]) \/
  (escape_char c = [c] /\ eqc c QUOTE = false /\ eqc c BACKSLASH = false /\
   eqc c "{" = false /\ eqc c NL = false).
Proof.
  unfold escape_char.
  destruct (eqc c QUOTE) eqn:Hq; [apply eqc_eq in Hq as ->; auto|].
  destruct (eqc c BACKSLASH) eqn:Hb; [apply eqc_eq in Hb as ->; auto|].
  destruct (eqc c "{") eqn:Hl; [apply eqc_eq in Hl as ->; auto 6|].
  destruct (eqc c NL) eqn:Hnl; [apply eqc_eq in Hnl as ->; auto 7|].
  destruct (eqc c TAB) eqn:Ht; [apply eqc_eq in Ht as ->; auto 8|].
  do 5 right. done.
Qed.

(** The loop of the string branch reads an escaped text back. *)
Lemma read_string_loop_escape src s : forall n pos ln buf hi post,
  drop pos src = escape s ++ QUOTE :: post ->
  (length (escape s) < n)%nat ->
  read_string_loop src n pos ln buf hi
  = (pos + length (escape s), ln, buf ++ s, hi)%nat.
Proof.
  induction s as [|c s IH]; intros n pos ln buf hi post Hdrop Hn.
  - simpl in *. destruct n as [|n]; [lia|]. simpl.
    apply drop_head in Hdrop as [-> _]. simpl.
    by rewrite Nat.add_0_r, app_nil_r.
  - change (escape (c :: s)) with (escape_char c ++ escape s) in *.
    rewrite length_app in *. rewrite <- app_assoc in Hdrop.
    assert (Hstep2 : forall x y,
              escape_char c = [x; y] ->
              src !! pos = Some x /\ src !! (pos + 1)%nat = Some y /\
              drop (pos + 2) src = escape s ++ QUOTE :: post).
    { intros x y He. rewrite He in Hdrop. simpl in Hdrop.
      apply drop_head in Hdrop as [Hx Hdrop].
      apply drop_head in Hdrop as [Hy Hdrop].
      replace (pos + 1)%nat with (S pos) by lia.
      replace (pos + 2)%nat with (S (S pos)) by lia. done. }
    assert (Hgo : forall x y,
              escape_char c = [x; y] -> x = BACKSLASH ->
              (y = QUOTE \/ y = BACKSLASH \/ y = "{" \/ y = "n" \/ y = "t")%char ->
              (forall b, read_string_loop src (n - 1) (pos + 2) ln b hi
                         = (pos + 2 + length (escape s), ln, b ++ s, hi)%nat) ->
              read_string_loop src n pos ln buf hi
              = (pos + 2 + length (escape s), ln,
                 (buf ++ [if eqc y "n" then NL else if eqc y "t" then TAB else y]) ++ s,
                 hi)%nat).
    { intros x y He -> Hy Hrec.
      destruct (Hstep2 _ _ He) as (Hx & Hy' & _).
      destruct n as [|n]; [lia|]. simpl. rewrite Hx. simpl. rewrite Hy'.
      replace (S n - 1)%nat with n in Hrec by lia.
      destruct Hy as [-> | [-> | [-> | [-> | ->]]]]; simpl; apply Hrec. }
    assert (Hrec : forall x y b,
              escape_char c = [x; y] ->
              read_string_loop src (n - 1) (pos + 2) ln b hi
              = (pos + 2 + length (escape s), ln, b ++ s, hi)%nat).
    { intros x y b He. destruct (Hstep2 _ _ He) as (_ & _ & Hd).
      apply (IH _ _ _ _ _ post Hd). rewrite He in Hn. simpl in Hn. lia. }
    destruct (escape_char_cases c)
      as [[-> He]|[[-> He]|[[-> He]|[[-> He]|[[-> He]|(He & Hq & Hb & Hl & Hnl)]]]]].
    1-5: rewrite (Hgo _ _ He eq_refl ltac:(auto 6) (fun b => Hrec _ _ b He));
      rewrite He; simpl; rewrite <- app_assoc;
      replace (pos + 2 + length (escape s))%nat
        with (pos + S (S (length (escape s))))%nat by lia; done.
    rewrite He in Hdrop, Hn |- *. simpl in Hdrop, Hn.
    apply drop_head in Hdrop as [Hc Hdrop].
    destruct n as [|n]; [lia|]. simpl. rewrite Hc, Hq, Hb, Hnl, Hl. simpl.
    rewrite orb_false_r.
    rewrite (IH n (S pos) ln (buf ++ [c]) hi post Hdrop ltac:(lia)).
    rewrite <- app_assoc.
    replace (S pos + length (escape s))%nat
      with (pos + S (length (escape s)))%nat by lia. done.
Qed.

(** ** Sources of one line *)

Lemma no_break_no_cr c : is_linebreak c = false -> eqc c CR = false.
Proof.
  unfold is_linebreak. intros Hb. destruct (eqc c CR); [|done].
  by rewrite orb_true_r in Hb.
Qed.

Lemma splitlines_one_line l : forall cur,
  Forall (fun c => is_linebreak c = false) l ->
  cur ++ l <> [] ->
  splitlines l cur = [cur ++ l].
Proof.
  induction l as [|c l IH]; intros cur Hl Hne; simpl.
  - rewrite app_nil_r in *. by destruct cur.
  - apply Forall_cons in Hl as [Hc Hl]. rewrite (no_break_no_cr c Hc), Hc.
    rewrite IH; [by rewrite <- app_assoc|done|by destruct cur].
Qed.

Lemma not_a_comment_line body : is_comment_line (QUOTE :: body) = false.
Proof. done. Qed.

Lemma strip_comments_one_string body :
  Forall (fun c => is_linebreak c = false) body ->
  strip_comments (QUOTE :: body) = QUOTE :: body.
Proof.
  intros Hb. unfold strip_comments.
  rewrite (splitlines_one_line (QUOTE :: body) []); [|by constructor|done].
  change ([] ++ QUOTE :: body) with (QUOTE :: body).
  cbn [map concat]. rewrite not_a_comment_line. by rewrite app_nil_r.
Qed.

Lemma escape_no_break s :
  Forall (fun c => is_linebreak c = true -> c = NL) s ->
  Forall (fun c => is_linebreak c = false) (escape s).
Proof.
  induction 1 as [|c s Hc _ IH]; [constructor|].
  change (escape (c :: s)) with (escape_char c ++ escape s).
  apply Forall_app. split; [|done].
  destruct (escape_char_cases c)
    as [[-> He]|[[-> He]|[[-> He]|[[-> He]|[[-> He]|(He & Hq & Hb & Hl & Hnl)]]]]];
    rewrite He; repeat constructor.
  destruct (is_linebreak c) eqn:Hlb; [|done].
  rewrite (Hc eq_refl) in Hnl. done.
Qed.

(** ** The string branch of the main loop *)

Lemma tokenize_loop_end src n pos ln tokens :
  (length src <= pos)%nat -> tokenize_loop src n pos ln tokens = finish ln tokens.
Proof.
  intros Hle. destruct n; simpl; by destruct (Nat.leb_spec (length src) pos); [|lia].
Qed.

Lemma skip_whitespace_stays src n pos ln :
  src !! pos = Some QUOTE -> skip_whitespace src n pos ln = (pos, ln).
Proof. intros Hq. destruct n; simpl; [done|]. by rewrite Hq. Qed.

Lemma tokenize_loop_string src n pos ln tokens :
  src !! pos = Some QUOTE ->
  tokenize_loop src (S n) pos ln tokens
  = let '(pos', ln', buf, has_interp) :=
      read_string_loop src (length src) (S pos) ln [] false in
    if (length src <=? pos')%nat then Raised (UnclosedString ln)
    else tokenize_loop src n (S pos') ln'
           (tokens ++ [mkToken (if has_interp then INTERP_STRING else STRING_QUOTED)
                               (string_of_list_ascii buf) ln]).
Proof.
  intros Hq. pose proof (lookup_lt_Some _ _ _ Hq) as Hlt.
  cbn [tokenize_loop]. destruct (Nat.leb_spec (length src) pos); [lia|].
  rewrite (skip_whitespace_stays src _ pos ln Hq). rewrite Hq. done.
Qed.

(** X17: written between quotes with the escapes for the quote, the
    backslash, the opening brace, the newline and the tab, any text that
    has no line break other than the newline is read back by the lexer as
    one plain string token holding that very text, on line 1, followed by
    the end-of-input token. The line breaks are the characters at which
    [str.splitlines] ends a line, the next-line character 133 among
    them. *)
Theorem string_literal_round_trip (s : list ascii) :
  Forall (fun c => is_linebreak c = true -> c = NL) s ->
  tokenize (string_of_list_ascii (QUOTE :: escape s ++ [QUOTE]))
  = Tokens [mkToken STRING_QUOTED (string_of_list_ascii s) 1;
            mkToken EOF EmptyString 1].
Proof.
  intros Hs. unfold tokenize. rewrite list_ascii_of_string_of_list_ascii.
  rewrite strip_comments_one_string.
  2:{ apply Forall_app. split; [by apply escape_no_break|by repeat constructor]. }
  set (src := QUOTE :: escape s ++ [QUOTE]).
  assert (Hlen : length src = S (S (length (escape s)))).
  { unfold src. simpl. rewrite length_app. simpl. lia. }
  rewrite (tokenize_loop_string src _ 0 1 [] eq_refl).
  rewrite (read_string_loop_escape src s _ 1 1 [] false []); [|done|lia].
  destruct (Nat.leb_spec (length src) (1 + length (escape s))); [lia|].
  apply tokenize_loop_end. lia.
Qed.

Lemma string_literal_round_trip_witness :
  tokenize (string_of_list_ascii
              (QUOTE :: escape ["a"%char; QUOTE; "{"%char; NL; BACKSLASH] ++ [QUOTE]))
  = Tokens [mkToken STRING_QUOTED
              (string_of_list_ascii ["a"%char; QUOTE; "{"%char; NL; BACKSLASH]) 1;
            mkToken EOF EmptyString 1].
Proof.
  apply string_literal_round_trip.
  repeat constructor; intros Hb; first [discriminate Hb | reflexivity].
Defined.

(** ** A string that is never closed *)

Definition no_quote (c : ascii) : Prop := eqc c QUOTE = false.

Lemma last_line_no_quote cur :
  Forall no_quote cur ->
  Forall (Forall no_quote) (match cur with [] => [] | _ => [cur] end).
Proof. intros Hcur. destruct cur; [constructor|]. by constructor. Qed.

(** The lines of a text without quote have no quote. *)
Lemma splitlines_no_quote n : forall l cur,
  (length l <= n)%nat ->
  Forall no_quote l -> Forall no_quote cur ->
  Forall (Forall no_quote) (splitlines l cur).
Proof.
  induction n as [|n IH]; intros l cur Hn Hl Hcur.
  - destruct l; [|simpl in Hn; lia]. by apply last_line_no_quote.
  - destruct l as [|c l]; [by apply last_line_no_quote|].
    apply Forall_cons in Hl as [Hc Hl]. simpl in Hn. simpl.
    assert (Hline : Forall no_quote (cur ++ [c])).
    { apply Forall_app. split; [done|]. by constructor. }
    destruct (eqc c CR).
    + destruct l as [|d l].
      * constructor; [done|constructor].
      * apply Forall_cons in Hl as [Hd Hl]. simpl in Hn.
        destruct (eqc d NL).
        -- constructor; [|apply IH; [lia|done|constructor]].
           apply Forall_app. split; [done|]. constructor; [done|]. by constructor.
        -- constructor; [done|]. apply IH; [simpl; lia|by constructor|constructor].
    + destruct (is_linebreak c).
      * constructor; [done|]. apply IH; [lia|done|constructor].
      * apply IH; [lia|done|done].
Qed.

(** The first line of a text that opens with a quote opens with it. *)
Lemma splitlines_first_quote n : forall l cur,
  (length l <= n)%nat ->
  Forall no_quote l -> Forall no_quote cur ->
  exists x rest,
    splitlines l (QUOTE :: cur) = (QUOTE :: x) :: rest /\
    Forall no_quote x /\ Forall (Forall no_quote) rest.
Proof.
  induction n as [|n IH]; intros l cur Hn Hl Hcur.
  - destruct l; [|simpl in Hn; lia]. simpl. exists cur, []. split; [done|].
    split; [done|constructor].
  - destruct l as [|c l].
    { simpl. exists cur, []. split; [done|]. split; [done|constructor]. }
    apply Forall_cons in Hl as [Hc Hl]. simpl in Hn. simpl.
    assert (Hline : Forall no_quote (cur ++ [c])).
    { apply Forall_app. split; [done|]. by constructor. }
    destruct (eqc c CR).
    + destruct l as [|d l].
      * exists (cur ++ [c]), []. split; [done|]. split; [done|constructor].
      * apply Forall_cons in Hl as [Hd Hl]. simpl in Hn.
        destruct (eqc d NL).
        -- exists (cur ++ [c; d]), (splitlines l []). split; [done|]. split.
           ++ apply Forall_app. split; [done|]. constructor; [done|]. by constructor.
           ++ apply (splitlines_no_quote n); [lia|done|constructor].
        -- exists (cur ++ [c]), (splitlines (d :: l) []). split; [done|].
           split; [done|].
           apply (splitlines_no_quote n); [simpl; lia|by constructor|constructor].
    + destruct (is_linebreak c).
      * exists (cur ++ [c]), (splitlines l []). split; [done|]. split; [done|].
        apply (splitlines_no_quote n); [lia|done|constructor].
      * apply (IH l (cur ++ [c])); [lia|done|done].
Qed.

Lemma strip_comments_open_quote s :
  Forall no_quote s ->
  exists s', strip_comments (QUOTE :: s) = QUOTE :: s' /\ Forall no_quote s'.
Proof.
  intros Hs. unfold strip_comments.
  change (splitlines (QUOTE :: s) []) with (splitlines s [QUOTE]).
  destruct (splitlines_first_quote (length s) s [] ltac:(lia) Hs ltac:(constructor))
    as (x & rest & -> & Hx & Hrest).
  cbn [map concat]. rewrite not_a_comment_line.
  exists (x ++ concat (map (fun ln => if is_comment_line ln then [NL] else ln) rest)).
  split; [done|]. apply Forall_app. split; [done|].
  induction Hrest as [|ln rest Hln _ IH]; simpl; [constructor|].
  apply Forall_app. split; [|done].
  destruct (is_comment_line ln); [|done]. constructor; [done|constructor].
Qed.

(** Without a quote ahead, the loop of the string branch runs to the end of
    the source. *)
Lemma read_string_loop_to_the_end src n : forall pos ln buf hi,
  Forall no_quote (drop pos src) ->
  (length src <= pos + n)%nat ->
  (length src <= (read_string_loop src n pos ln buf hi).1.1.1)%nat.
Proof.
  induction n as [|n IH]; intros pos ln buf hi Hq Hn; simpl; [lia|].
  destruct (src !! pos) as [c|] eqn:Hc; simpl; [|by apply lookup_ge_None].
  assert (Hc' : eqc c QUOTE = false).
  { rewrite Forall_forall in Hq. apply (Hq c).
    apply list_elem_of_lookup. exists 0%nat. by rewrite lookup_drop, Nat.add_0_r. }
  rewrite Hc'.
  assert (Hdrop : forall k, Forall no_quote (drop (pos + k) src)).
  { intros k. rewrite <- drop_drop. by apply Forall_drop. }
  assert (Hplain : forall l b h,
             (length src <= (read_string_loop src n (S pos) l b h).1.1.1)%nat).
  { intros l b h. apply IH; [|lia].
    replace (S pos) with (pos + 1)%nat by lia. apply Hdrop. }
  destruct (eqc c BACKSLASH); [|apply Hplain].
  destruct (src !! (pos + 1)%nat) as [nxt|] eqn:Hnxt; [|apply Hplain].
  apply lookup_lt_Some in Hnxt.
  assert (Hesc : forall l b h,
             (length src <= (read_string_loop src n (pos + 2) l b h).1.1.1)%nat).
  { intros l b h. apply IH; [apply Hdrop|lia]. }
  repeat case_match; auto.
Qed.

(** X18: a source that opens a string with its first character and has no
    other quote is refused: the lexer raises the unclosed-string error, and
    the error names line 1, where the string starts, however many lines the
    text goes on for. *)
Theorem unclosed_string_is_an_error (s : list ascii) :
  Forall (fun c => eqc c QUOTE = false) s ->
  tokenize (string_of_list_ascii (QUOTE :: s)) = Raised (UnclosedString 1).
Proof.
  intros Hs. unfold tokenize. rewrite list_ascii_of_string_of_list_ascii.
  destruct (strip_comments_open_quote s Hs) as (s' & -> & Hs').
  rewrite (tokenize_loop_string (QUOTE :: s') _ 0 1 [] eq_refl).
  pose proof (read_string_loop_to_the_end (QUOTE :: s') (length (QUOTE :: s'))
                1 1 [] false Hs' ltac:(lia)) as Hend.
  destruct (read_string_loop (QUOTE :: s') (length (QUOTE :: s')) 1 1 [] false)
    as [[[pos' ln'] buf] hi]. cbn [fst] in Hend.
  by destruct (Nat.leb_spec (length (QUOTE :: s')) pos'); [|lia].
Qed.

Lemma unclosed_string_is_an_error_witness :
  tokenize (string_of_list_ascii [QUOTE; "a"%char; NL; "b"%char])
  = Raised (UnclosedString 1).
Proof.
  apply (unclosed_string_is_an_error ["a"%char; NL; "b"%char]).
  by repeat constructor.
Defined.

(** ** Comment lines *)

(** What [strip_comments] does to one line. *)
Definition blank_comment (ln : list ascii) : list ascii :=
  if is_comment_line ln then [NL] else ln.

(** Lines as [splitlines] cuts a text whose line breaks are all newlines:
    each one closed by its newline, but for a last one that may be open. *)
Inductive newline_lines : list (list ascii) -> Prop :=
| no_line : newline_lines []
| open_line body :
    Forall (fun c => is_linebreak c = false) body -> body <> [] ->
    newline_lines [body]
| closed_line body rest :
    Forall (fun c => is_linebreak c = false) body -> newline_lines rest ->
    newline_lines ((body ++ [NL]) :: rest).

Lemma splitlines_closed_line body : forall rest cur,
  Forall (fun c => is_linebreak c = false) body ->
  splitlines (body ++ NL :: rest) cur = (cur ++ body ++ [NL]) :: splitlines rest [].
Proof.
  induction body as [|c body IH]; intros rest cur Hb; simpl; [done|].
  apply Forall_cons in Hb as [Hc Hb]. rewrite (no_break_no_cr c Hc), Hc.
  rewrite IH by done. by rewrite <- app_assoc.
Qed.

Lemma splitlines_concat ls : newline_lines ls -> splitlines (concat ls) [] = ls.
Proof.
  induction 1 as [|body Hb Hne|body rest Hb _ IH]; simpl.
  - done.
  - rewrite app_nil_r. by rewrite splitlines_one_line.
  - rewrite <- app_assoc. simpl. rewrite splitlines_closed_line by done.
    by rewrite IH.
Qed.

Lemma newline_lines_of l :
  Forall (fun c => is_linebreak c = true -> c = NL) l ->
  exists ls, newline_lines ls /\ concat ls = l.
Proof.
  induction 1 as [|c l Hc _ (ls & Hls & <-)].
  - exists []. split; [constructor|done].
  - destruct (is_linebreak c) eqn:Hb.
    + rewrite (Hc eq_refl). exists (([] ++ [NL]) :: ls). split; [|done].
      by apply closed_line.
    + destruct Hls as [|body Hbody Hne|body rest Hbody Hrest].
      * exists [[c]]. split; [|done]. apply open_line; [|done]. by repeat constructor.
      * exists [c :: body]. split; [|done]. apply open_line; [|done]. by constructor.
      * exists (((c :: body) ++ [NL]) :: rest). split; [|done].
        apply closed_line; [|done]. by constructor.
Qed.

Lemma newline_lines_blank ls :
  newline_lines ls -> newline_lines (map blank_comment ls).
Proof.
  induction 1 as [|body Hb Hne|body rest Hb _ IH]; simpl.
  - constructor.
  - unfold blank_comment. destruct (is_comment_line body).
    + apply (closed_line []); constructor.
    + by apply open_line.
  - unfold blank_comment at 1. destruct (is_comment_line (body ++ [NL])).
    + by apply (closed_line []).
    + by apply closed_line.
Qed.

(** X19: comment stripping keeps the lines one for one: for a source whose
    line breaks are all newlines (no other character at which
    [str.splitlines] ends a line occurs in it), line k of what
    [strip_comments] returns is line k of the source, or a blank line when
    line k was a comment, so the line numbers the lexer counts are those of
    the source. *)
Theorem comment_lines_become_blank (source : list ascii) :
  Forall (fun c => is_linebreak c = true -> c = NL) source ->
  splitlines (strip_comments source) [] = map blank_comment (splitlines source []).
Proof.
  intros (ls & Hls & <-)%newline_lines_of.
  unfold strip_comments. rewrite (splitlines_concat ls Hls).
  apply splitlines_concat. by apply newline_lines_blank.
Qed.

Lemma comment_lines_become_blank_witness :
  splitlines (strip_comments (list_ascii_of_string
                                (String.append "Note: x" (String NL "Let y be 1."))))
             []
  = [[NL]; list_ascii_of_string "Let y be 1."].
Proof.
  refine (comment_lines_become_blank
            (list_ascii_of_string (String.append "Note: x" (String NL "Let y be 1.")))
            _).
  repeat constructor; intros Hb; first [discriminate Hb | reflexivity].
Defined.

(** ** Characters beyond ASCII

    The classification methods of [str] reach beyond ASCII, and the lexer
    with them: a superscript two is a digit for [read_number], an accented
    letter starts a word and a vulgar fraction goes on with it; the
    next-line character ends a line for [strip_comments], so that a quoted
    text with [Note:] right after it loses its closing quote; and a
    no-break space before [Note:] is stripped like a blank. *)

Example superscript_in_a_number :
  tokenize (String "1" (String "178" EmptyString))
  = Tokens [mkToken NUMBER (String "1" (String "178" EmptyString)) 1;
            mkToken EOF EmptyString 1].
Proof. reflexivity. Qed.

Example accented_word :
  tokenize (String "233" (String "x" (String "189" EmptyString)))
  = Tokens [mkToken WORD (String "233" (String "x" (String "189" EmptyString))) 1;
            mkToken EOF EmptyString 1].
Proof. reflexivity. Qed.

Example next_line_inside_quotes :
  tokenize (string_of_list_ascii
              (QUOTE :: "a"%char :: "133"%char
                     :: list_ascii_of_string "Note: b" ++ [QUOTE]))
  = Raised (UnclosedString 1).
Proof. reflexivity. Qed.

Example no_break_space_before_note :
  strip_comments ("160"%char :: list_ascii_of_string "Note: b") = [NL].
Proof. reflexivity. Qed.

End LiteralFacts.

(* ===================================================================== *)
(** * Parser: arithmetic expressions ([parser.py], [parse_expr], [parse_term])

    The two layers of the expression grammar above [parse_factor], which is
    taken as given, as [parse_single_condition] is for the conditions. *)
(* ===================================================================== *)

Module ExprParser.
Import Chars Lexer Parser.
Local Open Scope string_scope.

Section Expr.
(** The nodes [parse_factor] returns. *)
Variable F : Type.
(** [self.tokens] *)
Variable tokens : list Token.
(** [parse_factor], a function of the cursor. *)
Variable parse_factor : nat -> presult F.

(** The nodes the two layers build over those of [parse_factor]. *)
Inductive node :=
| Factor (f : F)
| BinOp (left : node) (op : string) (right : node) (line : Z)
| ContainsExpr (haystack needle : node) (line : Z)
| AsNumber (e : node) (line : Z)
| AsText (e : node) (line : Z).

(** [self.current().type in types] *)
Definition type_in (types : list token_type) (pos : nat) : option bool :=
  match current tokens pos with
  | Some tok => Some (bool_decide (type tok ∈ types))
  | None => None
  end.

(** [expect_word]: the error keeps the line and the text of the token that
    was found. *)
Definition expect_word (words : list string) (pos : nat) : presult Token :=
  match advance tokens pos with
  | None => IndexError
  | Some (tok, pos') =>
      if bool_decide (type tok = WORD)
         && existsb (String.eqb (lower_string (value tok))) (map lower_string words)
      then Parsed tok pos'
      else ParseError (line tok) (value tok)
  end.

(** The operator a token of [parse_term] stands for, and the cursor after
    it: [divided] wants its [by]. *)
Definition term_operator (tok : Token) (pos : nat) : presult string :=
  let v := lower_string (value tok) in
  if String.eqb v "/" || bool_decide (type tok = SLASH) then Parsed "divided_by" pos
  else if String.eqb v "%" || bool_decide (type tok = PERCENT) then Parsed "modulo" pos
  else if String.eqb v "divided" then
    match expect_word ["by"] pos with
    | Parsed _ pos' => Parsed "divided_by" pos'
    | ParseError l f => ParseError l f
    | IndexError => IndexError
    | Unfinished => Unfinished
    end
  else if String.eqb v "modulo" then Parsed "modulo" pos
  else Parsed "times" pos.

(** The [while] of [parse_term], one round per unit of [n]. *)
Fixpoint term_loop (n : nat) (line : Z) (lhs : node) (pos : nat) : presult node :=
  match word_is tokens ["times"; "divided"; "modulo"] pos,
        type_in [STAR; SLASH; PERCENT] pos with
  | Some w, Some t =>
      if w || t then
        match n with
        | O => Unfinished
        | S n' =>
            match advance tokens pos with
            | None => IndexError
            | Some (tok, pos1) =>
                match term_operator tok pos1 with
                | Parsed op pos2 =>
                    match parse_factor pos2 with
                    | Parsed rhs pos3 =>
                        term_loop n' line (BinOp lhs op (Factor rhs) line) pos3
                    | ParseError l f => ParseError l f
                    | IndexError => IndexError
                    | Unfinished => Unfinished
                    end
                | ParseError l f => ParseError l f
                | IndexError => IndexError
                | Unfinished => Unfinished
                end
            end
        end
      else Parsed lhs pos
  | _, _ => IndexError
  end.

(** [parse_term] *)
Definition parse_term (pos : nat) : presult node :=
  match current tokens pos with
  | None => IndexError
  | Some tok =>
      match parse_factor pos with
      | Parsed lhs pos1 => term_loop (length tokens) (line tok) (Factor lhs) pos1
      | ParseError l f => ParseError l f
      | IndexError => IndexError
      | Unfinished => Unfinished
      end
  end.

(** [self.word_is(...)] where the cursor is on a token, as it is after
    [advance]. *)
Definition word_here (words : list string) (pos : nat) : bool :=
  default false (word_is tokens words pos).

(** The [while True] of [parse_expr]; [n] bounds its rounds together with
    the calls of [parse_expr] that the [contains] branch makes. *)
Fixpoint expr_loop (n : nat) (line : Z) (lhs : node) (pos : nat) : presult node :=
  match current tokens pos with
  | None => IndexError
  | Some cur =>
      if word_here ["plus"; "minus"] pos
         || bool_decide (type cur ∈ [PLUS; MINUS]) then
        match n with
        | O => Unfinished
        | S n' =>
            match advance tokens pos with
            | None => IndexError
            | Some (tok, pos1) =>
                let op := if String.eqb (value tok) "+" || String.eqb (value tok) "plus"
                          then "plus" else "minus" in
                match parse_term pos1 with
                | Parsed rhs pos2 => expr_loop n' line (BinOp lhs op rhs line) pos2
                | other => other
                end
            end
        end
      else if word_here ["contains"] pos then
        match n with
        | O => Unfinished
        | S n' =>
            match advance tokens pos with
            | None => IndexError
            | Some (_, pos1) =>
                (* right = self.parse_expr() *)
                match current tokens pos1 with
                | None => IndexError
                | Some tok1 =>
                    match parse_term pos1 with
                    | Parsed l1 pos2 =>
                        match expr_loop n' (Lexer.line tok1) l1 pos2 with
                        | Parsed rhs pos3 =>
                            expr_loop n' line (ContainsExpr lhs rhs line) pos3
                        | other => other
                        end
                    | other => other
                    end
                end
            end
        end
      else if word_here ["as"] pos then
        match n with
        | O => Unfinished
        | S n' =>
            match advance tokens pos with
            | None => IndexError
            | Some (_, pos1) =>
                match current tokens pos1 with
                | None => IndexError
                | Some _ =>
                    let pos2 := if word_here ["a"] pos1
                                then match advance tokens pos1 with
                                     | Some (_, p) => p
                                     | None => pos1
                                     end
                                else pos1 in
                    if word_here ["number"; "numbers"] pos2 then
                      match advance tokens pos2 with
                      | Some (_, pos3) => expr_loop n' line (AsNumber lhs line) pos3
                      | None => IndexError
                      end
                    else if word_here ["text"] pos2 then
                      match advance tokens pos2 with
                      | Some (_, pos3) => expr_loop n' line (AsText lhs line) pos3
                      | None => IndexError
                      end
                    else Parsed lhs pos   (* self.pos = saved_pos; break *)
                end
            end
        end
      else Parsed lhs pos
  end.

(** [parse_expr] *)
Definition parse_expr (pos : nat) : presult node :=
  match current tokens pos with
  | None => IndexError
  | Some tok =>
      match parse_term pos with
      | Parsed lhs pos1 => expr_loop (length tokens) (line tok) lhs pos1
      | other => other
      end
  end.

End Expr.

Arguments Factor {F} f.
Arguments BinOp {F} left op right line.
Arguments ContainsExpr {F} haystack needle line.
Arguments AsNumber {F} e line.
Arguments AsText {F} e line.

End ExprParser.

(* ===================================================================== *)
(** * Arithmetic expressions: precedence, grouping, and the word plus *)
(* ===================================================================== *)

Module ExprFacts.
Import Chars Lexer Parser ExprParser.
Local Open Scope string_scope.

(** A token that is the lower-case or upper-case word [w]. *)
Definition is_word (w : string) (tok : Token) : bool :=
  bool_decide (type tok = WORD) && String.eqb (lower_string (value tok)) w.

(** The tokens that continue the loop of [parse_term]. *)
Definition term_op (tok : Token) : bool :=
  is_word "times" tok || is_word "divided" tok || is_word "modulo" tok
  || bool_decide (type tok ∈ [STAR; SLASH; PERCENT]).

(** The tokens that continue the loop of [parse_expr]. *)
Definition expr_op (tok : Token) : bool :=
  is_word "plus" tok || is_word "minus" tok || is_word "contains" tok
  || is_word "as" tok || bool_decide (type tok ∈ [PLUS; MINUS]).

Section Shapes.
Variable F : Type.
Variable tokens : list Token.
Variable parse_factor : nat -> presult F.

Local Abbreviation after := (ConditionFacts.after tokens).

(** The cursor is on a token that continues neither loop. *)
Definition operand_ends (pos : nat) : Prop :=
  exists tok, tokens !! pos = Some tok /\ term_op tok = false /\ expr_op tok = false.

Lemma advance_lookup pos tok :
  tokens !! pos = Some tok -> advance tokens pos = Some (tok, after pos).
Proof. intros Ht. unfold advance. by rewrite Ht. Qed.

Lemma after_in_range pos : (pos < length tokens)%nat -> (after pos < length tokens)%nat.
Proof.
  intros Hlt. unfold ConditionFacts.after.
  destruct (Nat.ltb_spec pos (length tokens - 1)); lia.
Qed.

Lemma term_loop_at n line lhs pos tok :
  tokens !! pos = Some tok ->
  term_loop F tokens parse_factor n line lhs pos
  = if term_op tok then
      match n with
      | O => Unfinished
      | S n' =>
          match term_operator tokens tok (after pos) with
          | Parsed op pos2 =>
              match parse_factor pos2 with
              | Parsed rhs pos3 =>
                  term_loop F tokens parse_factor n' line
                            (BinOp lhs op (Factor rhs) line) pos3
              | ParseError l f => ParseError l f
              | IndexError => IndexError
              | Unfinished => Unfinished
              end
          | ParseError l f => ParseError l f
          | IndexError => IndexError
          | Unfinished => Unfinished
          end
      end
    else Parsed lhs pos.
Proof.
  intros Ht.
  assert (Hcond : word_is tokens ["times"; "divided"; "modulo"] pos = Some
                    (is_word "times" tok || is_word "divided" tok
                     || is_word "modulo" tok)).
  { unfold word_is, current. rewrite Ht. unfold is_word. simpl.
    destruct (bool_decide (type tok = WORD)); simpl; [|done].
    by rewrite orb_false_r, orb_assoc. }
  destruct n; cbn [term_loop]; rewrite Hcond; unfold type_in, current; rewrite Ht;
    unfold term_op; [done|].
  by rewrite (advance_lookup pos tok Ht).
Qed.

Lemma word_here_at words pos tok :
  tokens !! pos = Some tok ->
  word_here tokens words pos
  = bool_decide (type tok = WORD)
    && existsb (String.eqb (lower_string (value tok))) (map lower_string words).
Proof. intros Ht. unfold word_here, word_is, current. by rewrite Ht. Qed.

Lemma plus_minus_here pos tok :
  tokens !! pos = Some tok ->
  word_here tokens ["plus"; "minus"] pos = is_word "plus" tok || is_word "minus" tok.
Proof.
  intros Ht. rewrite (word_here_at _ _ _ Ht). unfold is_word. simpl.
  destruct (bool_decide (type tok = WORD)); simpl; [|done]. by rewrite orb_false_r.
Qed.

Lemma one_word_here w pos tok :
  lower_string w = w ->
  tokens !! pos = Some tok ->
  word_here tokens [w] pos = is_word w tok.
Proof.
  intros Hw Ht. rewrite (word_here_at _ _ _ Ht). unfold is_word. simpl. rewrite Hw.
  destruct (bool_decide (type tok = WORD)); simpl; [|done]. by rewrite orb_false_r.
Qed.

(** The loop of [parse_expr] on a token that does not continue it. *)
Lemma expr_loop_end n line lhs pos tok :
  tokens !! pos = Some tok ->
  expr_op tok = false ->
  expr_loop F tokens parse_factor n line lhs pos = Parsed lhs pos.
Proof.
  intros Ht Hop. unfold expr_op in Hop.
  apply orb_false_elim in Hop as [Hop Hsym].
  apply orb_false_elim in Hop as [Hop Has].
  apply orb_false_elim in Hop as [Hop Hcontains].
  destruct n; cbn [expr_loop]; unfold current; rewrite Ht;
    rewrite (plus_minus_here pos tok Ht), Hop, Hsym;
    rewrite (one_word_here "contains" pos tok eq_refl Ht), Hcontains;
    rewrite (one_word_here "as" pos tok eq_refl Ht), Has; done.
Qed.

(** One round of the loop of [parse_expr] on a plus or minus token. *)
Lemma expr_loop_step n line lhs pos tok :
  tokens !! pos = Some tok ->
  is_word "plus" tok || is_word "minus" tok || bool_decide (type tok ∈ [PLUS; MINUS])
  = true ->
  expr_loop F tokens parse_factor (S n) line lhs pos
  = match parse_term F tokens parse_factor (after pos) with
    | Parsed rhs pos2 =>
        expr_loop F tokens parse_factor n line
          (BinOp lhs (if String.eqb (value tok) "+" || String.eqb (value tok) "plus"
                      then "plus" else "minus") rhs line) pos2
    | other => other
    end.
Proof.
  intros Ht Hop. cbn [expr_loop]. unfold current. rewrite Ht.
  rewrite (plus_minus_here pos tok Ht), Hop.
  by rewrite (advance_lookup pos tok Ht).
Qed.

(** [parse_term] on a factor that no operator of its loop follows. *)
Lemma parse_term_one pos t A pos1 tok1 :
  tokens !! pos = Some t ->
  parse_factor pos = Parsed A pos1 ->
  tokens !! pos1 = Some tok1 ->
  term_op tok1 = false ->
  parse_term F tokens parse_factor pos = Parsed (Factor A) pos1.
Proof.
  intros Ht HA H1 Hop. unfold parse_term, current. rewrite Ht, HA.
  by rewrite (term_loop_at _ _ _ _ _ H1), Hop.
Qed.

Lemma tokens_not_empty pos tok : tokens !! pos = Some tok -> (0 < length tokens)%nat.
Proof. intros Ht%lookup_lt_Some. lia. Qed.

Lemma after_has_token pos tok :
  tokens !! pos = Some tok -> is_Some (tokens !! after pos).
Proof.
  intros Ht%lookup_lt_Some. apply lookup_lt_is_Some. by apply after_in_range.
Qed.

(** X20: multiplication binds tighter than addition: in [A plus B times C]
    (the word or the symbol for either operator) the right operand of the
    [plus] node is the [times] node of [B] and [C], whatever the three
    factors are. *)
Theorem times_binds_tighter p0 p1 p2 p3 t0 tplus t1 ttimes A B C :
  tokens !! p0 = Some t0 ->
  parse_factor p0 = Parsed A p1 ->
  tokens !! p1 = Some tplus ->
  (type tplus = WORD /\ value tplus = "plus") \/ (type tplus = PLUS /\ value tplus = "+") ->
  tokens !! after p1 = Some t1 ->
  parse_factor (after p1) = Parsed B p2 ->
  tokens !! p2 = Some ttimes ->
  (type ttimes = WORD /\ lower_string (value ttimes) = "times")
  \/ (type ttimes = STAR /\ value ttimes = "*") ->
  parse_factor (after p2) = Parsed C p3 ->
  operand_ends p3 ->
  parse_expr F tokens parse_factor p0
  = Parsed (BinOp (Factor A) "plus"
                  (BinOp (Factor B) "times" (Factor C) (line t1)) (line t0))
           p3.
Proof.
  intros H0 HA Hp Hplus H1 HB Ht Htimes HC (t3 & H3 & Hterm3 & Hexpr3).
  assert (Hplus_term : term_op tplus = false).
  { unfold term_op, is_word. destruct Hplus as [[-> ->]|[-> ->]]; done. }
  assert (Hplus_expr : is_word "plus" tplus || is_word "minus" tplus
                       || bool_decide (type tplus ∈ [PLUS; MINUS]) = true).
  { unfold is_word. destruct Hplus as [[-> ->]|[-> ->]]; done. }
  assert (Hplus_op : String.eqb (value tplus) "+" || String.eqb (value tplus) "plus"
                     = true).
  { destruct Hplus as [[_ ->]|[_ ->]]; done. }
  assert (Htimes_term : term_op ttimes = true).
  { unfold term_op, is_word. destruct Htimes as [[-> ->]|[-> ->]]; done. }
  assert (Htimes_op : term_operator tokens ttimes (after p2) = Parsed "times" (after p2)).
  { unfold term_operator. destruct Htimes as [[-> ->]|[-> ->]]; done. }
  unfold parse_expr, current. rewrite H0.
  rewrite (parse_term_one p0 t0 A p1 tplus H0 HA Hp Hplus_term).
  pose proof (tokens_not_empty p0 t0 H0) as Hlen.
  destruct (length tokens) as [|n] eqn:Hn; [lia|].
  rewrite (expr_loop_step n _ _ p1 tplus Hp Hplus_expr). rewrite Hplus_op.
  unfold parse_term, current. rewrite H1, HB, Hn.
  rewrite (term_loop_at _ _ _ _ _ Ht), Htimes_term, Htimes_op, HC.
  rewrite (term_loop_at _ _ _ _ _ H3), Hterm3.
  by apply expr_loop_end with (tok := t3).
Qed.

(** X21: operators of one layer group to the left: [A minus B plus C] is
    the [plus] node of the [minus] node of [A] and [B], and of [C]; the
    later operator does not take the earlier operand for itself. *)
Theorem minus_then_plus_groups_left p0 p1 p2 p3 t0 tminus t1 tplus t2 A B C :
  tokens !! p0 = Some t0 ->
  parse_factor p0 = Parsed A p1 ->
  tokens !! p1 = Some tminus ->
  (type tminus = WORD /\ lower_string (value tminus) = "minus")
  \/ (type tminus = MINUS /\ value tminus = "-") ->
  tokens !! after p1 = Some t1 ->
  parse_factor (after p1) = Parsed B p2 ->
  tokens !! p2 = Some tplus ->
  (type tplus = WORD /\ value tplus = "plus") \/ (type tplus = PLUS /\ value tplus = "+") ->
  tokens !! after p2 = Some t2 ->
  parse_factor (after p2) = Parsed C p3 ->
  operand_ends p3 ->
  parse_expr F tokens parse_factor p0
  = Parsed (BinOp (BinOp (Factor A) "minus" (Factor B) (line t0)) "plus" (Factor C)
                  (line t0))
           p3.
Proof.
  intros H0 HA Hm Hminus H1 HB Hp Hplus H2 HC (t3 & H3 & Hterm3 & Hexpr3).
  assert (Hminus_term : term_op tminus = false).
  { unfold term_op, is_word. destruct Hminus as [[-> ->]|[-> ->]]; done. }
  assert (Hminus_expr : is_word "plus" tminus || is_word "minus" tminus
                        || bool_decide (type tminus ∈ [PLUS; MINUS]) = true).
  { unfold is_word. destruct Hminus as [[-> ->]|[-> ->]]; done. }
  assert (Hminus_op : String.eqb (value tminus) "+" || String.eqb (value tminus) "plus"
                      = false).
  { destruct Hminus as [[_ Hv]|[_ ->]]; [|done].
    destruct (String.eqb_spec (value tminus) "+") as [He|_];
      [by rewrite He in Hv|].
    destruct (String.eqb_spec (value tminus) "plus") as [He|_];
      [by rewrite He in Hv|]. done. }
  assert (Hplus_term : term_op tplus = false).
  { unfold term_op, is_word. destruct Hplus as [[-> ->]|[-> ->]]; done. }
  assert (Hplus_expr : is_word "plus" tplus || is_word "minus" tplus
                       || bool_decide (type tplus ∈ [PLUS; MINUS]) = true).
  { unfold is_word. destruct Hplus as [[-> ->]|[-> ->]]; done. }
  assert (Hplus_op : String.eqb (value tplus) "+" || String.eqb (value tplus) "plus"
                     = true).
  { destruct Hplus as [[_ ->]|[_ ->]]; done. }
  assert (Hlen : (2 <= length tokens)%nat).
  { assert (p1 <> p2).
    { intros ->. rewrite Hm in Hp. injection Hp as ->.
      rewrite Hplus_op in Hminus_op. done. }
    apply lookup_lt_Some in Hm, Hp. lia. }
  unfold parse_expr, current. rewrite H0.
  rewrite (parse_term_one p0 t0 A p1 tminus H0 HA Hm Hminus_term).
  destruct (length tokens) as [|[|n]] eqn:Hn; [lia..|].
  rewrite (expr_loop_step _ _ _ p1 tminus Hm Hminus_expr). rewrite Hminus_op.
  rewrite (parse_term_one (after p1) t1 B p2 tplus H1 HB Hp Hplus_term).
  rewrite (expr_loop_step _ _ _ p2 tplus Hp Hplus_expr). rewrite Hplus_op.
  rewrite (parse_term_one (after p2) t2 C p3 t3 H2 HC H3 Hterm3).
  by apply expr_loop_end with (tok := t3).
Qed.

(** X22: the word [plus] counts as addition only when it is written in
    lower case: [parse_expr] finds the operator without regard to case, but
    compares the text of the token as it is written, so [Plus] or [PLUS]
    between two operands gives the [minus] node. *)
Theorem capital_plus_is_minus p0 p1 p2 t0 tplus t1 A B :
  tokens !! p0 = Some t0 ->
  parse_factor p0 = Parsed A p1 ->
  tokens !! p1 = Some tplus ->
  type tplus = WORD ->
  lower_string (value tplus) = "plus" ->
  value tplus <> "plus" ->
  tokens !! after p1 = Some t1 ->
  parse_factor (after p1) = Parsed B p2 ->
  operand_ends p2 ->
  parse_expr F tokens parse_factor p0
  = Parsed (BinOp (Factor A) "minus" (Factor B) (line t0)) p2.
Proof.
  intros H0 HA Hp Hty Hlow Hcap H1 HB (t2 & H2 & Hterm2 & Hexpr2).
  assert (Hplus_term : term_op tplus = false).
  { unfold term_op, is_word. by rewrite Hty, Hlow. }
  assert (Hplus_expr : is_word "plus" tplus || is_word "minus" tplus
                       || bool_decide (type tplus ∈ [PLUS; MINUS]) = true).
  { unfold is_word. by rewrite Hty, Hlow. }
  assert (Hplus_op : String.eqb (value tplus) "+" || String.eqb (value tplus) "plus"
                     = false).
  { destruct (String.eqb_spec (value tplus) "+") as [He|_];
      [by rewrite He in Hlow|].
    by destruct (String.eqb_spec (value tplus) "plus"). }
  unfold parse_expr, current. rewrite H0.
  rewrite (parse_term_one p0 t0 A p1 tplus H0 HA Hp Hplus_term).
  pose proof (tokens_not_empty p0 t0 H0) as Hlen.
  destruct (length tokens) as [|n] eqn:Hn; [lia|].
  rewrite (expr_loop_step n _ _ p1 tplus Hp Hplus_expr). rewrite Hplus_op.
  rewrite (parse_term_one (after p1) t1 B p2 t2 H1 HB H2 Hterm2).
  by apply expr_loop_end with (tok := t2).
Qed.

End Shapes.

(** ** Expressions from source text *)

(** A parser of factors that are one name or one number, to run the
    theorems. *)
Definition operand (tokens : list Token) (pos : nat) : presult string :=
  match tokens !! pos with
  | Some t =>
      if bool_decide (type t = WORD) || bool_decide (type t = NUMBER)
      then Parsed (value t) (ConditionFacts.after tokens pos)
      else ParseError (line t) (value t)
  | None => IndexError
  end.

Definition tokens_of (source : string) : list Token :=
  match tokenize source with
  | Tokens l => l
  | _ => []
  end.

Definition parse_source (source : string) : presult (node string) :=
  parse_expr string (tokens_of source) (operand (tokens_of source)) 0.

Lemma times_binds_tighter_witness :
  parse_source "a plus b * c."
  = Parsed (BinOp (Factor "a") "plus" (BinOp (Factor "b") "times" (Factor "c") 1) 1) 5.
Proof.
  refine (times_binds_tighter string (tokens_of "a plus b * c.")
            (operand (tokens_of "a plus b * c.")) 0 1 3 5
            (mkToken WORD "a" 1) (mkToken WORD "plus" 1) (mkToken WORD "b" 1)
            (mkToken STAR "*" 1) "a" "b" "c"
            eq_refl eq_refl eq_refl (or_introl (conj eq_refl eq_refl))
            eq_refl eq_refl eq_refl (or_intror (conj eq_refl eq_refl)) eq_refl _).
  exists (mkToken PERIOD "." 1). by vm_compute.
Defined.

Lemma minus_then_plus_groups_left_witness :
  parse_source "a - b plus c."
  = Parsed (BinOp (BinOp (Factor "a") "minus" (Factor "b") 1) "plus" (Factor "c") 1) 5.
Proof.
  refine (minus_then_plus_groups_left string (tokens_of "a - b plus c.")
            (operand (tokens_of "a - b plus c.")) 0 1 3 5
            (mkToken WORD "a" 1) (mkToken MINUS "-" 1) (mkToken WORD "b" 1)
            (mkToken WORD "plus" 1) (mkToken WORD "c" 1) "a" "b" "c"
            eq_refl eq_refl eq_refl (or_intror (conj eq_refl eq_refl))
            eq_refl eq_refl eq_refl (or_introl (conj eq_refl eq_refl))
            eq_refl eq_refl _).
  exists (mkToken PERIOD "." 1). by vm_compute.
Defined.

Lemma capital_plus_is_minus_witness :
  parse_source "a Plus b."
  = Parsed (BinOp (Factor "a") "minus" (Factor "b") 1) 3.
Proof.
  refine (capital_plus_is_minus string (tokens_of "a Plus b.")
            (operand (tokens_of "a Plus b.")) 0 1 3
            (mkToken WORD "a" 1) (mkToken WORD "Plus" 1) (mkToken WORD "b" 1) "a" "b"
            eq_refl eq_refl eq_refl eq_refl eq_refl _ eq_refl eq_refl _).
  - discriminate.
  - exists (mkToken PERIOD "." 1). by vm_compute.
Defined.

(** The same two operands with the word in lower case. *)
Example lower_case_plus_is_plus :
  parse_source "a plus b." = Parsed (BinOp (Factor "a") "plus" (Factor "b") 1) 3.
Proof. reflexivity. Qed.

End ExprFacts.

(* ===================================================================== *)
(** * The interpreter ([interpreter.py]): lists, texts, properties, and the
      two for-loops

    The nodes below are not among the [expr] and [stmt] above; each
    function takes the fields of its node as arguments, the sub-expressions
    being expressions of the fragment. *)
(* ===================================================================== *)

Module Builtins.
Import Chars Ast PyNum Runtime Interp.
Local Open Scope interp_scope.
Local Open Scope string_scope.

(** One more function of Python that is taken as given: [int(s)] for a
    text, the integer or the text of the [ValueError]. *)
Class HostInt := { int_of_str : string -> string + Z }.

Section WithHost.
Context `{Host} `{HostInt}.

(** [int(v)] for any value *)
Definition py_int_of (v : value) : M Z :=
  match v with
  | VBool b => ret (if b then 1 else 0)%Z
  | VInt n => ret n
  | VFloat f => py_int_of_float f
  | VStr s =>
      match int_of_str s with
      | inr n => ret n
      | inl msg => py_error "ValueError" msg
      end
  | _ =>
      py_error "TypeError"
        ("int() argument must be a string, a bytes-like object or a real number, not '"
         +:+ type_name v +:+ "'")
  end.

(** ** Lists *)



(** [_exec_add_to_list] *)
Definition _exec_add_to_list (value_expr : expr) (list_name : string) (line : Z)
    (env : Environment) : M unit :=
  do lst <- lift (get env list_name line) ;;
  match lst with
  | VList ref =>
      do v <- evaluate value_expr env ;;
      write (fun st => with_lists (fun s => <[ref := list_at st ref ++ [v]]> s)%list st)
  | _ => runtime_error (line_prefix line +:+ "'" +:+ list_name +:+ "' is not a list.")
  end.

(** [_exec_remove_from_list] *)
Definition _exec_remove_from_list (index_expr : expr) (list_name : string) (line : Z)
    (env : Environment) : M unit :=
  do lst <- lift (get env list_name line) ;;
  match lst with
  | VList ref =>
      do i <- evaluate index_expr env ;;
      do n <- py_int_of i ;;
      let idx := (n - 1)%Z in
      fun st =>
        let items := list_at st ref in
        if (idx <? 0)%Z || (Z.of_nat (length items) <=? idx)%Z
        then runtime_error
               (line_prefix line +:+ "Item " +:+ pretty (idx + 1)%Z
                +:+ " is out of range (list has " +:+ pretty (length items)
                +:+ " items).") st
        else (with_lists (fun s => <[ref := delete (Z.to_nat idx) items]> s) st, Ok tt)
  | _ => runtime_error (line_prefix line +:+ "'" +:+ list_name +:+ "' is not a list.")
  end.

(** ** Texts *)



(** ** Properties *)

(** [_exec_set_property] *)
Definition _exec_set_property (obj_expr : expr) (prop_name : string)
    (value_expr : expr) (line : Z) (env : Environment) : M unit :=
  do obj <- evaluate obj_expr env ;;
  do val <- evaluate value_expr env ;;
  match obj with
  | VInstance _ bag =>
      write (fun st =>
               with_bags (fun s => <[bag := <[prop_name := val]> (bag_at st bag)]> s) st)
  | VDict ref =>
      write (fun st =>
               with_dicts
                 (fun s => <[ref := dict_set (VStr prop_name) val (dict_at st ref)]> s)
                 st)
  | _ =>
      runtime_error
        (line_prefix line +:+ "Can only set properties on objects or dictionaries.")
  end.

(** [_eval_property_access], without the namespaces *)
Definition _eval_property_access (obj_expr : expr) (prop_name : string) (line : Z)
    (env : Environment) : M value :=
  do obj <- evaluate obj_expr env ;;
  match obj with
  | VInstance class_name bag =>
      fun st =>
        match bag_at st bag !! prop_name with
        | Some v => (st, Ok v)
        | None =>
            runtime_error
              (line_prefix line +:+ "Property '" +:+ prop_name
               +:+ "' not found on object of class '" +:+ class_name +:+ "'.") st
        end
  | VDict ref =>
      fun st =>
        if dict_mem (VStr prop_name) (dict_at st ref)
        then (st, Ok (default VNone (dict_get (VStr prop_name) (dict_at st ref))))
        else runtime_error
               (line_prefix line +:+ "Key '" +:+ prop_name
                +:+ "' not found in dictionary.") st
  | _ =>
      runtime_error
        (line_prefix line
         +:+ "Can only access properties on objects, modules or dictionaries (got "
         +:+ type_name obj +:+ ").")
  end.

(** ** The two for-loops *)

Section Loops.
(** [self.execute] *)
Variable execute : list stmt -> Environment -> M unit.

(** [for item in items] with the body of [_exec_for_each] *)
Fixpoint for_items (items : list value) (round : value -> M unit) : M unit :=
  match items with
  | [] => ret tt
  | item :: rest => do _ <- round item ;; for_items rest round
  end.

(** [_exec_for_each] *)
Definition _exec_for_each (var : string) (iterable : expr) (body : list stmt)
    (line : Z) (env : Environment) : M unit :=
  do it <- evaluate iterable env ;;
  do items <- match it with
              | VStr s =>
                  ret (map (fun c => VStr (String c EmptyString))
                           (list_ascii_of_string s))
              | VList ref => read (fun st => list_at st ref)
              | _ =>
                  runtime_error
                    (line_prefix line
                     +:+ "I can only use 'For each' on a list or text.")
              end ;;
  do child_env <- new_env (Some env) ;;
  catch_stop
    (for_items items
       (fun item =>
          do _ <- write (assign child_env var item) ;;
          skip_continues
            (do round_env <- new_env (Some child_env) ;;
             execute body round_env))).

(** The length of [range(start, stop, step)], [step] not zero *)
Definition range_length (start stop step : Z) : Z :=
  if (0 <? step)%Z
  then (if (start <? stop)%Z then (stop - start - 1) / step + 1 else 0)%Z
  else (if (stop <? start)%Z then (start - stop - 1) / (- step) + 1 else 0)%Z.

(** [range(start, stop, step)], [step] not zero *)
Definition py_range (start stop step : Z) : list Z :=
  map (fun k => (start + Z.of_nat k * step)%Z)
      (seq 0 (Z.to_nat (range_length start stop step))).

(** [for i in range(...)] with the inner [try] of [_exec_range_loop]: the
    skip signal goes on with the next value, the stop signal leaves. *)
Fixpoint range_iter (items : list Z) (round : Z -> M unit) : M unit :=
  match items with
  | [] => ret tt
  | i :: rest =>
      fun st =>
        match round i st with
        | (st', Ok _) => range_iter rest round st'
        | (st', Raise (Error SkipException)) => range_iter rest round st'
        | (st', Raise (Error StopException)) => (st', Ok tt)
        | r => r
        end
  end.

(** [except Exception as e: raise RuntimeError_(...)] around the loop *)
Definition range_error (line : Z) (text : string) : exn :=
  Error (RuntimeError_ (line_prefix line +:+ "Error in range loop: " +:+ text) []).

Definition wrap_range_errors (line : Z) (loop : M unit) : M unit :=
  fun st =>
    match loop st with
    | (st', Raise e) => (st', Raise (range_error line (exn_str st' e)))
    | r => r
    end.

(** The three numbers of the loop, evaluated before the [try]. *)
Definition range_bounds (from_expr to_expr : expr) (step_expr : option expr)
    (env : Environment) : M (Z * Z * Z) :=
  do a <- evaluate from_expr env ;;
  do start <- py_int_of a ;;
  do b <- evaluate to_expr env ;;
  do last <- py_int_of b ;;
  do step <- match step_expr with
             | Some e => do c <- evaluate e env ;; py_int_of c
             | None => ret 1%Z
             end ;;
  ret (start, (last + 1)%Z, step).

(** One round: a new scope with the loop variable as its local. *)
Definition range_round (var_name : string) (body : list stmt) (env : Environment)
    (i : Z) : M unit :=
  do loop_env <- new_env (Some env) ;;
  do _ <- write (set_local loop_env var_name (VInt i)) ;;
  execute body loop_env.

(** [_exec_range_loop] *)
Definition _exec_range_loop (var_name : string) (from_expr to_expr : expr)
    (step_expr : option expr) (body : list stmt) (line : Z) (env : Environment)
  : M unit :=
  do bounds <- range_bounds from_expr to_expr step_expr env ;;
  let '(start, stop, step) := bounds in
  wrap_range_errors line
    (if (step =? 0)%Z
     then py_error "ValueError" "range() arg 3 must not be zero"
     else range_iter (py_range start stop step) (range_round var_name body env)).

End Loops.

End WithHost.

End Builtins.

(* ===================================================================== *)
(** * Facts about lists, texts, properties and the two for-loops *)
(* ===================================================================== *)

Module BuiltinFacts.
Import Ast PyNum Runtime Interp Scopes Sample Builtins.
Local Open Scope string_scope.

(** A host for the witnesses, for which no text is a numeral. *)
#[export] Instance host_int : HostInt := {|
  int_of_str := fun s =>
    inl ("invalid literal for int() with base 10: '" +:+ s +:+ "'") |}.


(** A lookup reads the scopes of its chain only. *)
Lemma get_same_chain st st' env name line :
  (forall c, c ∈ chain env -> cell st' c = cell st c) ->
  get env name line st' = get env name line st.
Proof.
  induction env as [vars|vars p IH] using Environment_chain_ind; simpl;
    intros Hcells; rewrite !vars_of_cell; simpl.
  - rewrite Hcells by left. done.
  - rewrite Hcells by left.
    destruct (cell st vars !! name); [done|].
    apply IH. intros c Hin. apply Hcells. by right.
Qed.

Section WithHost.
Context `{Host} `{HostInt}.


End WithHost.


(** ** What a loop does to the variables around it *)

(** The scopes of [env] hold at [st'] what they held at [st], and the
    state has the scope objects it had. *)
Definition same_variables (env : Environment) (st st' : State) : Prop :=
  (length (scopes st) <= length (scopes st'))%nat /\
  forall c, c ∈ chain env -> cell st' c = cell st c.

(** A body that writes to no scope of [env], in whatever scope it runs and
    whatever its outcome. *)
Definition leaves_variables (env : Environment) (run : Environment -> M unit)
  : Prop :=
  forall round_env st, same_variables env st (run round_env st).1.

(** A body that never ends with the stop signal. *)
Definition never_stops (run : Environment -> M unit) : Prop :=
  forall round_env st, (run round_env st).2 <> Raise (Error StopException).

Lemma same_variables_refl env st : same_variables env st st.
Proof. by split. Qed.

Lemma same_variables_trans env st1 st2 st3 :
  same_variables env st1 st2 -> same_variables env st2 st3 ->
  same_variables env st1 st3.
Proof.
  intros [Hl1 Hc1] [Hl2 Hc2]. split; [lia|].
  intros c Hin. by rewrite Hc2, Hc1.
Qed.

Lemma same_variables_valid env st st' :
  same_variables env st st' -> valid st env -> valid st' env.
Proof.
  intros [Hl _] [Hnd Hlt]. split; [done|].
  eapply Forall_impl; [exact Hlt|]. intros c; simpl. lia.
Qed.

Lemma same_variables_get env st st' name line :
  same_variables env st st' -> get env name line st' = get env name line st.
Proof. intros [_ Hc]. by apply get_same_chain. Qed.

Lemma same_variables_parent own p st st' :
  same_variables (Env own (Some p)) st st' -> same_variables p st st'.
Proof. intros [Hl Hc]. split; [done|]. intros c Hin. apply Hc. by right. Qed.

Lemma valid_parent own p st : valid st (Env own (Some p)) -> valid st p.
Proof.
  intros [Hnd Hlt]. simpl in *.
  apply NoDup_cons in Hnd as [_ Hnd]. apply Forall_cons in Hlt as [_ Hlt]. done.
Qed.

(** A new scope with one local leaves the scopes there were. *)
Lemma same_variables_block_local env st name v :
  valid st env ->
  same_variables env st (set_local (block_scope st env) name v (enter_block st)).
Proof.
  intros [_ Hlt]. split.
  - unfold set_local. rewrite scopes_length_store_var.
    unfold enter_block, with_scopes; simpl. rewrite length_app; simpl. lia.
  - intros c Hin. rewrite Forall_forall in Hlt. specialize (Hlt _ Hin).
    unfold set_local. rewrite cell_store_var_other by (simpl; lia).
    by apply cell_enter_block_old.
Qed.

Lemma same_variables_block env st :
  valid st env -> same_variables env st (enter_block st).
Proof.
  intros [_ Hlt]. split.
  - unfold enter_block, with_scopes; simpl. rewrite length_app; simpl. lia.
  - intros c Hin. rewrite Forall_forall in Hlt. specialize (Hlt _ Hin).
    by apply cell_enter_block_old.
Qed.

Lemma scopes_length_assign env name v st :
  length (scopes (assign env name v st)) = length (scopes st).
Proof.
  induction env as [vars|vars p IH] using Environment_chain_ind; simpl.
  - destruct (vars_of st (Env vars None) !! name);
      apply scopes_length_store_var.
  - destruct (vars_of st (Env vars (Some p)) !! name);
      [apply scopes_length_store_var|apply IH].
Qed.

Lemma skip_continues_state (m : M unit) st : (skip_continues m st).1 = (m st).1.
Proof.
  unfold skip_continues. by destruct (m st) as [st' [[]|[[]| ]|]].
Qed.

Lemma skip_continues_never_stops (m : M unit) st :
  (m st).2 <> Raise (Error StopException) ->
  (skip_continues m st).2 <> Raise (Error StopException).
Proof.
  unfold skip_continues. by destruct (m st) as [st' [[]|[[]| ]|]].
Qed.

Section Loops.
Context `{Host} `{HostInt}.
Variable execute : list stmt -> Environment -> M unit.
Variable body : list stmt.

(** *** The range loop *)

Section Range.
Variable env : Environment.
Variable var_name : string.
Hypothesis body_leaves : leaves_variables env (execute body).

Lemma range_round_same st i :
  valid st env ->
  same_variables env st (range_round execute var_name body env i st).1.
Proof.
  intros Hv. unfold range_round. unfold bind at 1. rewrite new_env_block.
  unfold bind, write.
  eapply same_variables_trans;
    [by apply (same_variables_block_local env st var_name (VInt i))|].
  pose proof (body_leaves (block_scope st env)
                (set_local (block_scope st env) var_name (VInt i) (enter_block st)))
    as Hb.
  by destruct (execute body _ _) as [st' [[]| |]].
Qed.

Lemma range_iter_same items st :
  valid st env ->
  same_variables env st
    (range_iter items (range_round execute var_name body env) st).1.
Proof.
  revert st. induction items as [|i items IH]; intros st Hv;
    [apply same_variables_refl|].
  cbn [range_iter]. pose proof (range_round_same st i Hv) as Hr.
  destruct (range_round execute var_name body env i st) as [st' r].
  cbn [fst] in Hr.
  pose proof (IH st' (same_variables_valid _ _ _ Hr Hv)) as Hrest.
  destruct r as [[]|[[]| ]|]; cbn [fst]; try done;
    by eapply same_variables_trans.
Qed.

End Range.

(** X24: the variable of a range loop is a local of each round. Around a
    body that writes to no scope of the place of the loop, the loop leaves
    every variable of that place as it was when the bounds had been
    evaluated, the loop variable too, however the loop ends: a variable of
    the same name is not changed, and none is created. *)
Theorem range_variable_is_local var_name from_expr to_expr step_expr line env
    st st1 bounds :
  leaves_variables env (execute body) ->
  valid st1 env ->
  range_bounds from_expr to_expr step_expr env st = (st1, Ok bounds) ->
  forall name line',
    get env name line'
        (_exec_range_loop execute var_name from_expr to_expr step_expr body line
                          env st).1
    = get env name line' st1.
Proof.
  intros Hbody Hv Hb name line'. apply same_variables_get.
  unfold _exec_range_loop. unfold bind at 1. rewrite Hb.
  destruct bounds as [[start stop] step]. unfold wrap_range_errors.
  destruct (step =? 0)%Z.
  - apply same_variables_refl.
  - pose proof (range_iter_same env var_name Hbody (py_range start stop step) st1 Hv)
      as Hs.
    by destruct (range_iter _ _ st1) as [st' [[]| |]].
Qed.

(** *** The loop over the items *)

Section ForEach.
Variable env : Environment.
Variable own : nat.
Variable var : string.
Hypothesis body_leaves : leaves_variables (Env own (Some env)) (execute body).
Hypothesis body_never_stops : never_stops (execute body).

(** The scope of the loop is a scope of the state and holds no loop
    variable. *)
Definition loop_scope_ok (st : State) : Prop :=
  valid st (Env own (Some env)) /\ cell st own !! var = None.

(** One round of [_exec_for_each] *)
Definition for_each_round (item : value) : M unit :=
  bind (write (assign (Env own (Some env)) var item))
    (fun _ =>
       skip_continues
         (bind (new_env (Some (Env own (Some env))))
               (fun round_env => execute body round_env))).

Lemma for_each_round_spec st item line :
  loop_scope_ok st ->
  loop_scope_ok (for_each_round item st).1 /\
  get env var line (for_each_round item st).1 = Ok item /\
  (for_each_round item st).2 <> Raise (Error StopException).
Proof.
  intros [Hv Hown]. pose proof (valid_parent _ _ _ Hv) as Hvp.
  assert (Hnotin : own ∉ chain env).
  { destruct Hv as [Hnd _]. simpl in Hnd. by apply NoDup_cons in Hnd as [? _]. }
  set (st1 := assign env var item st).
  assert (Hassign : assign (Env own (Some env)) var item st = st1).
  { simpl. rewrite vars_of_cell. simpl. by rewrite Hown. }
  assert (H1 : same_variables (Env own (Some env)) st1 (for_each_round item st).1 /\
               (for_each_round item st).2 <> Raise (Error StopException)).
  { unfold for_each_round. unfold bind at 1. unfold write. rewrite Hassign.
    assert (Hv1 : valid st1 (Env own (Some env))).
    { destruct Hv as [Hnd Hlt]. split; [done|]. unfold st1.
      by rewrite scopes_length_assign. }
    split.
    - rewrite skip_continues_state. unfold bind. rewrite new_env_block.
      eapply same_variables_trans; [by apply same_variables_block|].
      apply body_leaves.
    - apply skip_continues_never_stops. unfold bind. rewrite new_env_block.
      apply body_never_stops. }
  destruct H1 as [Hsame Hstop].
  split; [|split; [|done]].
  - split.
    + eapply same_variables_valid; [exact Hsame|].
      destruct Hv as [Hnd Hlt]. split; [done|]. unfold st1.
      by rewrite scopes_length_assign.
    + destruct Hsame as [_ Hc]. rewrite Hc by left.
      unfold st1. by rewrite ChainFacts.cell_assign_outside.
  - rewrite (same_variables_get env st1 _ var line
               (same_variables_parent _ _ _ _ Hsame)).
    by apply ChainFacts.get_after_assign.
Qed.

Lemma for_items_spec items st line :
  loop_scope_ok st ->
  (for_items items for_each_round st).2 <> Raise (Error StopException) /\
  ((for_items items for_each_round st).2 = Ok tt ->
   (items = [] -> (for_items items for_each_round st).1 = st) /\
   (forall item, last items = Some item ->
                 get env var line (for_items items for_each_round st).1 = Ok item)).
Proof.
  revert st. induction items as [|item items IH]; intros st Hok; [done|].
  cbn [for_items]. unfold bind.
  destruct (for_each_round_spec st item line Hok) as (Hok1 & Hget & Hstop).
  destruct (for_each_round item st) as [st1 r]. cbn [fst snd] in *.
  destruct r as [[]|e|]; [|by split..].
  destruct (IH st1 Hok1) as [Hs Hl]. split; [done|].
  intros Hr. destruct (Hl Hr) as [Hnil Hlast]. split; [done|].
  intros l. destruct items as [|item' items].
  - intros [= <-]. by rewrite Hnil.
  - intros Hl'. by apply Hlast.
Qed.

End ForEach.

(** X25: the variable of [For each] is not a local of the loop: each item
    is assigned through the scope chain, so that after the loop the place
    of the loop still has the variable, bound to the last item (and a
    variable of that name that was there before is overwritten). This is
    so for every loop over a list that is not empty and that comes to its
    end, the body writing to no scope around it and not stopping the
    loop. *)
Theorem for_each_variable_outlives_the_loop var iterable line env st st1 ref
    items item st' :
  leaves_variables (block_scope st1 env) (execute body) ->
  never_stops (execute body) ->
  valid st1 env ->
  evaluate iterable env st = (st1, Ok (VList ref)) ->
  list_at st1 ref = (items ++ [item])%list ->
  _exec_for_each execute var iterable body line env st = (st', Ok tt) ->
  forall line', get env var line' st' = Ok item.
Proof.
  intros Hleaves Hstop Hv He Hitems Hrun line'.
  unfold _exec_for_each in Hrun. unfold bind at 1 in Hrun. rewrite He in Hrun.
  unfold bind at 1 in Hrun. unfold read at 1 in Hrun. rewrite Hitems in Hrun.
  unfold bind at 1 in Hrun. rewrite new_env_block in Hrun.
  assert (Hok : loop_scope_ok env (length (scopes st1)) var (enter_block st1)).
  { split; [by apply valid_block|]. by rewrite cell_enter_block_new. }
  pose proof (for_items_spec env (length (scopes st1)) var Hleaves Hstop
                (items ++ [item])%list (enter_block st1) line' Hok) as [Hns Hlast].
  unfold for_each_round in Hns, Hlast. unfold block_scope in Hrun.
  unfold catch_stop in Hrun.
  destruct (for_items _ _ (enter_block st1)) as [st2 r]. cbn [fst snd] in *.
  destruct r as [[]|[[]| ]|]; try done.
  injection Hrun as <-. apply (Hlast eq_refl). apply last_snoc.
Qed.

End Loops.

(** A body that goes on with the next round at once. *)
Lemma skip_body_leaves env :
  leaves_variables env (exec_list (execute_stmt 1) [SkipStmt 2]).
Proof. intros round_env st. apply same_variables_refl. Qed.

Lemma skip_body_never_stops :
  never_stops (exec_list (execute_stmt 1) [SkipStmt 2]).
Proof. by intros round_env st. Qed.

Lemma range_variable_is_local_witness :
  get globals "i" 3
      (_exec_range_loop (exec_list (execute_stmt 1)) "i" (number 1 1) (number 3 1)
                        None [SkipStmt 2] 1 globals new_interpreter).1
  = Raise (name_not_found "i" 3).
Proof.
  rewrite (range_variable_is_local (exec_list (execute_stmt 1)) [SkipStmt 2] "i"
             (number 1 1) (number 3 1) None 1 globals new_interpreter
             new_interpreter (1, 4, 1)%Z (skip_body_leaves globals)
             ltac:(split; [apply NoDup_singleton|repeat constructor]) eq_refl "i" 3).
  reflexivity.
Defined.

Lemma for_each_variable_outlives_the_loop_witness :
  get globals "x" 3
      (_exec_for_each (exec_list (execute_stmt 1)) "x"
                      (ListLiteral [number 4 1; number 5 1] 1) [SkipStmt 2] 1
                      globals new_interpreter).1
  = Ok (VInt 5).
Proof.
  refine (for_each_variable_outlives_the_loop (exec_list (execute_stmt 1))
            [SkipStmt 2] "x" (ListLiteral [number 4 1; number 5 1] 1) 1 globals
            new_interpreter _ 0 [VInt 4] (VInt 5) _ (skip_body_leaves _)
            skip_body_never_stops _ eq_refl eq_refl _ 3).
  - split; [apply NoDup_singleton|repeat constructor].
  - reflexivity.
Defined.

(** ** Lists *)

Section WithHost.
Context `{Host} `{HostInt}.

(** A variable that is bound, read as an expression. *)
Lemma evaluate_variable env name line st v :
  get env name line st = Ok v ->
  evaluate (Identifier name line) env st = (st, Ok v).
Proof. intros Hg. simpl. by rewrite Hg. Qed.

(** A variable bound in one state is bound in a state with the same
    scopes, whatever the line of the lookup. *)
Lemma get_carried env name line line' st st' v :
  scopes st' = scopes st ->
  get env name line st = Ok v -> get env name line' st' = Ok v.
Proof.
  intros Hs Hg. rewrite (ObjectFacts.get_same_scopes env name line' st st' Hs).
  by apply (ObjectFacts.get_ok_any_line env name line).
Qed.

Lemma add_to_list_run value_expr xs line env st ref st1 v :
  get env xs line st = Ok (VList ref) ->
  evaluate value_expr env st = (st1, Ok v) ->
  _exec_add_to_list value_expr xs line env st
  = (with_lists (fun s => <[ref := (list_at st1 ref ++ [v])%list]> s) st1, Ok tt).
Proof.
  intros Hg Hv. unfold _exec_add_to_list. unfold bind at 1. unfold lift.
  rewrite Hg. unfold bind. by rewrite Hv.
Qed.


Lemma delete_last {A} (l : list A) (x : A) :
  delete (length l) (l ++ [x])%list = l.
Proof. induction l as [|a l IH]; [done|]. simpl. by f_equal. Qed.

(** X27: removing the item just added gives back the state before the
    addition: after [Add v to xs], [Remove item n from xs] with [n] the new
    length leaves the interpreter in the state in which the value [v] had
    been evaluated. *)
Theorem remove_undoes_add value_expr index_expr xs line line' env st ref st1 v :
  get env xs line st = Ok (VList ref) ->
  evaluate value_expr env st = (st1, Ok v) ->
  (ref < length (lists st1))%nat ->
  let r := _exec_add_to_list value_expr xs line env st in
  evaluate index_expr env r.1
  = (r.1, Ok (VInt (Z.of_nat (length (list_at st1 ref)) + 1))) ->
  _exec_remove_from_list index_expr xs line' env r.1 = (st1, Ok tt).
Proof.
  intros Hg Hv Href r.
  pose proof (Frames.evaluate_keeps_scopes value_expr env st) as Hs.
  rewrite Hv in Hs; simpl in Hs.
  unfold r. rewrite (add_to_list_run _ _ _ _ _ _ _ _ Hg Hv). cbn [fst].
  set (old := list_at st1 ref).
  set (st2 := with_lists (fun s => <[ref := (old ++ [v])%list]> s) st1).
  intros Hn.
  assert (Hl2 : list_at st2 ref = (old ++ [v])%list).
  { unfold list_at, st2, with_lists; simpl. by rewrite list_lookup_insert_eq. }
  unfold _exec_remove_from_list. unfold bind at 1. unfold lift.
  rewrite (get_carried env xs line line' st st2 _ Hs Hg).
  unfold bind at 1. rewrite Hn. unfold bind. cbn [py_int_of ret].
  rewrite Hl2, length_app. cbn [length].
  rewrite (proj2 (Z.ltb_ge _ 0)), (proj2 (Z.leb_gt _ _)) by lia.
  cbn [orb]. f_equal.
  replace (Z.to_nat (Z.of_nat (length old) + 1 - 1)) with (length old) by lia.
  rewrite delete_last. unfold st2, with_lists; simpl.
  rewrite list_insert_insert_eq.
  assert (Hold : lists st1 !! ref = Some old).
  { unfold old, list_at. destruct (lists st1 !! ref) eqn:Hlk; [done|].
    apply lookup_ge_None in Hlk. lia. }
  rewrite (list_insert_id _ _ _ Hold). by destruct st1.
Qed.

(** ** Texts *)


(** ** Properties *)

(** X29: a property set on an object is the property read from it
    afterwards, through whatever expression gives the same object, and the
    other properties read as before: they are the value stored, or the
    error that the object has no such property. *)
Theorem property_set_then_get obj_expr p value_expr line env st st1 st2
    class_name bag v :
  evaluate obj_expr env st = (st1, Ok (VInstance class_name bag)) ->
  evaluate value_expr env st1 = (st2, Ok v) ->
  (bag < length (bags st2))%nat ->
  let r := _exec_set_property obj_expr p value_expr line env st in
  r.2 = Ok tt /\
  forall e cn q l,
    evaluate e env r.1 = (r.1, Ok (VInstance cn bag)) ->
    _eval_property_access e q l env r.1
    = (r.1,
       if String.eqb q p then Ok v
       else match bag_at st2 bag !! q with
            | Some w => Ok w
            | None =>
                Raise (Error (RuntimeError_
                  (line_prefix l +:+ "Property '" +:+ q
                   +:+ "' not found on object of class '" +:+ cn +:+ "'.") []))
            end).
Proof.
  intros Ho Hv Hbag r.
  set (st3 := with_bags (fun s => <[bag := <[p := v]> (bag_at st2 bag)]> s) st2).
  assert (Hr : r = (st3, Ok tt)).
  { unfold r, _exec_set_property. unfold bind at 1. rewrite Ho.
    unfold bind. by rewrite Hv. }
  rewrite Hr. cbn [fst snd]. split; [done|].
  intros e cn q l He. unfold _eval_property_access, bind. rewrite He.
  assert (Hb : bag_at st3 bag = <[p := v]> (bag_at st2 bag)).
  { unfold bag_at at 1, st3, with_bags; simpl. by rewrite list_lookup_insert_eq. }
  rewrite Hb. destruct (String.eqb q p) eqn:Hq.
  - apply String.eqb_eq in Hq as ->. by rewrite lookup_insert_eq.
  - apply String.eqb_neq in Hq. rewrite lookup_insert_ne by done.
    by destruct (bag_at st2 bag !! q).
Qed.

(** X30: a property set on a dictionary is its text key: after
    [_exec_set_property] on a dictionary held by a variable, the property
    read and the value read for the key of that text are both the value
    set. *)
Theorem property_of_a_dictionary_is_its_key d ld p value_expr line env st st1
    ref v :
  get env d ld st = Ok (VDict ref) ->
  evaluate value_expr env st = (st1, Ok v) ->
  (ref < length (dicts st1))%nat ->
  let r := _exec_set_property (Identifier d ld) p value_expr line env st in
  r.2 = Ok tt /\
  forall l1 l2 l3,
    _eval_property_access (Identifier d l1) p l3 env r.1 = (r.1, Ok v) /\
    evaluate (DictAccess (Identifier d l1) (StringLiteral p l2) l3) env r.1
    = (r.1, Ok v).
Proof.
  intros Hg Hv Href r.
  pose proof (Frames.evaluate_keeps_scopes value_expr env st) as Hs.
  rewrite Hv in Hs; simpl in Hs.
  set (st2 := with_dicts
                (fun t => <[ref := dict_set (VStr p) v (dict_at st1 ref)]> t) st1).
  assert (Hr : r = (st2, Ok tt)).
  { unfold r, _exec_set_property. unfold bind at 1.
    rewrite (evaluate_variable _ _ _ _ _ Hg). unfold bind. by rewrite Hv. }
  rewrite Hr. cbn [fst snd]. split; [done|]. intros l1 l2 l3.
  assert (Hd2 : dict_at st2 ref = dict_set (VStr p) v (dict_at st1 ref)).
  { unfold dict_at at 1, st2, with_dicts; simpl. by rewrite list_lookup_insert_eq. }
  assert (Hg2 : get env d l1 st2 = Ok (VDict ref))
    by (by apply (get_carried env d ld l1 st st2)).
  split.
  - unfold _eval_property_access, bind.
    rewrite (evaluate_variable _ _ _ _ _ Hg2), Hd2.
    by rewrite ObjectFacts.dict_mem_set_same, ObjectFacts.dict_get_set_same.
  - rewrite (ObjectFacts.evaluate_text_access env d p l1 l2 l3 st2 ref Hg2), Hd2.
    pose proof (ObjectFacts.dict_get_set_same p v (dict_at st1 ref)) as Hget.
    unfold dict_get in Hget.
    destruct (List.find _ (dict_set (VStr p) v (dict_at st1 ref))) as [kv|]; [|done].
    simpl in Hget. by injection Hget as ->.
Qed.

End WithHost.

(** [Let xs be [4, 5]] *)
Definition with_two_items : State :=
  (execute 2 [LetStmt "xs" (ListLiteral [number 4 1; number 5 1] 1) 1] globals
           new_interpreter).1.


Lemma remove_undoes_add_witness :
  _exec_remove_from_list (number 3 3) "xs" 3 globals
    (_exec_add_to_list (number 6 2) "xs" 2 globals with_two_items).1
  = (with_two_items, Ok tt).
Proof.
  exact (remove_undoes_add (number 6 2) (number 3 3) "xs" 2 3 globals
           with_two_items 0 with_two_items (VInt 6) eq_refl eq_refl
           ltac:(vm_compute; lia) eq_refl).
Defined.


Lemma property_set_then_get_witness :
  let r := _exec_set_property (Identifier "d" 7) "name" (StringLiteral "Rex" 7) 7
                              globals DispatchFacts.zoo in
  _eval_property_access (Identifier "d" 8) "name" 8 globals r.1
  = (r.1, Ok (VStr "Rex")).
Proof.
  exact (proj2 (property_set_then_get (Identifier "d" 7) "name"
                  (StringLiteral "Rex" 7) 7 globals DispatchFacts.zoo
                  DispatchFacts.zoo DispatchFacts.zoo "Dog" 0 (VStr "Rex")
                  eq_refl eq_refl ltac:(vm_compute; lia))
               (Identifier "d" 8) "Dog" "name" 8 eq_refl).
Defined.

Lemma property_of_a_dictionary_is_its_key_witness :
  let r := _exec_set_property (Identifier "d" 2) "a" (number 7 2) 2 globals
                              ValueFacts.with_empty_dict in
  evaluate (DictAccess (Identifier "d" 3) (StringLiteral "a" 3) 3) globals r.1
  = (r.1, Ok (VInt 7)).
Proof.
  exact (proj2 (proj2 (property_of_a_dictionary_is_its_key "d" 2 "a" (number 7 2) 2
                         globals ValueFacts.with_empty_dict
                         ValueFacts.with_empty_dict 0 (VInt 7) eq_refl eq_refl
                         ltac:(vm_compute; lia))
                      3 3 3)).
Defined.

End BuiltinFacts.
